(** * BinderHub build handler ([binderhub/builder.py]): model and properties

    The development follows the layout of the Python module:

    - [PyStr]: Python [str] values as lists of Unicode code points, with the
      string methods the handler uses (slices, [split], [rsplit], [replace],
      [lower], [encode('utf-8')]);
    - [Sha256]: [hashlib.sha256(...).hexdigest()];
    - [Escapism]: [escapism.escape];
    - the name mangling functions [_safe_build_slug] and
      [_generate_build_name], and the image name computed in
      [BuildHandler.get];
    - the handler itself ([emit], [fail], [get], [launch]) as a state and
      exception monad over a log of the effects the handler performs. *)

From Stdlib Require Import String Ascii List ZArith NArith Lia Bool.
Import ListNotations.

Set Implicit Arguments.

(* ===================================================================== *)
(** ** Python strings *)
(* ===================================================================== *)

Module PyStr.

(** A Python [str] is a sequence of code points; [len] counts code points. *)
Definition codepoint := N.
Definition str := list codepoint.
Definition bytes := list N.

Definition str_eqb (a b : str) : bool :=
  if list_eq_dec N.eq_dec a b then true else false.

(** Reading of the literals of this file: a Rocq string holds the UTF-8
    bytes of the Python literal, [u] decodes them into code points. *)
Fixpoint utf8_decode (bs : bytes) : str :=
  match bs with
  | [] => []
  | b0 :: r0 =>
      if (b0 <? 0x80)%N then b0 :: utf8_decode r0
      else if (b0 <? 0xE0)%N then
        match r0 with
        | b1 :: r1 => ((b0 mod 0x20) * 0x40 + b1 mod 0x40)%N :: utf8_decode r1
        | _ => []
        end
      else if (b0 <? 0xF0)%N then
        match r0 with
        | b1 :: b2 :: r2 =>
            ((b0 mod 0x10) * 0x1000 + (b1 mod 0x40) * 0x40 + b2 mod 0x40)%N
            :: utf8_decode r2
        | _ => []
        end
      else
        match r0 with
        | b1 :: b2 :: b3 :: r3 =>
            ((b0 mod 0x08) * 0x40000 + (b1 mod 0x40) * 0x1000
             + (b2 mod 0x40) * 0x40 + b3 mod 0x40)%N
            :: utf8_decode r3
        | _ => []
        end
  end.

Definition u (s : string) : str :=
  utf8_decode (map N_of_ascii (list_ascii_of_string s)).

(** The characters the handler names. *)
Definition DASH : codepoint := 45%N.        (* '-' *)
Definition UNDERSCORE : codepoint := 95%N.  (* '_' *)
Definition COLON : codepoint := 58%N.       (* ':' *)
Definition SLASH : codepoint := 47%N.       (* '/' *)
Definition QUOTE : codepoint := 34%N.       (* the double quote *)

Definition quoted (s : str) : str := QUOTE :: s ++ [QUOTE].

Definition is_upper (c : codepoint) : bool := (65 <=? c)%N && (c <=? 90)%N.
Definition is_lower (c : codepoint) : bool := (97 <=? c)%N && (c <=? 122)%N.
Definition is_digit (c : codepoint) : bool := (48 <=? c)%N && (c <=? 57)%N.
Definition is_ascii_char (c : codepoint) : bool := (c <? 128)%N.
Definition is_ascii (s : str) : bool := forallb is_ascii_char s.

(** [string.ascii_letters + string.digits] *)
Definition is_alnum (c : codepoint) : bool := is_lower c || is_upper c || is_digit c.

(** The alphabet of DNS labels, of escaped text and of hexadecimal digests. *)
Definition is_dns_char (c : codepoint) : bool := is_lower c || is_digit c || (c =? DASH)%N.
Definition is_escaped_char (c : codepoint) : bool := is_alnum c || (c =? DASH)%N.
Definition is_hex_char (c : codepoint) : bool :=
  is_digit c || ((97 <=? c)%N && (c <=? 102)%N).

(** A code point that [encode('utf-8')] accepts: a Unicode scalar value
    (lone surrogates raise UnicodeEncodeError). *)
Definition is_scalar (c : codepoint) : bool :=
  (c <? 0xD800)%N || ((0xDFFF <? c)%N && (c <? 0x110000)%N).
Definition encodable (s : str) : bool := forallb is_scalar s.

Definition utf8_encode_char (c : codepoint) : option bytes :=
  if (c <? 0x80)%N then Some [c]
  else if (c <? 0x800)%N then
    Some [0xC0 + c / 0x40; 0x80 + c mod 0x40]%N
  else if (c <? 0x10000)%N then
    if is_scalar c then
      Some [0xE0 + c / 0x1000; 0x80 + (c / 0x40) mod 0x40; 0x80 + c mod 0x40]%N
    else None
  else if (c <? 0x110000)%N then
    Some [0xF0 + c / 0x40000; 0x80 + (c / 0x1000) mod 0x40;
          0x80 + (c / 0x40) mod 0x40; 0x80 + c mod 0x40]%N
  else None.

(** [s.encode('utf-8')]; [None] stands for UnicodeEncodeError. *)
Fixpoint encode_utf8 (s : str) : option bytes :=
  match s with
  | [] => Some []
  | c :: r =>
      match utf8_encode_char c, encode_utf8 r with
      | Some b, Some br => Some (b ++ br)
      | _, _ => None
      end
  end.

(** [len(s)] as a Python int. *)
Definition len (s : str) : Z := Z.of_nat (length s).

(** [s[:n]] for any int [n]: a negative bound counts from the end. *)
Definition slice_to (s : str) (n : Z) : str :=
  if (n <? 0)%Z then firstn (Z.to_nat (Z.max 0 (len s + n))) s
  else firstn (Z.to_nat n) s.

(** [s[n:]] for [n >= 0]. *)
Definition slice_from (s : str) (n : nat) : str := skipn n s.

(** [s.replace(a, b)] for one-character [a] and [b]. *)
Definition replace_char (a b : codepoint) (s : str) : str :=
  map (fun c => if (c =? a)%N then b else c) s.

Definition lower_char (c : codepoint) : codepoint :=
  if is_upper c then (c + 32)%N else c.

(** [s.split(sep)] for a one-character separator: every occurrence splits. *)
Fixpoint split (sep : codepoint) (s : str) : list str :=
  match s with
  | [] => [[]]
  | c :: r =>
      if (c =? sep)%N then [] :: split sep r
      else match split sep r with
           | [] => [[c]]
           | w :: ws => (c :: w) :: ws
           end
  end.

(** [s.split(sep, 1)]: at most one split, at the leftmost separator. *)
Fixpoint split1 (sep : codepoint) (s : str) : list str :=
  match s with
  | [] => [[]]
  | c :: r =>
      if (c =? sep)%N then [[]; r]
      else match split1 sep r with
           | w :: ws => (c :: w) :: ws
           | [] => [[c]]
           end
  end.

(** [s.rsplit(sep, 1)[0]]: the part before the rightmost separator, the
    whole string when there is none. *)
Fixpoint rsplit1_head (sep : codepoint) (s : str) : str :=
  match s with
  | [] => []
  | c :: r =>
      if existsb (N.eqb sep) r then c :: rsplit1_head sep r
      else if (c =? sep)%N then []
      else c :: r
  end.

(** [s.rsplit(sep, 1)[1]] when there is a separator. *)
Fixpoint rsplit1_tail (sep : codepoint) (s : str) : option str :=
  match s with
  | [] => None
  | c :: r =>
      if existsb (N.eqb sep) r then rsplit1_tail sep r
      else if (c =? sep)%N then Some r
      else None
  end.

(** [sep.join(parts)] *)
Fixpoint join (sep : str) (parts : list str) : str :=
  match parts with
  | [] => []
  | [p] => p
  | p :: ps => p ++ sep ++ join sep ps
  end.

(** [l[-2:]] *)
Definition last_two {A} (l : list A) : list A := skipn (length l - 2) l.

(** [s.rstrip('/')]-style stripping of one trailing character class. *)
Definition rstrip_char (c : codepoint) (s : str) : str :=
  rev ((fix drop (l : str) : str :=
          match l with
          | x :: r => if (x =? c)%N then drop r else l
          | [] => []
          end) (rev s)).

Definition startswith (p s : str) : bool := str_eqb (firstn (length p) s) p.

Definition starts_with_char (c : codepoint) (s : str) : bool :=
  match s with
  | x :: _ => (x =? c)%N
  | [] => false
  end.

Definition ends_with_char (c : codepoint) (s : str) : bool :=
  starts_with_char c (rev s).

Definition contains_char (c : codepoint) (s : str) : bool := existsb (N.eqb c) s.

(** Text that starts with a character other than ['-'] and ['_'], and text
    that does not end with one of them. *)
Definition clean_head (s : str) : bool :=
  match s with
  | c :: _ => negb (c =? DASH)%N && negb (c =? UNDERSCORE)%N
  | [] => false
  end.

Definition clean_tail (s : str) : bool :=
  negb (ends_with_char DASH s) && negb (ends_with_char UNDERSCORE s).

(** [s in t] for strings: [s] is a substring of [t]. *)
Fixpoint is_substring (s t : str) : bool :=
  startswith s t ||
  match t with
  | [] => false
  | _ :: r => is_substring s r
  end.

(** [str(n)] for an int. *)
Definition digit_char (d : N) : codepoint := (48 + d)%N.

Fixpoint pos_digits (fuel : nat) (n : N) (acc : str) : str :=
  match fuel with
  | O => acc
  | S k => if (n <? 10)%N then digit_char n :: acc
           else pos_digits k (n / 10)%N (digit_char (n mod 10)%N :: acc)
  end.

Definition str_of_int (z : Z) : str :=
  let n := Z.to_N (Z.abs z) in
  let ds := pos_digits (S (N.to_nat (N.log2 n))) n [] in
  if (z <? 0)%Z then DASH :: ds else ds.

End PyStr.
Import PyStr.

(* ===================================================================== *)
(** ** hashlib.sha256 *)
(* ===================================================================== *)

(** [hashlib.sha256(data).hexdigest()] following FIPS 180-4, on 32-bit words
    kept as [N] below [2^32]. *)
Module Sha256.

Definition MASK : N := 0xFFFFFFFF.
Definition wrap (x : N) : N := N.land x MASK.
Definition plus32 (a b : N) : N := wrap (a + b).
Definition rotr (k x : N) : N := N.lor (N.shiftr x k) (wrap (N.shiftl x (32 - k))).
Definition compl (x : N) : N := N.lxor x MASK.
Definition xor3 (a b c : N) : N := N.lxor a (N.lxor b c).

Definition choose (e f g : N) : N := N.lxor (N.land e f) (N.land (compl e) g).
Definition majority (a b c : N) : N := xor3 (N.land a b) (N.land a c) (N.land b c).
Definition big_sigma0 (a : N) : N := xor3 (rotr 2 a) (rotr 13 a) (rotr 22 a).
Definition big_sigma1 (e : N) : N := xor3 (rotr 6 e) (rotr 11 e) (rotr 25 e).
Definition small_sigma0 (w : N) : N := xor3 (rotr 7 w) (rotr 18 w) (N.shiftr w 3).
Definition small_sigma1 (w : N) : N := xor3 (rotr 17 w) (rotr 19 w) (N.shiftr w 10).

(** The round constants are the first 32 bits of the fractional parts of
    the cube roots of the first 64 primes (FIPS 180-4, 4.2.2). *)
Definition primes : list N :=
  [2; 3; 5; 7; 11; 13; 17; 19; 23; 29; 31; 37; 41; 43; 47; 53; 59; 61; 67; 71;
   73; 79; 83; 89; 97; 101; 103; 107; 109; 113; 127; 131; 137; 139; 149; 151;
   157; 163; 167; 173; 179; 181; 191; 193; 197; 199; 211; 223; 227; 229; 233;
   239; 241; 251; 257; 263; 269; 271; 277; 281; 283; 293; 307; 311]%N.

(** The integer cube root, one bit at a time from bit [bits - 1] down. *)
Fixpoint cube_root_bits (bits : nat) (x r : N) : N :=
  match bits with
  | O => r
  | S b =>
      let c := (r + 2 ^ N.of_nat b)%N in
      cube_root_bits b x (if (c * c * c <=? x)%N then c else r)
  end.

Definition cube_root (x : N) : N := cube_root_bits 40 x 0.

Definition round_constants : list N :=
  Eval vm_compute in map (fun p => (cube_root (p * 2 ^ 96) mod 2 ^ 32)%N) primes.

(** The eight working variables. *)
Record digest := Digest { ha : N; hb : N; hc : N; hd : N; he : N; hf : N; hg : N; hh : N }.

Definition initial_digest : digest :=
  Digest 0x6a09e667 0xbb67ae85 0x3c6ef372 0xa54ff53a
         0x510e527f 0x9b05688c 0x1f83d9ab 0x5be0cd19.

(** Padding: a 0x80 byte, zero bytes up to 56 modulo 64, then the bit length
    of the message on 8 bytes, big endian. *)
Definition be_bytes (count : nat) (x : N) : list N :=
  map (fun i => N.land (N.shiftr x (8 * N.of_nat i)) 0xFF) (rev (seq 0 count)).

Definition pad (msg : list N) : list N :=
  let n := N.of_nat (length msg) in
  let zeros := N.to_nat ((119 - n mod 64) mod 64) in
  msg ++ [0x80%N] ++ repeat 0%N zeros ++ be_bytes 8 (8 * n).

Definition be_word (b0 b1 b2 b3 : N) : N :=
  (b0 * 0x1000000 + b1 * 0x10000 + b2 * 0x100 + b3)%N.

Fixpoint words_of (fuel : nat) (bs : list N) : list N :=
  match fuel, bs with
  | S k, b0 :: b1 :: b2 :: b3 :: r => be_word b0 b1 b2 b3 :: words_of k r
  | _, _ => []
  end.

Fixpoint blocks_of (fuel : nat) (ws : list N) : list (list N) :=
  match fuel, ws with
  | S k, _ :: _ => firstn 16 ws :: blocks_of k (skipn 16 ws)
  | _, _ => []
  end.

(** The message schedule, most recent word first while it is extended. *)
Definition schedule_step (acc : list N) : list N :=
  plus32 (plus32 (small_sigma1 (nth 1 acc 0%N)) (nth 6 acc 0%N))
         (plus32 (small_sigma0 (nth 14 acc 0%N)) (nth 15 acc 0%N)) :: acc.

Definition schedule (block : list N) : list N :=
  rev (Nat.iter 48 schedule_step (rev block)).

Definition round (d : digest) (kw : N * N) : digest :=
  let t1 := plus32 (plus32 (hh d) (big_sigma1 (he d)))
                   (plus32 (choose (he d) (hf d) (hg d)) (plus32 (fst kw) (snd kw))) in
  let t2 := plus32 (big_sigma0 (ha d)) (majority (ha d) (hb d) (hc d)) in
  Digest (plus32 t1 t2) (ha d) (hb d) (hc d) (plus32 (hd d) t1) (he d) (hf d) (hg d).

Definition compress (d : digest) (block : list N) : digest :=
  let r := fold_left round (combine round_constants (schedule block)) d in
  Digest (plus32 (ha d) (ha r)) (plus32 (hb d) (hb r)) (plus32 (hc d) (hc r))
         (plus32 (hd d) (hd r)) (plus32 (he d) (he r)) (plus32 (hf d) (hf r))
         (plus32 (hg d) (hg r)) (plus32 (hh d) (hh r)).

Definition sha256 (msg : list N) : digest :=
  let padded := pad msg in
  let ws := words_of (length padded) padded in
  fold_left compress (blocks_of (length ws) ws) initial_digest.

(** Lower-case hexadecimal, eight digits per word. *)
Definition hex_digit (d : N) : codepoint :=
  if (d <? 10)%N then (48 + d)%N else (87 + d)%N.

Definition word_hex (w : N) : str :=
  map (fun i => hex_digit (N.land (N.shiftr w (4 * N.of_nat i)) 0xF)) (rev (seq 0 8)).

Definition hexdigest (msg : list N) : str :=
  let d := sha256 msg in
  word_hex (ha d) ++ word_hex (hb d) ++ word_hex (hc d) ++ word_hex (hd d) ++
  word_hex (he d) ++ word_hex (hf d) ++ word_hex (hg d) ++ word_hex (hh d).

End Sha256.

(* ===================================================================== *)
(** ** Exceptions and fallible values *)
(* ===================================================================== *)

(** The exceptions that can leave the code of [builder.py]. [Exception msg]
    is an exception raised by a collaborator (provider, launcher, docker
    client) whose [str(e)] is [msg]. *)
Inductive exn :=
| UnicodeEncodeError
| TypeError
| UnboundLocalError
| KeyError
| AttributeError
| JSONDecodeError
| HTTPClientError
| ImageNotFound
| Finish
| Exception (msg : str).

Inductive result (A : Type) :=
| Ok (a : A)
| Raise (e : exn).
Arguments Ok {A} a.
Arguments Raise {A} e.

Definition rbind {A B} (r : result A) (k : A -> result B) : result B :=
  match r with
  | Ok a => k a
  | Raise e => Raise e
  end.

Declare Scope result_scope.
Delimit Scope result_scope with result.
Notation "'let?' x ':=' r 'in' k" := (rbind r (fun x => k))
  (at level 10, x name, r at level 100, k at level 200) : result_scope.

(* ===================================================================== *)
(** ** escapism.escape *)
(* ===================================================================== *)

(** [escapism.escape(s, safe=safe_chars, escape_char='-')] as the handler
    calls it: a safe character is kept, any other is replaced by its UTF-8
    bytes, each written as the escape character followed by ['%X' % byte]
    (upper-case hexadecimal, not padded). *)
Module Escapism.

Definition upper_hex_digit (d : N) : codepoint :=
  if (d <? 10)%N then (48 + d)%N else (55 + d)%N.

(** ['%X' % byte] *)
Definition format_X (byte : N) : str :=
  if (byte <? 16)%N then [upper_hex_digit byte]
  else [upper_hex_digit (byte / 16); upper_hex_digit (byte mod 16)].

Definition _escape_char (escape_char : codepoint) (c : codepoint) : result str :=
  match utf8_encode_char c with
  | Some bs => Ok (flat_map (fun byte => escape_char :: format_X byte) bs)
  | None => Raise UnicodeEncodeError
  end.

Fixpoint escape (safe : codepoint -> bool) (escape_char : codepoint)
         (to_escape : str) : result str :=
  match to_escape with
  | [] => Ok []
  | c :: r =>
      (let? head := (if safe c then Ok [c] else _escape_char escape_char c) in
       let? tail := escape safe escape_char r in
       Ok (head ++ tail))%result
  end.

End Escapism.

(* ===================================================================== *)
(** ** JSON values and Python dicts *)
(* ===================================================================== *)

(** What [json.loads] returns and [json.dumps] accepts. A dict keeps its
    insertion order, which is the order [json.dumps] writes. *)
#[local] Set Warnings "-register-all".
Inductive json :=
| JNull
| JBool (b : bool)
| JInt (z : Z)
| JStr (s : str)
| JList (items : list json)
| JDict (items : list (str * json)).

Definition dict (V : Type) := list (str * V).

(** [d.get(k)] *)
Fixpoint dict_get {V} (k : str) (d : dict V) : option V :=
  match d with
  | [] => None
  | (k', v) :: r => if str_eqb k' k then Some v else dict_get k r
  end.

(** [d[k] = v]: an existing key keeps its place, a new key goes last. *)
Fixpoint dict_set {V} (k : str) (v : V) (d : dict V) : dict V :=
  match d with
  | [] => [(k, v)]
  | (k', v') :: r => if str_eqb k' k then (k', v) :: r else (k', v') :: dict_set k v r
  end.

(** [d.update(other)] *)
Definition dict_update {V} (d other : dict V) : dict V :=
  fold_left (fun acc kv => dict_set (fst kv) (snd kv) acc) other d.

(** [bool(x)] *)
Definition truthy (j : json) : bool :=
  match j with
  | JNull => false
  | JBool b => b
  | JInt z => negb (z =? 0)%Z
  | JStr s => negb (str_eqb s [])
  | JList l => match l with [] => false | _ => true end
  | JDict d => match d with [] => false | _ => true end
  end.

(** [x == s] for a string [s]. *)
Definition json_is_str (s : str) (j : json) : bool :=
  match j with
  | JStr s' => str_eqb s' s
  | _ => false
  end.

(** [a or b] on strings: [a] when it is a string that is not empty. *)
Definition str_or (a : option str) (b : str) : str :=
  match a with
  | Some [] | None => b
  | Some s => s
  end.

Definition NL : str := [10%N].
Definition TAB : str := [9%N].

(* ===================================================================== *)
(** ** The handler's collaborators *)
(* ===================================================================== *)

(** The answer of a collaborator: a value, or an exception whose [str(e)]
    is [msg]. *)
Inductive answer (A : Type) :=
| Returns (a : A)
| Throws (msg : str).
Arguments Returns {A} a.
Arguments Throws {A} msg.

(** The provider capability, as far as the handler reads it. Calls for which
    the handler has no [except] clause are taken to return. *)
Module Provider.
Record t := {
  name : str;
  is_banned : bool;
  get_authorization_provider : option str;
  validate_authorized_token : str -> bool;
  get_authorization_url : str -> str;
  get_repo_url : str;
  get_resolved_ref : answer (option str);
  unresolved_ref : str;
  get_resolved_ref_url : str;
  get_resolved_spec : str;
  get_build_slug : str;
  (** [provider.repo_config(settings).get('quota')] *)
  quota : option Z;
}.
End Provider.

(** The launcher capability. [launch k] is the answer to the call that
    follows [k] earlier calls. *)
Module Launcher.
Record t := {
  retries : Z;
  retry_delay : Z;
  allow_named_servers : bool;
  unique_name_from_repo : str -> str;
  launch : nat -> answer (dict str);
}.
End Launcher.

(** [registry.get_image_manifest(repo, tag)] *)
Inductive manifest_answer :=
| Manifest (m : json)
| ManifestHTTPClientError
| ManifestError (msg : str).

(** [docker_client.images.get(image_name)] *)
Inductive docker_answer :=
| DockerImage
| DockerImageNotFound
| DockerError (msg : str).

(** An item of the build queue: [{'kind': ..., 'payload': ...}]. *)
Record progress := { kind : str; payload : str }.

Definition phasechange (phase : str) : progress :=
  {| kind := u "pod.phasechange"; payload := phase |}.
Definition log_event (line : str) : progress := {| kind := u "log"; payload := line |}.

(** The pod phases the handler tells apart. *)
Inductive pod_phase := Pending | Running | Succeeded | Deleted | OtherPhase.

Definition classify_phase (phase : str) : pod_phase :=
  if str_eqb phase (u "Pending") then Pending
  else if str_eqb phase (u "Deleted") then Deleted
  else if str_eqb phase (u "Running") then Running
  else if str_eqb phase (u "Succeeded") then Succeeded
  else OtherPhase.

(** The request, the settings and the collaborators of one call of
    [BuildHandler.get]. *)
Record env := {
  (* the request *)
  provider_prefix : str;
  request_spec : str;                       (* get_spec_from_request(prefix) *)
  userctx : option str;                     (* get_argument('userctx', None) *)
  repo_token_arg : option str;              (* get_argument('repo_token', None) *)
  query_arguments : list (str * list str);  (* request.query_arguments, decoded *)
  request_protocol : str;
  request_host : str;
  current_user_name : str;                  (* get_current_user()['name'] *)
  hub_user_name : option str;               (* hub_auth.get_user(self) *)
  (* the settings *)
  provider_configured : bool;               (* provider_prefix in settings['repo_providers'] *)
  auth_enabled : bool;
  use_registry : bool;
  image_prefix : str;
  base_url : str;
  normalized_origin : str;
  badge_base_url : option str;              (* get_badge_base_url() *)
  (* the collaborators *)
  get_provider : answer Provider.t;
  get_access_token_for : str -> option str; (* by auth_provider_id *)
  new_session : str -> str;                 (* by auth_provider_id *)
  get_image_manifest : nat -> str -> str -> manifest_answer;
  docker_images_get : str -> docker_answer;
  build_queue : list progress;              (* what the build puts on the queue *)
  pods : list (list str);                   (* listed pods, each its container images *)
  launcher : Launcher.t;
  (** the number of frames flushed before the client closes the stream,
      [None] when it stays open *)
  stream_closes_after : option nat;
}.

(* ===================================================================== *)
(** ** The effects of the handler *)
(* ===================================================================== *)

Inductive status := success | failure | retry.

Inductive gauge := BUILDS_INPROGRESS | LAUNCHES_INPROGRESS.

(** What the handler does to the outside, in the order it does it. *)
Inductive effect :=
| EmitFrame (data : json)                   (* self.write('data: ...\n\n'), in emit and send_error *)
| SpawnKeepAlive                            (* spawn_callback(self.keep_alive) *)
| ResolveRef                                (* provider.get_resolved_ref() *)
| NewSession (auth_provider_id : str)       (* tokenstore.new_session *)
| RegisterToken (state token : str)         (* tokenstore.register_token *)
| RegistryGetManifest (repo tag : str)       (* registry.get_image_manifest *)
| DockerImagesGet (image : str)
| SubmitBuild (build_name image ref : str)  (* pool.submit(build.submit) *)
| SubmitStreamLogs                          (* pool.submit(build.stream_logs) *)
| QueueGet (p : progress)                   (* await q.get() *)
| ListPods                                  (* kube.list_namespaced_pod *)
| LauncherLaunch (image username server_name repo_url : str) (extra_args : dict json)
| EventLogLaunch (provider spec ref origin : str)
| Sleep (seconds : Z)                       (* gen.sleep *)
| GaugeInc (g : gauge)
| GaugeDec (g : gauge)
| BuildTimeObserve (s : status)
| BuildCountInc (s : status) (provider repo : str)
| LaunchTimeObserve (s : status) (retries : Z)
| LaunchCountInc (s : status) (provider repo : str).

(** How a coroutine ends: it returns, raises, or awaits for ever. *)
Inductive outcome (A : Type) :=
| Returned (a : A)
| Raised (e : exn)
| Blocked.
Arguments Returned {A} a.
Arguments Raised {A} e.
Arguments Blocked {A}.

(* ===================================================================== *)
(** ** Requests used as examples *)
(* ===================================================================== *)

(** Concrete requests, in the style of the end-to-end scenarios: the GitHub
    provider on [owner/repo], a registry, a build queue and a launcher. *)
Module Scenario.

(** The texts of these requests are ASCII where [lower] is applied. *)
Definition no_unicode (s : str) : str := s.

Definition log_line (phase message : str) : str :=
  u "{" ++ quoted (u "phase") ++ u ": " ++ quoted phase ++ u ", "
  ++ quoted (u "message") ++ u ": " ++ quoted message ++ u "}".

Definition log_object (phase message : str) : json :=
  JDict [(u "phase", JStr phase); (u "message", JStr message)].

Definition building_log : str := log_line (u "building") (u "Step 1/4").
Definition failure_log : str := log_line (u "failure") (u "bad Dockerfile").
Definition failed_log : str := log_line (u "failed") (u "push rejected").

(** [json.loads] on the log lines above. *)
Definition loads (s : str) : option json :=
  if str_eqb s building_log then Some (log_object (u "building") (u "Step 1/4"))
  else if str_eqb s failure_log then Some (log_object (u "failure") (u "bad Dockerfile"))
  else if str_eqb s failed_log then Some (log_object (u "failed") (u "push rejected"))
  else None.

Definition github (authorization_provider : option str) (quota : option Z)
  : Provider.t :=
  {| Provider.name := u "GitHub";
     Provider.is_banned := false;
     Provider.get_authorization_provider := authorization_provider;
     Provider.validate_authorized_token := fun _ => true;
     Provider.get_authorization_url := fun state => u "https://github.com/login/oauth/authorize?state=" ++ state;
     Provider.get_repo_url := u "https://github.com/owner/repo";
     Provider.get_resolved_ref := Returns (Some (u "abc123"));
     Provider.unresolved_ref := u "main";
     Provider.get_resolved_ref_url := u "https://github.com/owner/repo/tree/abc123";
     Provider.get_resolved_spec := u "owner/repo/abc123";
     Provider.get_build_slug := u "owner-repo";
     Provider.quota := quota |}.

Definition server : dict str :=
  [(u "url", u "https://hub.example.org/user/owner-repo-x1/");
   (u "token", u "t0ken")].

Definition a_launcher (retries retry_delay : Z) (launch : nat -> answer (dict str))
  : Launcher.t :=
  {| Launcher.retries := retries;
     Launcher.retry_delay := retry_delay;
     Launcher.allow_named_servers := false;
     Launcher.unique_name_from_repo := fun _ => u "owner-repo-x1";
     Launcher.launch := launch |}.

(** Every launch succeeds. *)
Definition launches (k : nat) : answer (dict str) := Returns server.

(** The first [n] launches raise, the next succeeds. *)
Definition launches_after (n : nat) (k : nat) : answer (dict str) :=
  if (k <? n)%nat then Throws (u "timeout") else Returns server.

Definition request (user_context : option str) (auth : bool) (provider : Provider.t)
           (prefix : str) (manifest : nat -> manifest_answer) (queue : list progress)
           (running : list (list str)) (l : Launcher.t) (closes : option nat) : env :=
  {| provider_prefix := u "gh";
     request_spec := u "owner/repo/abc123";
     userctx := user_context;
     repo_token_arg := None;
     query_arguments := [];
     request_protocol := u "https";
     request_host := u "binder.example.org";
     current_user_name := u "alice";
     hub_user_name := None;
     provider_configured := true;
     auth_enabled := auth;
     use_registry := true;
     image_prefix := prefix;
     base_url := u "/";
     normalized_origin := [];
     badge_base_url := None;
     get_provider := Returns provider;
     get_access_token_for := fun _ => None;
     new_session := fun _ => u "state-1";
     get_image_manifest := fun k _ _ => manifest k;
     docker_images_get := fun _ => DockerImageNotFound;
     build_queue := queue;
     pods := running;
     launcher := l;
     stream_closes_after := closes |}.

Definition no_manifest (k : nat) : manifest_answer := Manifest JNull.
Definition a_manifest (k : nat) : manifest_answer :=
  Manifest (JDict [(u "schemaVersion", JInt 2)]).
Definition registry_down (k : nat) : manifest_answer := ManifestHTTPClientError.

(** The image of [owner-repo] at [abc123] under the prefix [reg/r2d-]. *)
Definition image : str := u "reg/r2d-owner-2drepo-60160f:abc123".

(** What the registry is asked for that image. *)
Definition image_repo : str := u "reg/r2d-owner-2drepo-60160f".

(** S1, the image is in the registry and the launch succeeds. *)
Definition cache_hit : env :=
  request None false (github None None) (u "reg/r2d-") a_manifest []
          [] (a_launcher 3 1 launches) None.

(** S2, the image is built, then launched. *)
Definition fresh_build : env :=
  request None false (github None None) (u "reg/r2d-") no_manifest
          [phasechange (u "Pending"); phasechange (u "Running");
           log_event building_log; phasechange (u "Deleted")]
          [] (a_launcher 3 1 launches) None.

(** S3, the build fails and its pod is deleted. *)
Definition failed_build : env :=
  request None false (github None None) (u "reg/r2d-") no_manifest
          [phasechange (u "Running"); log_event failure_log;
           phasechange (u "Deleted")]
          [] (a_launcher 3 1 launches) None.

(** S4, five pods run the image and the quota is five. *)
Definition five_pods : list (list str) :=
  repeat [u "reg/r2d-owner-2drepo-60160f:abc123"] 5.

Definition over_quota : env :=
  request None false (github None (Some 5%Z)) (u "reg/r2d-") a_manifest []
          five_pods (a_launcher 3 1 launches) None.

(** The quota of the repo is 0 and no pod runs the image. *)
Definition quota_zero : env :=
  request None false (github None (Some 0%Z)) (u "reg/r2d-") a_manifest []
          [] (a_launcher 3 1 launches) None.

(** S5, the launch fails twice, then succeeds. *)
Definition two_retries : env :=
  request None false (github None None) (u "reg/r2d-") a_manifest []
          [] (a_launcher 3 1 (launches_after 2)) None.

(** The launch fails at each of the three attempts. *)
Definition launch_fails : env :=
  request None false (github None None) (u "reg/r2d-") a_manifest []
          [] (a_launcher 3 1 (launches_after 3)) None.

(** The request carries [userctx] and the provider has no authorization
    provider. *)
Definition with_userctx : env :=
  request (Some (u "ctx")) false (github None None) (u "reg/r2d-") a_manifest []
          [] (a_launcher 3 1 launches) None.

(** The registry is named with its port, and does not answer. *)
Definition registry_with_port : env :=
  request None false (github None None) (u "localhost:5000/r2d-") a_manifest []
          [] (a_launcher 3 1 launches) None.

Definition registry_unreachable : env :=
  request None false (github None None) (u "reg/r2d-") registry_down
          [phasechange (u "Deleted")] [] (a_launcher 3 1 launches) None.

(** A build slug of 300 characters and a commit as ref. *)
Definition long_slug : str := repeat 97%N 300.
Definition commit : str := u "0123456789abcdef0123456789abcdef01234567".

(** The client closes the stream after the first frame. *)
Definition client_leaves : env :=
  request None false (github None None) (u "reg/r2d-") a_manifest []
          [] (a_launcher 3 1 launches) (Some 1).

(** A launcher set for no attempt at all. *)
Definition no_retries : env :=
  request None false (github None None) (u "reg/r2d-") a_manifest []
          [] (a_launcher 0 1 launches) None.

(** A launcher that answers without a [url]. *)
Definition no_url : env :=
  request None false (github None None) (u "reg/r2d-") a_manifest []
          [] (a_launcher 3 1 (fun _ => Returns [(u "token", u "t0ken")])) None.

(** An event of the build queue of a kind the handler does not know. *)
Definition build_status : progress := {| kind := u "build.status"; payload := u "idle" |}.

(** The image prefix names the host of the registry before the project. *)
Definition registry_with_host : env :=
  request None false (github None None) (u "gcr.io/binder/r2d-") a_manifest []
          [] (a_launcher 3 1 launches) None.

(** The cached image, on a hub whose badges name another host. *)
Definition with_badge : env :=
  {| provider_prefix := provider_prefix cache_hit;
     request_spec := request_spec cache_hit;
     userctx := userctx cache_hit;
     repo_token_arg := repo_token_arg cache_hit;
     query_arguments := query_arguments cache_hit;
     request_protocol := request_protocol cache_hit;
     request_host := request_host cache_hit;
     current_user_name := current_user_name cache_hit;
     hub_user_name := hub_user_name cache_hit;
     provider_configured := provider_configured cache_hit;
     auth_enabled := auth_enabled cache_hit;
     use_registry := use_registry cache_hit;
     image_prefix := image_prefix cache_hit;
     base_url := base_url cache_hit;
     normalized_origin := normalized_origin cache_hit;
     badge_base_url := Some (u "https://badge.example.org/");
     get_provider := get_provider cache_hit;
     get_access_token_for := get_access_token_for cache_hit;
     new_session := new_session cache_hit;
     get_image_manifest := get_image_manifest cache_hit;
     docker_images_get := docker_images_get cache_hit;
     build_queue := build_queue cache_hit;
     pods := pods cache_hit;
     launcher := launcher cache_hit;
     stream_closes_after := stream_closes_after cache_hit |}.

(** A log line with phase [failed], then the end of the build. *)
Definition failed_log_build : env :=
  request None false (github None None) (u "reg/r2d-") no_manifest
          [phasechange (u "Running"); log_event failed_log;
           phasechange (u "Deleted")]
          [] (a_launcher 3 1 launches) None.

(** [http.client.responses], as far as the examples read it, and
    [extract_message] on exceptions that have no [log_message]. *)
Definition reasons (status_code : Z) : option str :=
  if (status_code =? 500)%Z then Some (u "Internal Server Error") else None.

Definition no_message (e : exn) : str := [].

End Scenario.

(* ===================================================================== *)
(** ** Name mangling: [_generate_build_name], [_safe_build_slug] *)
(* ===================================================================== *)

Section Builder.

(** [str.lower()] follows the Unicode case tables; on ASCII text it maps
    [A-Z] to [a-z]. The mapping of text with non-ASCII characters is the
    parameter [unicode_lower]. *)
Variable unicode_lower : str -> str.

(** [json.loads] on the payload of a log event; [None] stands for
    json.JSONDecodeError. *)
Variable json_loads : str -> option json.

Definition lower (s : str) : str :=
  if is_ascii s then map lower_char s else unicode_lower s.

(** [hashlib.sha256(s.encode('utf-8')).hexdigest()] *)
Definition sha256_hexdigest (s : str) : result str :=
  match encode_utf8 s with
  | Some bs => Ok (Sha256.hexdigest bs)
  | None => Raise UnicodeEncodeError
  end.

(** builder.py, lines 91-112. [hash_length] defaults to 6. *)
Definition _safe_build_slug (build_slug : str) (limit : Z) (hash_length : Z)
  : result str :=
  (let? build_slug_hash := sha256_hexdigest build_slug in
   let? build_slug := Escapism.escape is_alnum DASH build_slug in
   Ok (lower (slice_to build_slug (limit - hash_length - 1)
              ++ u "-" ++ slice_to build_slug_hash hash_length)))%result.

(** builder.py, lines 60-88. The defaults are [prefix=''], [limit=63],
    [ref_length=6]. *)
Definition _generate_build_name (build_slug ref prefix : str)
           (limit ref_length : Z) : result str :=
  (let? build_slug :=
     _safe_build_slug build_slug (limit - len prefix - ref_length - 1) 6 in
   let? ref := _safe_build_slug ref ref_length 2 in
   Ok (lower (prefix ++ build_slug ++ u "-" ++ slice_to ref ref_length)))%result.

(** builder.py, lines 340-351: the names computed in [BuildHandler.get]
    from [settings['image_prefix']], [provider.get_build_slug()] and the
    resolved ref. *)
Definition build_name_of (build_slug ref : str) : result str :=
  _generate_build_name build_slug ref (u "build-") 63 6.

Definition format_image_name (image_prefix safe_build_slug ref : str) : str :=
  lower (replace_char UNDERSCORE DASH (image_prefix ++ safe_build_slug ++ u ":" ++ ref)).

Definition image_name_of (image_prefix build_slug ref : str) : result str :=
  (let? safe_build_slug := _safe_build_slug build_slug (255 - len image_prefix) 6 in
   Ok (format_image_name image_prefix safe_build_slug ref))%result.

(* ===================================================================== *)
(** ** The handler monad *)
(* ===================================================================== *)

Variable E : env.

Definition trace := list effect.

(** A step of the handler reads the effects so far and extends them. *)
Definition M (A : Type) := trace -> outcome A * trace.

Definition ret {A} (a : A) : M A := fun t => (Returned a, t).

Definition bind {A B} (m : M A) (k : A -> M B) : M B :=
  fun t =>
    match m t with
    | (Returned a, t') => k a t'
    | (Raised e, t') => (Raised e, t')
    | (Blocked, t') => (Blocked, t')
    end.

Definition raise {A} (e : exn) : M A := fun t => (Raised e, t).
Definition block {A} : M A := fun t => (Blocked, t).
Definition perform (e : effect) : M unit := fun t => (Returned tt, t ++ [e]).

Definition lift {A} (r : result A) : M A :=
  match r with
  | Ok a => ret a
  | Raise e => raise e
  end.

Notation "x <- m ;; k" := (bind m (fun x => k))
  (at level 61, m at next level, right associativity).
Notation "m ;; k" := (bind m (fun _ => k))
  (at level 61, right associativity).

(** [with GAUGE.track_inprogress(): body]: the gauge is decremented however
    the body ends, as long as it ends. *)
Definition track_inprogress {A} (g : gauge) (body : M A) : M A :=
  fun t =>
    match body (t ++ [GaugeInc g]) with
    | (Blocked, t') => (Blocked, t')
    | (o, t') => (o, t' ++ [GaugeDec g])
    end.

Definition is_frame (e : effect) : bool :=
  match e with
  | EmitFrame _ => true
  | _ => false
  end.

Definition frames_written (t : trace) : nat := length (filter is_frame t).

(** builder.py, lines 122-134. A [str] is written as it is, anything else
    through [json.dumps]; [flush] raises StreamClosedError once the client
    is gone, which [emit] turns into [Finish]. *)
Definition emit (data : json) : M unit :=
  fun t =>
    let t' := t ++ [EmitFrame data] in
    match stream_closes_after E with
    | Some n => if n <=? frames_written t then (Raised Finish, t') else (Returned tt, t')
    | None => (Returned tt, t')
    end.

(** builder.py, lines 188-194. *)
Definition fail (message : str) : M unit :=
  emit (JDict [(u "phase", JStr (u "failed")); (u "message", JStr (message ++ NL))]).

(* ===================================================================== *)
(** ** [BuildHandler.launch] *)
(* ===================================================================== *)

(** The attributes [get] leaves on [self] for [launch]. *)
Record attrs := {
  repo_token : option str;
  repo_url : str;
  metric_provider : str;   (* repo_metric_labels['provider'] *)
  ref_url : str;
  binder_launch_host : str;
  binder_request : str;
  binder_persistent_request : str;
  image_name : str;
}.

(** Lines 536-544: pods with a container whose image, tag apart, is ours. *)
Definition pod_matches (image_no_tag : str) (containers : list str) : bool :=
  existsb (fun image => str_eqb (rsplit1_head COLON image) image_no_tag) containers.

Definition matching_pods (image_no_tag : str) (items : list (list str)) : Z :=
  Z.of_nat (length (filter (pod_matches image_no_tag) items)).

(** Line 549: [quota and matching_pods >= quota]. *)
Definition quota_exceeded (quota : option Z) (matching : Z) : bool :=
  match quota with
  | Some q => negb (q =? 0)%Z && (q <=? matching)%Z
  | None => false
  end.

(** Lines 572-586. *)
Definition launch_identity (self : attrs) : str * str :=
  if auth_enabled E then
    let username :=
      match hub_user_name E with
      | Some n => n
      | None => current_user_name E
      end in
    (username,
     if Launcher.allow_named_servers (launcher E)
     then Launcher.unique_name_from_repo (launcher E) (repo_url self)
     else [])
  else (Launcher.unique_name_from_repo (launcher E) (repo_url self), []).

(** Lines 588-599. *)
Definition launch_extra_args (self : attrs) : dict json :=
  let extra_args :=
    [(u "binder_ref_url", JStr (ref_url self));
     (u "binder_launch_host", JStr (binder_launch_host self));
     (u "binder_request", JStr (binder_request self));
     (u "binder_persistent_request", JStr (binder_persistent_request self))] in
  let extra_args :=
    dict_set (u "repo_token")
             (match repo_token self with Some t => JStr t | None => JNull end)
             extra_args in
  fold_left
    (fun acc kv =>
       if startswith (u "useropt.") (fst kv)
       then dict_set (slice_from (fst kv) 8) (JStr (join TAB (snd kv))) acc
       else acc)
    (query_arguments E) extra_args.

Definition retry_message (attempt : Z) : str :=
  u "Launch attempt " ++ str_of_int attempt ++ u " failed, retrying..." ++ NL
  ++ u "起動に" ++ str_of_int attempt ++ u "回失敗しました。リトライしています..." ++ NL.

(** Lines 570-659: the [for i in range(launcher.retries)] loop, [todo]
    iterations from index [i] on. It ends with the [server_info] of the
    attempt that succeeded, with [None] when it runs out (no iteration
    assigned [server_info]), or raises after the last attempt failed. *)
Fixpoint launch_attempts (self : attrs) (todo : nat) (i : Z) (retry_delay : Z)
  : M (option (dict str)) :=
  match todo with
  | O => ret None
  | S todo' =>
      let (username, server_name) := launch_identity self in
      perform (LauncherLaunch (image_name self) username server_name (repo_url self)
                              (launch_extra_args self)) ;;
      match Launcher.launch (launcher E) (Z.to_nat i) with
      | Throws msg =>
          let last := (i + 1 =? Launcher.retries (launcher E))%Z in
          let st := if last then failure else retry in
          perform (LaunchTimeObserve st (-1)) ;;
          (if last
           then perform (LaunchCountInc st (metric_provider self) (repo_url self))
           else ret tt) ;;
          if last then
            emit (JDict [(u "phase", JStr (u "failed")); (u "message", JStr msg)]) ;;
            raise (Exception msg)
          else
            emit (JDict [(u "phase", JStr (u "launching"));
                         (u "message", JStr (retry_message (i + 1)))]) ;;
            perform (Sleep retry_delay) ;;
            launch_attempts self todo' (i + 1)%Z (retry_delay * 2)%Z
      | Returns server_info =>
          perform (LaunchTimeObserve success i) ;;
          perform (LaunchCountInc success (metric_provider self) (repo_url self)) ;;
          ret (Some server_info)
      end
  end.

(** Lines 660-665. *)
Definition emit_ready (server_info : option (dict str)) : M unit :=
  match server_info with
  | None => raise UnboundLocalError
  | Some info =>
      match dict_get (u "url") info with
      | None => raise KeyError
      | Some url =>
          let event :=
            [(u "phase", JStr (u "ready"));
             (u "message", JStr (u "server running at " ++ url ++ NL))] in
          emit (JDict (dict_update event (map (fun kv => (fst kv, JStr (snd kv))) info)))
      end
  end.

Definition quota_message (self : attrs) : str :=
  u "Too many users running " ++ repo_url self ++ u "! Try again soon." ++ NL
  ++ repo_url self
  ++ u "の実行が集中しています。しばらく待っても改善しない場合は、管理者へお問い合わせください。".

(** builder.py, lines 512-665. *)
Definition launch (self : attrs) (provider : Provider.t) : M unit :=
  let image_no_tag := rsplit1_head COLON (image_name self) in
  perform ListPods ;;
  let matching := matching_pods image_no_tag (pods E) in
  let quota := Provider.quota provider in
  if quota_exceeded quota matching then fail (quota_message self)
  else
    emit (JDict [(u "phase", JStr (u "launching"));
                 (u "message", JStr (u "Launching server..." ++ NL))]) ;;
    server_info <- launch_attempts self (Z.to_nat (Launcher.retries (launcher E))) 0
                                   (Launcher.retry_delay (launcher E)) ;;
    emit_ready server_info.

(* ===================================================================== *)
(** ** [BuildHandler.get] *)
(* ===================================================================== *)

(** A part of [get] either goes on with a value or ends the request
    ([return]). *)
Inductive flow (A : Type) :=
| Continue (a : A)
| Return.
Arguments Continue {A} a.
Arguments Return {A}.

Definition banned_message (spec : str) : str :=
  u "Sorry, " ++ spec
  ++ u " has been temporarily disabled from launching. Please contact admins for more info!"
  ++ NL ++ spec ++ u "が一時的に起動できなくなりました。管理者へお問い合わせください。".

(** Lines 250-280: the authorization step. It goes on with [auth_token]
    (which is also what [self.repo_token] is set to). *)
Definition authorize (provider : Provider.t) : M (flow (option str)) :=
  let auth_provider_id := Provider.get_authorization_provider provider in
  auth_provider_id <-
    match userctx E with
    | Some caller_userctx =>
        match auth_provider_id with
        | Some id => ret (Some (id ++ u "-" ++ caller_userctx))
        | None => raise TypeError
        end
    | None => ret auth_provider_id
    end ;;
  match auth_provider_id with
  | Some id =>
      if auth_enabled E then
        let auth_token := get_access_token_for E id in
        let auth_token :=
          match auth_token with
          | Some tok => if Provider.validate_authorized_token provider tok
                        then Some tok else None
          | None => None
          end in
        match repo_token_arg E with
        | Some repo_token =>
            perform (NewSession id) ;;
            perform (RegisterToken (new_session E id) repo_token) ;;
            ret (Continue (Some repo_token))
        | None =>
            match auth_token with
            | None =>
                perform (NewSession id) ;;
                emit (JDict [(u "phase", JStr (u "auth"));
                             (u "message", JStr (u "Authorization required..." ++ NL));
                             (u "authorization_url",
                              JStr (Provider.get_authorization_url provider (new_session E id)))]) ;;
                ret Return
            | Some tok => ret (Continue (Some tok))
            end
        end
      else ret (Continue None)
  | None => ret (Continue None)
  end.

(** Lines 297-317: the message sent when the ref resolves to [None]. *)
Definition unresolved_ref_message (provider : Provider.t) (key : str) : str :=
  let error_message :=
    [u "Could not resolve ref for " ++ key ++ u ". Double check your URL.";
     u "リポジトリURLを確認してください。"] in
  let error_message :=
    if str_eqb (Provider.name provider) (u "GitHub") then
      let error_message :=
        error_message
        ++ [u "GitHub recently changed default branches from " ++ quoted (u "master")
            ++ u " to " ++ quoted (u "main") ++ u ".";
            u "GitHub は2020年に、デフォルトブランチ名を " ++ quoted (u "master")
            ++ u " から " ++ quoted (u "main") ++ u " へ変更しました。"] in
      if str_eqb (Provider.unresolved_ref provider) (u "master") then
        error_message
        ++ [u "Did you mean the " ++ quoted (u "main") ++ u " branch?";
            quoted (u "main") ++ u " ブランチではありませんか？"]
      else if str_eqb (Provider.unresolved_ref provider) (u "main") then
        error_message
        ++ [u "Did you mean the " ++ quoted (u "master") ++ u " branch?";
            quoted (u "master") ++ u " ブランチではありませんか？"]
      else error_message
    else
      error_message
      ++ [u "Is your repo public?";
          u "リポジトリが公開されていない可能性があります。"] in
  join NL error_message.

(** Lines 290-317. *)
Definition resolve_ref (provider : Provider.t) (key : str) : M (flow str) :=
  perform ResolveRef ;;
  match Provider.get_resolved_ref provider with
  | Throws e =>
      fail (u "Error resolving ref for " ++ key ++ u ": " ++ e ++ NL
            ++ u "リポジトリURLを確認してください。") ;;
      ret Return
  | Returns None => fail (unresolved_ref_message provider key) ;; ret Return
  | Returns (Some ref) => ret (Continue ref)
  end.

(** Lines 353-361: the registry is asked up to three times. *)
Definition manifest_args (image_name : str) : list str :=
  split1 COLON (join (u "/") (last_two (split SLASH image_name))).

Fixpoint probe_registry (attempts k : nat) (image_name : str) : M bool :=
  match attempts with
  | O => ret false
  | S attempts' =>
      match manifest_args image_name with
      | [repo; tag] =>
          perform (RegistryGetManifest repo tag) ;;
          match get_image_manifest E k repo tag with
          | Manifest image_manifest => ret (truthy image_manifest)
          | ManifestHTTPClientError => probe_registry attempts' (S k) image_name
          | ManifestError msg => raise (Exception msg)
          end
      | _ => raise TypeError
      end
  end.

(** Lines 362-372. *)
Definition probe_docker (image_name : str) : M bool :=
  perform (DockerImagesGet image_name) ;;
  match docker_images_get E image_name with
  | DockerImage => ret true
  | DockerImageNotFound => ret false
  | DockerError msg => raise (Exception msg)
  end.

Definition image_found (image_name : str) : M bool :=
  if use_registry E then probe_registry 3 0 image_name else probe_docker image_name.

Definition built_event (message image_name : str) : json :=
  JDict [(u "phase", JStr (u "built"));
         (u "message", JStr (message ++ NL));
         (u "imageName", JStr image_name)].

Definition found_event (image_name : str) : json :=
  JDict [(u "phase", JStr (u "built"));
         (u "imageName", JStr image_name);
         (u "message", JStr (u "Found built image, launching..." ++ NL))].

(** The local variables of the [while not done] loop. [event] is [None]
    until an iteration assigns it. *)
Record loop_vars := {
  log_future : bool;    (* [log_future is not None] *)
  failed : bool;
  event : option json;
}.

(** Line 481: [payload.get('phase') in ('failure', 'failed')]. *)
Definition is_failure_phase (phase : option json) : bool :=
  match phase with
  | Some v => json_is_str (u "failure") v || json_is_str (u "failed") v
  | None => false
  end.

(** Lines 450-486: the loop over the build queue; it ends with [failed].
    With nothing left on the queue, [await q.get()] does not return. *)
Fixpoint build_loop (self : attrs) (q : list progress) (vars : loop_vars) : M bool :=
  match q with
  | [] => block
  | progress :: q' =>
      perform (QueueGet progress) ;;
      if str_eqb (kind progress) (u "pod.phasechange") then
        if str_eqb (payload progress) (u "Pending") then build_loop self q' vars
        else if str_eqb (payload progress) (u "Deleted") then
          emit (built_event (u "Built image, launching...") (image_name self)) ;;
          ret (failed vars)
        else if str_eqb (payload progress) (u "Running") then
          (if log_future vars then ret tt else perform SubmitStreamLogs) ;;
          build_loop self q'
                     {| log_future := true; failed := failed vars; event := event vars |}
        else if str_eqb (payload progress) (u "Succeeded") then build_loop self q' vars
        else
          let ev := JDict [(u "phase", JStr (payload progress))] in
          emit ev ;;
          build_loop self q'
                     {| log_future := log_future vars; failed := failed vars;
                        event := Some ev |}
      else if str_eqb (kind progress) (u "log") then
        let ev := JStr (payload progress) in
        match json_loads (payload progress) with
        | None => raise JSONDecodeError
        | Some (JDict items) =>
            let bad := is_failure_phase (dict_get (u "phase") items) in
            (if bad then
               perform (BuildTimeObserve failure) ;;
               perform (BuildCountInc failure (metric_provider self) (repo_url self))
             else ret tt) ;;
            emit ev ;;
            build_loop self q'
                       {| log_future := log_future vars;
                          failed := bad || failed vars; event := Some ev |}
        | Some _ => raise AttributeError
        end
      else
        match event vars with
        | None => raise UnboundLocalError
        | Some ev => emit ev ;; build_loop self q' vars
        end
  end.

Definition event_log_launch (provider : Provider.t) (spec ref : str) : M unit :=
  perform (EventLogLaunch (Provider.name provider) spec ref
             (match normalized_origin E with
              | [] => request_host E
              | o => o
              end)).

(** Lines 319-351: what [get] computes once the ref is resolved. *)
Definition make_attrs (provider : Provider.t) (spec ref : str)
           (auth_token : option str) (image_name : str) : attrs :=
  {| repo_token := auth_token;
     repo_url := Provider.get_repo_url provider;
     metric_provider := Provider.name provider;
     ref_url := Provider.get_resolved_ref_url provider;
     binder_launch_host :=
       str_or (badge_base_url E)
              (request_protocol E ++ u "://" ++ request_host E ++ base_url E);
     binder_request := u "v2/" ++ provider_prefix E ++ u "/" ++ spec;
     binder_persistent_request :=
       u "v2/" ++ provider_prefix E ++ u "/" ++ Provider.get_resolved_spec provider;
     image_name := image_name |}.

(** Lines 432-510: the build path, entered when the image was not found. *)
Definition build_and_launch (self : attrs) (provider : Provider.t)
           (spec ref build_name : str) : M unit :=
  failed <-
    track_inprogress BUILDS_INPROGRESS
      (perform (SubmitBuild build_name (image_name self) ref) ;;
       emit (JDict [(u "phase", JStr (u "waiting"));
                    (u "message", JStr (u "Waiting for build to start..." ++ NL))]) ;;
       build_loop self (build_queue E)
                  {| log_future := false; failed := false; event := None |}) ;;
  (if failed then ret tt
   else
     perform (BuildTimeObserve success) ;;
     perform (BuildCountInc success (metric_provider self) (repo_url self)) ;;
     track_inprogress LAUNCHES_INPROGRESS (launch self provider) ;;
     event_log_launch provider spec ref) ;;
  perform (Sleep 60).

(** builder.py, lines 203-510. *)
Definition get : M unit :=
  if negb (provider_configured E) then
    fail (u "No provider found for prefix " ++ provider_prefix E)
  else
    perform SpawnKeepAlive ;;
    let spec := rstrip_char SLASH (request_spec E) in
    let key := provider_prefix E ++ u ":" ++ spec in
    match get_provider E with
    | Throws e => fail e
    | Returns provider =>
        if Provider.is_banned provider then
          emit (JDict [(u "phase", JStr (u "failed"));
                       (u "message", JStr (banned_message spec))])
        else
          authorized <- authorize provider ;;
          match authorized with
          | Return => ret tt
          | Continue auth_token =>
              resolved <- resolve_ref provider key ;;
              match resolved with
              | Return => ret tt
              | Continue ref =>
                  safe_build_slug <-
                    lift (_safe_build_slug (Provider.get_build_slug provider)
                                           (255 - len (image_prefix E)) 6) ;;
                  build_name <-
                    lift (build_name_of (Provider.get_build_slug provider) ref) ;;
                  let self :=
                    make_attrs provider spec ref auth_token
                      (format_image_name (image_prefix E) safe_build_slug ref) in
                  found <- image_found (image_name self) ;;
                  if found then
                    emit (found_event (image_name self)) ;;
                    track_inprogress LAUNCHES_INPROGRESS (launch self provider) ;;
                    event_log_launch provider spec ref
                  else build_and_launch self provider spec ref build_name
              end
          end
    end.

(** The attributes [get] sets for [owner/repo] at [abc123], the request of
    the examples. *)
Definition example_attrs : attrs :=
  make_attrs (Scenario.github None None) (u "owner/repo/abc123") (u "abc123") None
             Scenario.image.

(* ===================================================================== *)
(** ** Reading a trace *)
(* ===================================================================== *)

(** The data frames written to the stream, in order. *)
Definition frames (t : trace) : list json :=
  flat_map (fun e => match e with EmitFrame data => [data] | _ => [] end) t.

(** The [phase] a client reads in a frame: a frame written from a [str] is
    the JSON text of a log event. *)
Definition frame_phase (frame : json) : option json :=
  match frame with
  | JDict items => dict_get (u "phase") items
  | JStr line =>
      match json_loads line with
      | Some (JDict items) => dict_get (u "phase") items
      | _ => None
      end
  | _ => None
  end.

Definition has_phase (phase : str) (frame : json) : bool :=
  match frame_phase frame with
  | Some v => json_is_str phase v
  | None => false
  end.

(** A terminal event: phase [ready] or [failed]. *)
Definition is_terminal (frame : json) : bool :=
  has_phase (u "ready") frame || has_phase (u "failed") frame.

(** Exactly one terminal event is written, and it is the last frame. *)
Definition one_terminal_frame_last (fs : list json) : bool :=
  match rev fs with
  | last :: before => is_terminal last && forallb (fun f => negb (is_terminal f)) before
  | [] => false
  end.

(** No frame follows a terminal event (so there is at most one). *)
Definition terminal_frames_last (fs : list json) : bool :=
  match rev fs with
  | _ :: before => forallb (fun f => negb (is_terminal f)) before
  | [] => true
  end.

(** What the stream has seen so far: no terminal event yet, a terminal event
    as its last frame, or a frame after a terminal event. *)
Inductive stream_state := Open | Closed | Broken.

Definition stream_step (s : stream_state) (e : effect) : stream_state :=
  match e with
  | EmitFrame frame =>
      match s with
      | Open => if is_terminal frame then Closed else Open
      | _ => Broken
      end
  | _ => s
  end.

Definition stream_scan (s : stream_state) (t : trace) : stream_state :=
  fold_left stream_step t s.

(** The build events forwarded to the client carry no terminal phase of
    their own: no payload is [ready] or [failed], and none is a JSON text
    with such a phase. *)
Definition plain_progress (p : progress) : bool :=
  negb (is_terminal (JStr (payload p)))
  && negb (is_terminal (JDict [(u "phase", JStr (payload p))])).

Definition plain_queue (q : list progress) : bool := forallb plain_progress q.

(** The event a loop iteration may write again is not a terminal one. *)
Definition plain_event (ev : option json) : bool :=
  match ev with
  | Some frame => negb (is_terminal frame)
  | None => true
  end.

Definition not_frame (e : effect) : bool := negb (is_frame e).

(** Effects of the launch step: listing pods, calling the launcher, and the
    launch metrics. *)
Definition is_launch_effect (e : effect) : bool :=
  match e with
  | ListPods | LauncherLaunch _ _ _ _ _
  | LaunchTimeObserve _ _ | LaunchCountInc _ _ _
  | GaugeInc LAUNCHES_INPROGRESS | GaugeDec LAUNCHES_INPROGRESS => true
  | _ => false
  end.

Definition is_launcher_call (e : effect) : bool :=
  match e with
  | LauncherLaunch _ _ _ _ _ => true
  | _ => false
  end.

Definition is_launch_time (e : effect) : bool :=
  match e with
  | LaunchTimeObserve _ _ => true
  | _ => false
  end.

Definition is_submit_logs (e : effect) : bool :=
  match e with
  | SubmitStreamLogs => true
  | _ => false
  end.

Definition count_effects (P : effect -> bool) (t : trace) : nat := length (filter P t).

(** A log event with phase [failure] or [failed] taken from the queue. *)
Definition is_failure_log (p : progress) : bool :=
  str_eqb (kind p) (u "log")
  && match json_loads (payload p) with
     | Some (JDict items) => is_failure_phase (dict_get (u "phase") items)
     | _ => false
     end.

Definition consumes_failure_log (e : effect) : bool :=
  match e with
  | QueueGet p => is_failure_log p
  | _ => false
  end.

Definition not_launch (e : effect) : bool := negb (is_launch_effect e).
Definition not_failure_log (e : effect) : bool := negb (consumes_failure_log e).

Definition is_build_failure (e : effect) : bool :=
  match e with
  | BuildTimeObserve failure => true
  | _ => false
  end.

Definition is_auth_request (e : effect) : bool :=
  match e with
  | EmitFrame frame => has_phase (u "auth") frame
  | _ => false
  end.

(** Whether the client is still there for the next frame. *)
Definition stream_open (t : trace) : bool :=
  match stream_closes_after E with
  | Some n => negb (n <=? frames_written t)
  | None => true
  end.

(** The outcome of an [emit]. *)
Definition emitted (t : trace) : outcome unit :=
  if stream_open t then Returned tt else Raised Finish.

(** *** The effects of the launch loop, attempt by attempt *)

Definition launcher_call (self : attrs) : effect :=
  let (username, server_name) := launch_identity self in
  LauncherLaunch (image_name self) username server_name (repo_url self)
                 (launch_extra_args self).

(** A failed attempt that is not the last: attempt [i] (from 0). *)
Definition retry_effects (self : attrs) (i : nat) : trace :=
  [launcher_call self;
   LaunchTimeObserve retry (-1);
   EmitFrame (JDict [(u "phase", JStr (u "launching"));
                     (u "message", JStr (retry_message (Z.of_nat i + 1)))]);
   Sleep (Launcher.retry_delay (launcher E) * 2 ^ Z.of_nat i)].

(** The last attempt, failed with [message]. *)
Definition last_failure_effects (self : attrs) (message : str) : trace :=
  [launcher_call self;
   LaunchTimeObserve failure (-1);
   LaunchCountInc failure (metric_provider self) (repo_url self);
   EmitFrame (JDict [(u "phase", JStr (u "failed")); (u "message", JStr message)])].

(** Attempt [i] succeeded. *)
Definition success_effects (self : attrs) (i : nat) : trace :=
  [launcher_call self;
   LaunchTimeObserve success (Z.of_nat i);
   LaunchCountInc success (metric_provider self) (repo_url self)].

(* ===================================================================== *)
(** ** Reasoning about the handler monad *)
(* ===================================================================== *)

(** [wp m Q t]: run from [t], [m] ends in an outcome and a trace that
    satisfy [Q]. *)
Definition wp {A} (m : M A) (Q : outcome A -> trace -> Prop) (t : trace) : Prop :=
  Q (fst (m t)) (snd (m t)).

(** [spec m R]: [m] only appends to the trace, and what it appends
    satisfies [R] together with its outcome. *)
Definition spec {A} (m : M A) (R : outcome A -> trace -> Prop) : Prop :=
  forall t, exists d, snd (m t) = t ++ d /\ R (fst (m t)) d.

(* ===================================================================== *)
(** ** Counting the effects of a request *)
(* ===================================================================== *)

Definition status_eqb (s s' : status) : bool :=
  match s, s' with
  | success, success | failure, failure | retry, retry => true
  | _, _ => false
  end.

Definition gauge_eqb (g g' : gauge) : bool :=
  match g, g' with
  | BUILDS_INPROGRESS, BUILDS_INPROGRESS
  | LAUNCHES_INPROGRESS, LAUNCHES_INPROGRESS => true
  | _, _ => false
  end.

(** An effect without its data: what is done, not on what. *)
Inductive effect_kind :=
| KFrame
| KKeepAlive
| KResolveRef
| KNewSession
| KRegisterToken
| KRegistry
| KDocker
| KSubmitBuild
| KSubmitLogs
| KQueueGet
| KListPods
| KLauncher
| KEventLog
| KSleep
| KGaugeInc (g : gauge)
| KGaugeDec (g : gauge)
| KBuildTime (s : status)
| KBuildCount (s : status)
| KLaunchTime (s : status)
| KLaunchCount (s : status).

Definition kind_of (e : effect) : effect_kind :=
  match e with
  | EmitFrame _ => KFrame
  | SpawnKeepAlive => KKeepAlive
  | ResolveRef => KResolveRef
  | NewSession _ => KNewSession
  | RegisterToken _ _ => KRegisterToken
  | RegistryGetManifest _ _ => KRegistry
  | DockerImagesGet _ => KDocker
  | SubmitBuild _ _ _ => KSubmitBuild
  | SubmitStreamLogs => KSubmitLogs
  | QueueGet _ => KQueueGet
  | ListPods => KListPods
  | LauncherLaunch _ _ _ _ _ => KLauncher
  | EventLogLaunch _ _ _ _ => KEventLog
  | Sleep _ => KSleep
  | GaugeInc g => KGaugeInc g
  | GaugeDec g => KGaugeDec g
  | BuildTimeObserve s => KBuildTime s
  | BuildCountInc s _ _ => KBuildCount s
  | LaunchTimeObserve s _ => KLaunchTime s
  | LaunchCountInc s _ _ => KLaunchCount s
  end.

Definition kind_eqb (k k' : effect_kind) : bool :=
  match k, k' with
  | KFrame, KFrame | KKeepAlive, KKeepAlive | KResolveRef, KResolveRef
  | KNewSession, KNewSession | KRegisterToken, KRegisterToken
  | KRegistry, KRegistry | KDocker, KDocker | KSubmitBuild, KSubmitBuild
  | KSubmitLogs, KSubmitLogs | KQueueGet, KQueueGet | KListPods, KListPods
  | KLauncher, KLauncher | KEventLog, KEventLog | KSleep, KSleep => true
  | KGaugeInc g, KGaugeInc g' | KGaugeDec g, KGaugeDec g' => gauge_eqb g g'
  | KBuildTime s, KBuildTime s' | KBuildCount s, KBuildCount s'
  | KLaunchTime s, KLaunchTime s' | KLaunchCount s, KLaunchCount s' => status_eqb s s'
  | _, _ => false
  end.

(** How many effects of kind [k] a trace holds. *)
Definition count_kind (k : effect_kind) (t : trace) : nat :=
  count_effects (fun e => kind_eqb (kind_of e) k) t.

(** A trace that holds effects of the kinds [ks] only. *)
Definition only_kinds (ks : list effect_kind) (t : trace) : bool :=
  forallb (fun e => existsb (kind_eqb (kind_of e)) ks) t.

(** The kinds of effects of the loop over the build queue (lines 450-486),
    of [launch] (lines 512-665) and of the search for the image (lines
    353-372). *)
Definition build_loop_kinds : list effect_kind :=
  [KQueueGet; KSubmitLogs; KFrame; KBuildTime failure; KBuildCount failure].

Definition launch_kinds : list effect_kind :=
  [KListPods; KFrame; KLauncher; KSleep;
   KLaunchTime success; KLaunchTime failure; KLaunchTime retry;
   KLaunchCount success; KLaunchCount failure].

Definition probe_kinds : list effect_kind := [KRegistry; KDocker].

(** How a computation stands towards a client that closes the stream after
    [n] frames: [Finish] comes with frame [n + 1], and nothing else goes
    beyond frame [n]. *)
Definition closed_at (n : nat) {A} (o : outcome A) (t : trace) : Prop :=
  match o with
  | Raised Finish => frames_written t = S n
  | _ => frames_written t <= n
  end.

Definition closing (n : nat) {A} (m : M A) : Prop :=
  forall t, frames_written t <= n -> closed_at n (fst (m t)) (snd (m t)).

(* ===================================================================== *)
(** ** [BuildHandler.send_error] *)
(* ===================================================================== *)

(** builder.py, lines 161-177: the event written for an HTTP error.
    [responses] is [http.client.responses]; [extract_message] is the method
    of the base handler, applied to [kwargs.get('exc_info')]. *)
Definition send_error {X} (responses : Z -> option str) (extract_message : X -> str)
           (status_code : Z) (exc_info : option X) : json :=
  let message :=
    match exc_info with
    | Some info => extract_message info
    | None => []
    end in
  let message :=
    match message with
    | [] => match responses status_code with
            | Some reason => reason
            | None => u "Unknown HTTP Error"
            end
    | _ => message
    end in
  JDict [(u "phase", JStr (u "failed"));
         (u "status_code", JInt status_code);
         (u "message", JStr (message ++ NL))].

(* ===================================================================== *)
(** ** The request as the framework runs it *)
(* ===================================================================== *)

(** tornado.web, [RequestHandler._handle_request_exception]: [Finish] ends
    the request and nothing is sent; any other exception goes to
    [send_error], with the status 500 unless it is a tornado HTTPError,
    which no exception of [exn] is. [BuildHandler.send_error] writes its
    event with [self.write], in the frame format of [emit], whatever was
    written before. *)
Definition _handle_request_exception (responses : Z -> option str)
           (extract_message : exn -> str) (e : exn) : M unit :=
  match e with
  | Finish => ret tt
  | _ => perform (EmitFrame (send_error responses extract_message 500 (Some e)))
  end.

(** tornado.web, [RequestHandler._execute]: [get] is awaited inside
    [try: ... except Exception as e: self._handle_request_exception(e)]. *)
Definition _execute (responses : Z -> option str) (extract_message : exn -> str)
  : M unit :=
  fun t =>
    match get t with
    | (Raised e, t') => _handle_request_exception responses extract_message e t'
    | ended => ended
    end.

(* ===================================================================== *)
(** ** The tally of a trace *)
(* ===================================================================== *)

(** The kinds counted over a request, and their counts in a trace. *)
Definition watched : list effect_kind :=
  [KKeepAlive; KResolveRef; KRegistry; KDocker; KSubmitBuild; KListPods; KLauncher;
   KEventLog; KBuildCount success; KBuildCount failure;
   KGaugeInc BUILDS_INPROGRESS; KGaugeDec BUILDS_INPROGRESS;
   KGaugeInc LAUNCHES_INPROGRESS; KGaugeDec LAUNCHES_INPROGRESS].

Definition tally (t : trace) : list nat := map (fun k => count_kind k t) watched.

(** The tally of one effect of kind [k]. *)
Definition kind_tally (k : effect_kind) : list nat :=
  map (fun k' => if kind_eqb k k' then 1 else 0) watched.

Fixpoint vadd (a b : list nat) : list nat :=
  match a, b with
  | x :: a', y :: b' => (x + y) :: vadd a' b'
  | _, _ => []
  end.

(** [wpt m P v]: run from a trace of tally [v], [m] ends with an outcome
    and a tally that satisfy [P]. *)
Definition wpt {A} (m : M A) (P : outcome A -> list nat -> Prop) (v : list nat) : Prop :=
  forall t, tally t = v -> P (fst (m t)) (tally (snd (m t))).

(* ===================================================================== *)
(** ** The names a request works with *)
(* ===================================================================== *)

(** An effect that names a build, an image or a ref names these ones. *)
Definition carries (build_name image ref : str) (e : effect) : bool :=
  match e with
  | SubmitBuild b i r => str_eqb b build_name && str_eqb i image && str_eqb r ref
  | LauncherLaunch i _ _ _ _ => str_eqb i image
  | DockerImagesGet i => str_eqb i image
  | EventLogLaunch _ _ r _ => str_eqb r ref
  | _ => true
  end.

(* ===================================================================== *)
(** ** Properties of the string model *)
(* ===================================================================== *)

Ltac bool_to_prop :=
  repeat match goal with
         | H : _ && _ = true |- _ => apply andb_true_iff in H; destruct H
         | H : _ || _ = true |- _ => apply orb_true_iff in H; destruct H
         | H : (_ <=? _)%N = true |- _ => apply N.leb_le in H
         | H : (_ <? _)%N = true |- _ => apply N.ltb_lt in H
         | H : (_ =? _)%N = true |- _ => apply N.eqb_eq in H
         | H : (_ <=? _)%N = false |- _ => apply N.leb_gt in H
         | H : (_ <? _)%N = false |- _ => apply N.ltb_ge in H
         | H : (_ =? _)%N = false |- _ => apply N.eqb_neq in H
         end.

Ltac prop_to_bool :=
  repeat match goal with
         | |- _ && _ = true => apply andb_true_iff; split
         | |- (_ <=? _)%N = true => apply N.leb_le
         | |- (_ <? _)%N = true => apply N.ltb_lt
         | |- (_ =? _)%N = true => apply N.eqb_eq
         | |- (_ <=? _)%N = false => apply N.leb_gt
         | |- (_ <? _)%N = false => apply N.ltb_ge
         | |- (_ =? _)%N = false => apply N.eqb_neq
         end.

Lemma str_eqb_eq (a b : str) : str_eqb a b = true <-> a = b.
Proof.
  unfold str_eqb. destruct (list_eq_dec N.eq_dec a b); split; congruence.
Qed.

Lemma str_eqb_refl (a : str) : str_eqb a a = true.
Proof. now apply str_eqb_eq. Qed.

Lemma str_eqb_neq (a b : str) : str_eqb a b = false <-> a <> b.
Proof.
  unfold str_eqb. destruct (list_eq_dec N.eq_dec a b); split; congruence.
Qed.

Lemma forallb_impl (P Q : codepoint -> bool) (s : str) :
  (forall c, P c = true -> Q c = true) -> forallb P s = true -> forallb Q s = true.
Proof.
  intros HPQ. induction s as [|c r IH]; simpl; [reflexivity|].
  intros H. apply andb_true_iff in H. destruct H as [Hc Hr].
  rewrite (HPQ c Hc), (IH Hr). reflexivity.
Qed.

Lemma forallb_firstn (P : codepoint -> bool) (n : nat) (s : str) :
  forallb P s = true -> forallb P (firstn n s) = true.
Proof.
  revert s. induction n as [|n IH]; intros [|c r]; simpl; try reflexivity.
  intros H. apply andb_true_iff in H. destruct H as [Hc Hr].
  rewrite Hc, (IH r Hr). reflexivity.
Qed.

Lemma forallb_slice_to (P : codepoint -> bool) (s : str) (n : Z) :
  forallb P s = true -> forallb P (slice_to s n) = true.
Proof.
  intros H. unfold slice_to. destruct (n <? 0)%Z; now apply forallb_firstn.
Qed.

Lemma forallb_map_char (P Q : codepoint -> bool) (f : codepoint -> codepoint) (s : str) :
  (forall c, P c = true -> Q (f c) = true) ->
  forallb P s = true -> forallb Q (map f s) = true.
Proof.
  intros HPQ. induction s as [|c r IH]; simpl; [reflexivity|].
  intros H. apply andb_true_iff in H. destruct H as [Hc Hr].
  rewrite (HPQ c Hc), (IH Hr). reflexivity.
Qed.

Lemma length_slice_to_le (s : str) (n : Z) :
  (0 <= n)%Z -> length (slice_to s n) <= Z.to_nat n.
Proof.
  intros Hn. unfold slice_to.
  destruct (n <? 0)%Z eqn:Hneg; [apply Z.ltb_lt in Hneg; lia|].
  apply firstn_le_length.
Qed.

Lemma slice_to_all (s : str) (n : Z) :
  (len s <= n)%Z -> slice_to s n = s.
Proof.
  intros Hn. unfold slice_to, len in *.
  destruct (n <? 0)%Z eqn:Hneg; [apply Z.ltb_lt in Hneg; lia|].
  apply firstn_all2. lia.
Qed.

Lemma slice_to_firstn (s : str) (n : nat) :
  slice_to s (Z.of_nat n) = firstn n s.
Proof.
  unfold slice_to.
  destruct (Z.of_nat n <? 0)%Z eqn:Hneg; [apply Z.ltb_lt in Hneg; lia|].
  now rewrite Nat2Z.id.
Qed.

Lemma lower_ascii (s : str) : is_ascii s = true -> lower s = map lower_char s.
Proof. intros H. unfold lower. now rewrite H. Qed.

Lemma escaped_char_ascii (c : codepoint) : is_escaped_char c = true -> is_ascii_char c = true.
Proof.
  unfold is_escaped_char, is_alnum, is_lower, is_upper, is_digit, is_ascii_char, DASH.
  intros H. bool_to_prop; prop_to_bool; lia.
Qed.

Lemma hex_char_escaped (c : codepoint) : is_hex_char c = true -> is_escaped_char c = true.
Proof.
  unfold is_hex_char, is_escaped_char, is_alnum, is_lower, is_upper, is_digit.
  intros H. apply orb_true_iff. left.
  bool_to_prop.
  - apply orb_true_iff. right. prop_to_bool; lia.
  - apply orb_true_iff. left. apply orb_true_iff. left. prop_to_bool; lia.
Qed.

Lemma lower_char_dns (c : codepoint) :
  is_escaped_char c = true -> is_dns_char (lower_char c) = true.
Proof.
  unfold is_escaped_char, is_alnum, is_dns_char, lower_char.
  intros H.
  destruct (is_upper c) eqn:Hup.
  - unfold is_upper in Hup. unfold is_lower.
    apply orb_true_iff. left. apply orb_true_iff. left.
    bool_to_prop; prop_to_bool; lia.
  - destruct (is_lower c), (is_digit c), (c =? DASH)%N; simpl in *; congruence.
Qed.

Lemma lower_char_hex (c : codepoint) : is_hex_char c = true -> lower_char c = c.
Proof.
  unfold is_hex_char, is_digit, lower_char, is_upper. intros H.
  destruct ((65 <=? c)%N && (c <=? 90)%N) eqn:Hup; [|reflexivity].
  bool_to_prop; lia.
Qed.

Lemma map_lower_hex (s : str) : forallb is_hex_char s = true -> map lower_char s = s.
Proof.
  induction s as [|c r IH]; simpl; [reflexivity|].
  intros H. apply andb_true_iff in H. destruct H as [Hc Hr].
  now rewrite (lower_char_hex c Hc), (IH Hr).
Qed.

(** *** The digest is 64 lower-case hexadecimal digits *)

Lemma hex_digit_hex (d : N) : (d < 16)%N -> is_hex_char (Sha256.hex_digit d) = true.
Proof.
  intros Hd. unfold Sha256.hex_digit, is_hex_char, is_digit.
  destruct (d <? 10)%N eqn:Hlt; bool_to_prop; apply orb_true_iff.
  - left. prop_to_bool; lia.
  - right. prop_to_bool; lia.
Qed.

Lemma word_hex_length (w : N) : length (Sha256.word_hex w) = 8.
Proof. unfold Sha256.word_hex. now rewrite length_map, length_rev, length_seq. Qed.

Lemma word_hex_chars (w : N) : forallb is_hex_char (Sha256.word_hex w) = true.
Proof.
  unfold Sha256.word_hex. apply forallb_forall. intros c Hc.
  apply in_map_iff in Hc. destruct Hc as [i [<- _]].
  apply hex_digit_hex.
  change 0xF%N with (N.ones 4). rewrite N.land_ones.
  apply N.mod_lt. discriminate.
Qed.

Lemma hexdigest_length (msg : list N) : length (Sha256.hexdigest msg) = 64.
Proof.
  unfold Sha256.hexdigest. cbv zeta.
  repeat rewrite length_app. repeat rewrite word_hex_length. reflexivity.
Qed.

Lemma hexdigest_chars (msg : list N) : forallb is_hex_char (Sha256.hexdigest msg) = true.
Proof.
  unfold Sha256.hexdigest. cbv zeta.
  repeat rewrite forallb_app. repeat rewrite word_hex_chars. reflexivity.
Qed.

(** *** [encode('utf-8')] and [escape] succeed on encodable text *)

Lemma utf8_encode_char_bytes (c : codepoint) :
  is_scalar c = true ->
  exists bs, utf8_encode_char c = Some bs /\ Forall (fun b => (b < 256)%N) bs.
Proof.
  intros Hc. unfold utf8_encode_char. rewrite Hc.
  pose proof (N.mod_lt c 0x40) as M0.
  pose proof (N.mod_lt (c / 0x40) 0x40) as M1.
  pose proof (N.mod_lt (c / 0x1000) 0x40) as M2.
  destruct (c <? 0x80)%N eqn:H1; bool_to_prop.
  { eexists; split; [reflexivity|]. repeat constructor. lia. }
  destruct (c <? 0x800)%N eqn:H2; bool_to_prop.
  { eexists; split; [reflexivity|].
    assert (c / 0x40 < 0x20)%N by (apply N.Div0.div_lt_upper_bound; lia).
    repeat constructor; lia. }
  destruct (c <? 0x10000)%N eqn:H3; bool_to_prop.
  { eexists; split; [reflexivity|].
    assert (c / 0x1000 < 0x10)%N by (apply N.Div0.div_lt_upper_bound; lia).
    repeat constructor; lia. }
  assert (Hmax : (c < 0x110000)%N).
  { unfold is_scalar in Hc. bool_to_prop; lia. }
  apply N.ltb_lt in Hmax. rewrite Hmax. apply N.ltb_lt in Hmax.
  eexists; split; [reflexivity|].
  assert (c / 0x40000 < 0x5)%N by (apply N.Div0.div_lt_upper_bound; lia).
  repeat constructor; lia.
Qed.

Lemma encode_utf8_encodable (s : str) :
  encodable s = true -> exists bs, encode_utf8 s = Some bs.
Proof.
  induction s as [|c r IH]; simpl; [eauto|].
  intros H. apply andb_true_iff in H. destruct H as [Hc Hr].
  destruct (utf8_encode_char_bytes c Hc) as [b [-> _]].
  destruct (IH Hr) as [br ->]. eauto.
Qed.

Lemma ascii_encodable (s : str) : is_ascii s = true -> encodable s = true.
Proof.
  apply forallb_impl. intros c Hc. unfold is_ascii_char, is_scalar in *.
  apply orb_true_iff. left. bool_to_prop; prop_to_bool; lia.
Qed.

Lemma upper_hex_digit_alnum (d : N) :
  (d < 16)%N -> is_escaped_char (Escapism.upper_hex_digit d) = true.
Proof.
  intros Hd. unfold Escapism.upper_hex_digit, is_escaped_char, is_alnum,
    is_lower, is_upper, is_digit.
  apply orb_true_iff. left.
  destruct (d <? 10)%N eqn:Hlt; bool_to_prop; apply orb_true_iff.
  - right. prop_to_bool; lia.
  - left. apply orb_true_iff. right. prop_to_bool; lia.
Qed.

Lemma format_X_chars (byte : N) :
  (byte < 256)%N -> forallb is_escaped_char (Escapism.format_X byte) = true.
Proof.
  intros Hb. unfold Escapism.format_X.
  destruct (byte <? 16)%N eqn:Hlt; bool_to_prop; simpl.
  - now rewrite upper_hex_digit_alnum.
  - rewrite !upper_hex_digit_alnum; [reflexivity| |].
    + apply N.mod_lt. discriminate.
    + apply N.Div0.div_lt_upper_bound. lia.
Qed.

Lemma escape_char_chars (c : codepoint) :
  is_scalar c = true ->
  exists e, Escapism._escape_char DASH c = Ok e /\ forallb is_escaped_char e = true.
Proof.
  intros Hc. unfold Escapism._escape_char.
  destruct (utf8_encode_char_bytes c Hc) as [bs [-> Hbs]].
  eexists; split; [reflexivity|].
  induction Hbs as [|b bs Hb _ IH]; simpl; [reflexivity|].
  rewrite forallb_app, (format_X_chars Hb), IH. reflexivity.
Qed.

Lemma escape_chars (s : str) :
  encodable s = true ->
  exists e, Escapism.escape is_alnum DASH s = Ok e /\ forallb is_escaped_char e = true.
Proof.
  induction s as [|c r IH]; simpl; [eauto|].
  intros H. apply andb_true_iff in H. destruct H as [Hc Hr].
  destruct (IH Hr) as [er [-> Her]].
  destruct (is_alnum c) eqn:Hal.
  - simpl. eexists; split; [reflexivity|]. simpl.
    unfold is_escaped_char at 1. now rewrite Hal, Her.
  - destruct (escape_char_chars c Hc) as [ec [-> Hec]]. simpl.
    eexists; split; [reflexivity|]. now rewrite forallb_app, Hec, Her.
Qed.

(* ===================================================================== *)
(** ** Properties of the generated names *)
(* ===================================================================== *)

Lemma dns_char_escaped (c : codepoint) : is_dns_char c = true -> is_escaped_char c = true.
Proof.
  unfold is_dns_char, is_escaped_char, is_alnum.
  destruct (is_lower c), (is_digit c), (c =? DASH)%N, (is_upper c); simpl; congruence.
Qed.

Lemma lower_char_dns_id (c : codepoint) : is_dns_char c = true -> lower_char c = c.
Proof.
  unfold is_dns_char, is_lower, is_digit, lower_char, is_upper, DASH. intros H.
  destruct ((65 <=? c)%N && (c <=? 90)%N) eqn:Hup; [|reflexivity].
  bool_to_prop; lia.
Qed.

Lemma map_lower_dns (s : str) : forallb is_dns_char s = true -> map lower_char s = s.
Proof.
  induction s as [|c r IH]; simpl; [reflexivity|].
  intros H. apply andb_true_iff in H. destruct H as [Hc Hr].
  now rewrite (lower_char_dns_id c Hc), (IH Hr).
Qed.

Lemma hex_char_dns (c : codepoint) : is_hex_char c = true -> is_dns_char c = true.
Proof.
  unfold is_hex_char, is_dns_char, is_lower, is_digit. intros H.
  apply orb_true_iff in H. destruct H as [->|H]; [now rewrite orb_true_r|].
  apply orb_true_iff. left. apply orb_true_iff. left.
  bool_to_prop; prop_to_bool; lia.
Qed.

Lemma dns_char_not_dash_or_underscore (c : codepoint) :
  is_dns_char c = true -> (c =? UNDERSCORE)%N = false.
Proof.
  unfold is_dns_char, is_lower, is_digit, DASH, UNDERSCORE. intros H.
  bool_to_prop; prop_to_bool; lia.
Qed.

Lemma hex_char_not_dash (c : codepoint) : is_hex_char c = true -> (c =? DASH)%N = false.
Proof.
  unfold is_hex_char, is_digit, DASH. intros H.
  bool_to_prop; prop_to_bool; lia.
Qed.

(** The value of [_safe_build_slug] on encodable text: the escaped slug cut
    at [limit - hash_length - 1], a dash, and the head of the digest, in
    lower case. *)
Lemma safe_build_slug_explicit (build_slug : str) :
  encodable build_slug = true ->
  exists e h,
    Escapism.escape is_alnum DASH build_slug = Ok e
    /\ sha256_hexdigest build_slug = Ok h
    /\ forallb is_escaped_char e = true
    /\ length h = 64
    /\ forallb is_hex_char h = true
    /\ forall limit hash_length,
        _safe_build_slug build_slug limit hash_length
        = Ok (map lower_char (slice_to e (limit - hash_length - 1))
              ++ DASH :: slice_to h hash_length).
Proof.
  intros Henc.
  destruct (encode_utf8_encodable build_slug Henc) as [bs Hbs].
  destruct (escape_chars build_slug Henc) as [e [He Hchars]].
  exists e, (Sha256.hexdigest bs).
  split; [exact He|].
  split; [unfold sha256_hexdigest; now rewrite Hbs|].
  split; [exact Hchars|].
  split; [apply hexdigest_length|]. split; [apply hexdigest_chars|].
  intros limit hash_length.
  unfold _safe_build_slug, sha256_hexdigest. rewrite Hbs, He. simpl rbind.
  assert (Hhex : forallb is_hex_char (slice_to (Sha256.hexdigest bs) hash_length) = true)
    by (apply forallb_slice_to, hexdigest_chars).
  assert (Hesc : forallb is_escaped_char (slice_to e (limit - hash_length - 1)) = true)
    by (now apply forallb_slice_to).
  rewrite lower_ascii.
  - rewrite map_app. change (u "-") with [DASH]. simpl.
    rewrite (map_lower_hex _ Hhex). reflexivity.
  - unfold is_ascii. rewrite forallb_app. apply andb_true_iff. split.
    + revert Hesc. apply forallb_impl, escaped_char_ascii.
    + change (u "-") with [DASH]. simpl.
      revert Hhex. apply forallb_impl. intros c Hc.
      now apply escaped_char_ascii, hex_char_escaped.
Qed.

Lemma safe_build_slug_chars (e h : str) (n m : Z) :
  forallb is_escaped_char e = true -> forallb is_hex_char h = true ->
  forallb is_dns_char (map lower_char (slice_to e n) ++ DASH :: slice_to h m) = true.
Proof.
  intros He Hh. rewrite forallb_app. apply andb_true_iff. split.
  - apply forallb_map_char with (P := is_escaped_char); [apply lower_char_dns|].
    now apply forallb_slice_to.
  - simpl. apply forallb_impl with (P := is_hex_char); [apply hex_char_dns|].
    now apply forallb_slice_to.
Qed.

Lemma safe_build_slug_length (e h : str) (n m : Z) :
  (0 <= n)%Z -> (0 <= m)%Z ->
  length (map lower_char (slice_to e n) ++ DASH :: slice_to h m)
  <= Z.to_nat n + 1 + Z.to_nat m.
Proof.
  intros Hn Hm. rewrite length_app, length_map. simpl.
  pose proof (length_slice_to_le e Hn). pose proof (length_slice_to_le h Hm). lia.
Qed.

Lemma firstn_two_of_digest (h : str) :
  length h = 64 -> forallb is_hex_char h = true ->
  exists x y, slice_to h 2 = [x; y] /\ is_hex_char x = true /\ is_hex_char y = true.
Proof.
  intros Hlen Hh. destruct h as [|x [|y r]]; try discriminate.
  exists x, y. simpl in Hh.
  apply andb_true_iff in Hh. destruct Hh as [Hx Hh].
  apply andb_true_iff in Hh. destruct Hh as [Hy _].
  repeat split; assumption.
Qed.

(** The shape of a build name: the letter [b], a body over the DNS
    alphabet, and the first two digits of the digest of the ref. *)
Lemma build_name_shape (build_slug ref : str) :
  encodable build_slug = true -> encodable ref = true ->
  exists body x y,
    build_name_of build_slug ref = Ok (98%N :: body ++ [x; y])
    /\ forallb is_dns_char body = true
    /\ length body <= 60
    /\ is_hex_char x = true /\ is_hex_char y = true.
Proof.
  intros Hslug Href.
  destruct (safe_build_slug_explicit build_slug Hslug)
    as (e & h & _ & _ & He & Hhlen & Hh & Hsafe).
  destruct (safe_build_slug_explicit ref Href)
    as (er & hr & _ & _ & Her & Hhrlen & Hhr & Hsafe_ref).
  destruct (firstn_two_of_digest hr Hhrlen Hhr) as (x & y & Hxy & Hx & Hy).
  set (S := map lower_char (slice_to e 43) ++ DASH :: slice_to h 6).
  set (R := map lower_char (slice_to er 3)).
  assert (HS : forallb is_dns_char S = true) by (now apply safe_build_slug_chars).
  assert (HSlen : length S <= 50).
  { pose proof (@safe_build_slug_length e h 43 6). unfold S. lia. }
  assert (HR : forallb is_dns_char R = true).
  { unfold R. apply forallb_map_char with (P := is_escaped_char);
      [apply lower_char_dns | now apply forallb_slice_to]. }
  assert (HRlen : length R <= 3).
  { unfold R. rewrite length_map.
    pose proof (@length_slice_to_le er 3). lia. }
  exists (u "uild-" ++ S ++ DASH :: R ++ [DASH]), x, y.
  split; [|split; [|split; [|split; assumption]]].
  - unfold build_name_of, _generate_build_name.
    rewrite Hsafe, Hsafe_ref. simpl rbind.
    change (63 - len (u "build-") - 6 - 1 - 6 - 1)%Z with 43%Z.
    change (6 - 2 - 1)%Z with 3%Z.
    fold S. fold R. rewrite Hxy.
    rewrite slice_to_all.
    2:{ unfold len. rewrite length_app. simpl. lia. }
    assert (Hdns : forallb is_dns_char (u "build-" ++ S ++ u "-" ++ R ++ DASH :: [x; y]) = true).
    { rewrite !forallb_app. rewrite HS, HR. simpl.
      now rewrite (hex_char_dns x Hx), (hex_char_dns y Hy). }
    rewrite lower_ascii.
    2:{ revert Hdns. apply forallb_impl. intros c Hc.
        now apply escaped_char_ascii, dns_char_escaped. }
    f_equal.
    transitivity (u "build-" ++ S ++ u "-" ++ R ++ DASH :: [x; y]).
    + now apply map_lower_dns.
    + change (u "build-") with (98%N :: u "uild-"). change (u "-") with [DASH].
      simpl. f_equal. rewrite <- !app_assoc. simpl. rewrite <- !app_assoc. reflexivity.
  - rewrite !forallb_app. rewrite HS. simpl. rewrite forallb_app, HR. reflexivity.
  - rewrite !length_app. simpl. rewrite length_app. simpl. lia.
Qed.

Lemma contains_char_false (c : codepoint) (s : str) (P : codepoint -> bool) :
  (forall x, P x = true -> (x =? c)%N = false) ->
  forallb P s = true -> contains_char c s = false.
Proof.
  intros HP. unfold contains_char. induction s as [|x r IH]; simpl; [reflexivity|].
  intros H. apply andb_true_iff in H. destruct H as [Hx Hr].
  rewrite (IH Hr), orb_false_r. rewrite N.eqb_sym. now apply HP.
Qed.

Lemma ends_with_char_app (c x : codepoint) (s : str) :
  ends_with_char c (s ++ [x]) = (x =? c)%N.
Proof. unfold ends_with_char. rewrite rev_app_distr. reflexivity. Qed.

Lemma replace_lower_ascii (s : str) :
  is_ascii s = true -> is_ascii (replace_char UNDERSCORE DASH s) = true.
Proof.
  unfold is_ascii, replace_char.
  apply forallb_map_char. intros c Hc.
  destruct (c =? UNDERSCORE)%N; [reflexivity | exact Hc].
Qed.

(** A character of an image name is ['-'] exactly where the text before
    [replace] and [lower] has ['-'] or ['_']. *)
Lemma image_char_dash (c : codepoint) :
  (lower_char (if (c =? UNDERSCORE)%N then DASH else c) =? DASH)%N
  = (c =? DASH)%N || (c =? UNDERSCORE)%N.
Proof.
  unfold lower_char, is_upper, DASH, UNDERSCORE.
  destruct (c =? 95)%N eqn:H95; simpl.
  - bool_to_prop. subst. reflexivity.
  - rewrite orb_false_r.
    destruct ((65 <=? c)%N && (c <=? 90)%N) eqn:Hup; [|reflexivity].
    bool_to_prop.
    destruct (c =? 45)%N eqn:H45; bool_to_prop; prop_to_bool; lia.
Qed.

Lemma image_char_underscore (c : codepoint) :
  (lower_char (if (c =? UNDERSCORE)%N then DASH else c) =? UNDERSCORE)%N = false.
Proof.
  unfold lower_char, is_upper, DASH, UNDERSCORE.
  destruct (c =? 95)%N eqn:H95; simpl; [reflexivity|].
  destruct ((65 <=? c)%N && (c <=? 90)%N) eqn:Hup; [|exact H95].
  bool_to_prop; prop_to_bool; lia.
Qed.

Lemma image_chars_no_underscore (s : str) :
  contains_char UNDERSCORE
    (map (fun c => lower_char (if (c =? UNDERSCORE)%N then DASH else c)) s) = false.
Proof.
  unfold contains_char. induction s as [|c r IH]; [reflexivity|].
  cbn [map existsb]. rewrite IH, orb_false_r, N.eqb_sym.
  apply image_char_underscore.
Qed.

(** The image name of ASCII parts, character by character. *)
Lemma image_name_explicit (image_prefix build_slug ref : str) :
  encodable build_slug = true ->
  is_ascii image_prefix = true -> is_ascii ref = true ->
  exists safe,
    _safe_build_slug build_slug (255 - len image_prefix) 6 = Ok safe
    /\ forallb is_dns_char safe = true
    /\ ((len image_prefix <= 248)%Z -> length image_prefix + length safe <= 255)
    /\ image_name_of image_prefix build_slug ref
       = Ok (map (fun c => lower_char (if (c =? UNDERSCORE)%N then DASH else c))
                 (image_prefix ++ safe ++ COLON :: ref)).
Proof.
  intros Hslug Hprefix Href.
  destruct (safe_build_slug_explicit build_slug Hslug)
    as (e & h & _ & _ & He & Hhlen & Hh & Hsafe).
  pose proof (Hsafe (255 - len image_prefix)%Z 6%Z) as Hs.
  pose proof (@safe_build_slug_chars e h (255 - len image_prefix - 6 - 1) 6 He Hh) as Hdns.
  pose proof (@safe_build_slug_length e h (255 - len image_prefix - 6 - 1) 6) as L.
  remember (map lower_char (slice_to e (255 - len image_prefix - 6 - 1))
            ++ DASH :: slice_to h 6) as safe eqn:Heq.
  clear Heq Hsafe.
  exists safe. split; [exact Hs|]. split; [exact Hdns|]. split.
  - intros Hshort. unfold len in *. lia.
  - unfold image_name_of. rewrite Hs. unfold rbind, format_image_name.
    change (u ":") with [COLON].
    rewrite lower_ascii.
    + unfold replace_char. rewrite map_map. reflexivity.
    + apply replace_lower_ascii. unfold is_ascii in *.
      rewrite !forallb_app. rewrite Hprefix. cbn [forallb app andb].
      rewrite Href, andb_true_r.
      revert Hdns. apply forallb_impl. intros c Hc.
      now apply escaped_char_ascii, dns_char_escaped.
Qed.

(** C8, amended: for an ASCII image prefix of at most 248 characters and an
    ASCII ref, the image name is a repository part of at most 255
    characters, a colon, and a tag as long as the ref. The bound of 255 is
    on the part before the tag, not on the whole name. *)
Theorem image_name_repository_bound (image_prefix build_slug ref : str) :
  encodable build_slug = true ->
  is_ascii image_prefix = true -> is_ascii ref = true ->
  (len image_prefix <= 248)%Z ->
  exists repository tag,
    image_name_of image_prefix build_slug ref = Ok (repository ++ COLON :: tag)
    /\ length repository <= 255
    /\ length tag = length ref.
Proof.
  intros Hslug Hprefix Href Hshort.
  destruct (image_name_explicit image_prefix build_slug ref Hslug Hprefix Href)
    as (safe & _ & _ & Hlen & Hname).
  set (f := fun c => lower_char (if (c =? UNDERSCORE)%N then DASH else c)) in *.
  exists (map f (image_prefix ++ safe)), (map f ref).
  split; [|split].
  - rewrite Hname. f_equal. rewrite app_assoc, map_app. reflexivity.
  - rewrite length_map, length_app. auto.
  - apply length_map.
Qed.

(** C9, amended: the build name made with the prefix [build-] has no
    leading or trailing ['-'] and no ['_']; the image name has no ['_'],
    no leading ['-'] when the image prefix starts with a character other
    than ['-'] and ['_'], and no trailing ['-'] when the ref does not end
    with ['-'] or ['_'] (image prefix and ref being ASCII). *)
Theorem names_have_clean_edges (image_prefix build_slug ref : str) :
  encodable build_slug = true -> encodable ref = true ->
  exists build_name,
    build_name_of build_slug ref = Ok build_name
    /\ starts_with_char DASH build_name = false
    /\ ends_with_char DASH build_name = false
    /\ contains_char UNDERSCORE build_name = false
    /\ (is_ascii image_prefix = true -> is_ascii ref = true ->
        exists image_name,
          image_name_of image_prefix build_slug ref = Ok image_name
          /\ contains_char UNDERSCORE image_name = false
          /\ (clean_head image_prefix = true ->
              starts_with_char DASH image_name = false)
          /\ (clean_tail ref = true -> ends_with_char DASH image_name = false)).
Proof.
  intros Hslug Href.
  destruct (build_name_shape build_slug ref Hslug Href)
    as (body & x & y & Hname & Hbody & _ & Hx & Hy).
  exists (98%N :: body ++ [x; y]).
  split; [exact Hname|]. split; [reflexivity|]. split; [|split].
  - replace (98%N :: body ++ [x; y]) with ((98%N :: body ++ [x]) ++ [y])
      by (simpl; rewrite <- app_assoc; reflexivity).
    rewrite ends_with_char_app. now apply hex_char_not_dash.
  - apply contains_char_false with (P := is_dns_char);
      [apply dns_char_not_dash_or_underscore|].
    cbn [forallb]. apply andb_true_iff. split; [reflexivity|].
    rewrite forallb_app. apply andb_true_iff. split; [exact Hbody|].
    cbn [forallb]. now rewrite (hex_char_dns x Hx), (hex_char_dns y Hy).
  - intros Hprefix Hascii.
    destruct (image_name_explicit image_prefix build_slug ref Hslug Hprefix Hascii)
      as (safe & _ & _ & _ & Himage).
    eexists. split; [exact Himage|]. split; [|split].
    + apply image_chars_no_underscore.
    + intros Hhead. destruct image_prefix as [|c r]; [discriminate|].
      simpl. rewrite image_char_dash. simpl in Hhead.
      destruct (c =? DASH)%N, (c =? UNDERSCORE)%N; simpl in *; congruence.
    + intros Htail. unfold clean_tail in Htail.
      rewrite app_assoc.
      destruct (rev ref) as [|c r] eqn:Hrev.
      * apply (f_equal (@rev _)) in Hrev. rewrite rev_involutive in Hrev.
        simpl in Hrev. subst ref. rewrite map_app. simpl.
        rewrite ends_with_char_app. reflexivity.
      * apply (f_equal (@rev _)) in Hrev. rewrite rev_involutive in Hrev.
        simpl in Hrev. subst ref.
        rewrite !ends_with_char_app in Htail.
        replace ((image_prefix ++ safe) ++ COLON :: rev r ++ [c])
          with (((image_prefix ++ safe) ++ COLON :: rev r) ++ [c])
          by (rewrite <- !app_assoc; reflexivity).
        rewrite map_app. simpl. rewrite ends_with_char_app, image_char_dash.
        destruct (c =? DASH)%N, (c =? UNDERSCORE)%N; simpl in *; congruence.
Qed.

(* ===================================================================== *)
(** ** Rules of the handler monad *)
(* ===================================================================== *)

Lemma wp_ret {A} (a : A) (Q : outcome A -> trace -> Prop) (t : trace) :
  Q (Returned a) t -> wp (ret a) Q t.
Proof. exact (fun H => H). Qed.

Lemma wp_raise {A} (e : exn) (Q : outcome A -> trace -> Prop) (t : trace) :
  Q (Raised e) t -> wp (raise e) Q t.
Proof. exact (fun H => H). Qed.

Lemma wp_block {A} (Q : outcome A -> trace -> Prop) (t : trace) :
  Q Blocked t -> wp block Q t.
Proof. exact (fun H => H). Qed.

Lemma wp_perform (e : effect) (Q : outcome unit -> trace -> Prop) (t : trace) :
  Q (Returned tt) (t ++ [e]) -> wp (perform e) Q t.
Proof. exact (fun H => H). Qed.

Lemma wp_lift {A} (r : result A) (Q : outcome A -> trace -> Prop) (t : trace) :
  match r with
  | Ok a => Q (Returned a) t
  | Raise e => Q (Raised e) t
  end -> wp (lift r) Q t.
Proof. destruct r; exact (fun H => H). Qed.

Lemma emit_eq (data : json) (t : trace) :
  emit data t = (emitted t, t ++ [EmitFrame data]).
Proof.
  unfold emit, emitted, stream_open.
  destruct (stream_closes_after E) as [n|]; [|reflexivity].
  destruct (n <=? frames_written t); reflexivity.
Qed.

Lemma wp_emit (data : json) (Q : outcome unit -> trace -> Prop) (t : trace) :
  Q (Returned tt) (t ++ [EmitFrame data]) ->
  Q (Raised Finish) (t ++ [EmitFrame data]) ->
  wp (emit data) Q t.
Proof.
  intros Hok Hclosed. unfold wp. rewrite emit_eq. unfold emitted. simpl.
  destruct (stream_open t); assumption.
Qed.

Lemma wp_bind {A B} (m : M A) (k : A -> M B) (Q : outcome B -> trace -> Prop) (t : trace) :
  wp m (fun o t' =>
          match o with
          | Returned a => wp (k a) Q t'
          | Raised e => Q (Raised e) t'
          | Blocked => Q Blocked t'
          end) t ->
  wp (bind m k) Q t.
Proof.
  unfold wp, bind. destruct (m t) as [[a|e|] t']; simpl; exact (fun H => H).
Qed.

Lemma wp_track {A} (g : gauge) (body : M A) (Q : outcome A -> trace -> Prop) (t : trace) :
  wp body (fun o t' =>
             match o with
             | Blocked => Q Blocked t'
             | _ => Q o (t' ++ [GaugeDec g])
             end) (t ++ [GaugeInc g]) ->
  wp (track_inprogress g body) Q t.
Proof.
  unfold wp, track_inprogress.
  destruct (body (t ++ [GaugeInc g])) as [[a|e|] t']; simpl; exact (fun H => H).
Qed.

Lemma wp_spec {A} (m : M A) (R Q : outcome A -> trace -> Prop) (t : trace) :
  spec m R -> (forall o d, R o d -> Q o (t ++ d)) -> wp m Q t.
Proof.
  intros Hm HQ. unfold wp. destruct (Hm t) as [d [-> HR]]. now apply HQ.
Qed.

Lemma spec_wp {A} (m : M A) (R : outcome A -> trace -> Prop) :
  (forall t, wp m (fun o t' => exists d, t' = t ++ d /\ R o d) t) -> spec m R.
Proof.
  intros H t. destruct (H t) as [d [Hd HR]]. exists d. split; assumption.
Qed.

Lemma spec_conj {A} (m : M A) (R1 R2 : outcome A -> trace -> Prop) :
  spec m R1 -> spec m R2 -> spec m (fun o d => R1 o d /\ R2 o d).
Proof.
  intros H1 H2 t. destruct (H1 t) as [d1 [E1 HR1]]. destruct (H2 t) as [d2 [E2 HR2]].
  exists d1. split; [exact E1|]. split; [exact HR1|].
  rewrite E1 in E2. apply app_inv_head in E2. now subst d2.
Qed.

Lemma bind_ret {A B} (a : A) (k : A -> M B) (t : trace) : bind (ret a) k t = k a t.
Proof. reflexivity. Qed.

Lemma bind_perform {B} (e : effect) (k : unit -> M B) (t : trace) :
  bind (perform e) k t = k tt (t ++ [e]).
Proof. reflexivity. Qed.

Lemma bind_raise {A B} (e : exn) (k : A -> M B) (t : trace) :
  bind (raise e) k t = (Raised e, t).
Proof. reflexivity. Qed.

Lemma bind_bind {A B C} (m : M A) (k1 : A -> M B) (k2 : B -> M C) (t : trace) :
  bind (bind m k1) k2 t = bind m (fun a => bind (k1 a) k2) t.
Proof. unfold bind. destruct (m t) as [[a|e|] t']; reflexivity. Qed.

Lemma bind_lift_ok {A B} (r : result A) (a : A) (k : A -> M B) (t : trace) :
  r = Ok a -> bind (lift r) k t = k a t.
Proof. intros ->. reflexivity. Qed.

(** Running the straight-line part of a computation. *)
Ltac run :=
  repeat (first [rewrite bind_bind | rewrite bind_ret | rewrite bind_perform
                | rewrite bind_raise];
          cbv beta iota).

(** Extending a trace by a list written as nested appends. *)
Ltac extend_trace :=
  eexists; split;
  [first [symmetry; apply app_nil_r | rewrite <- ?app_assoc; cbn [app]; reflexivity]|].

Ltac wp_step :=
  lazymatch goal with
  | |- wp (bind _ _) _ _ => apply wp_bind
  | |- wp (ret _) _ _ => apply wp_ret
  | |- wp (raise _) _ _ => apply wp_raise
  | |- wp block _ _ => apply wp_block
  | |- wp (perform _) _ _ => apply wp_perform
  | |- wp (emit _) _ _ => apply wp_emit
  | |- wp (fail _) _ _ => unfold fail; apply wp_emit
  | |- wp (lift ?r) _ _ => apply wp_lift; destruct r eqn:?
  | |- wp (track_inprogress _ _) _ _ => apply wp_track
  | |- wp (if ?b then _ else _) _ _ => destruct b eqn:?
  | |- wp (match ?x with _ => _ end) _ _ => destruct x eqn:?
  end; cbv beta iota.

Lemma stream_open_app (t d : trace) :
  forallb (fun e => negb (is_frame e)) d = true -> stream_open (t ++ d) = stream_open t.
Proof.
  intros Hd. unfold stream_open, frames_written.
  rewrite filter_app.
  assert (Hnone : filter is_frame d = []).
  { induction d as [|e r IH]; [reflexivity|]. simpl in *.
    apply andb_true_iff in Hd. destruct Hd as [He Hr].
    destruct (is_frame e); [discriminate|]. now apply IH. }
  now rewrite Hnone, app_nil_r.
Qed.

Lemma startswith_app (s rest : str) : startswith s (s ++ rest) = true.
Proof.
  unfold startswith. apply str_eqb_eq.
  rewrite firstn_app, Nat.sub_diag, firstn_all. simpl. apply app_nil_r.
Qed.

Lemma is_substring_app (s before after : str) :
  is_substring s (before ++ s ++ after) = true.
Proof.
  induction before as [|c r IH].
  - destruct (s ++ after) eqn:Heq; simpl; rewrite <- Heq, startswith_app; reflexivity.
  - simpl. rewrite IH. apply orb_true_r.
Qed.

(* ===================================================================== *)
(** ** Properties of the handler *)
(* ===================================================================== *)

(** C10: when the provider has no authorization provider and the request
    carries [userctx], [get] raises TypeError right after starting the
    keepalive: the ref is not resolved and no frame is written, whatever
    [auth_enabled] is. *)
Theorem userctx_without_authorization_provider (provider : Provider.t)
        (caller_userctx : str) :
  provider_configured E = true ->
  get_provider E = Returns provider ->
  Provider.is_banned provider = false ->
  Provider.get_authorization_provider provider = None ->
  userctx E = Some caller_userctx ->
  get [] = (Raised TypeError, [SpawnKeepAlive]).
Proof.
  intros Hconf Hprov Hban Hauth Hctx.
  unfold get. rewrite Hconf, Hprov, Hban. simpl negb. cbv iota.
  unfold authorize. rewrite Hauth, Hctx. reflexivity.
Qed.

(** C5, amended: with a non-zero quota that the pods running the image
    have reached, [launch] lists the pods, writes one [failed] frame whose
    message names the repo URL, and does nothing else: the launcher is not
    called and no launch time is observed. *)
Theorem launch_over_quota (self : attrs) (provider : Provider.t) (q : Z) (t : trace) :
  Provider.quota provider = Some q ->
  q <> 0%Z ->
  (q <= matching_pods (rsplit1_head COLON (image_name self)) (pods E))%Z ->
  launch self provider t
  = (emitted t,
     t ++ [ListPods;
           EmitFrame (JDict [(u "phase", JStr (u "failed"));
                             (u "message", JStr (quota_message self ++ NL))])])
  /\ is_substring (repo_url self) (quota_message self) = true.
Proof.
  intros Hquota Hnz Hle. split.
  - unfold launch, quota_exceeded. rewrite Hquota.
    apply Z.eqb_neq in Hnz. apply Z.leb_le in Hle. rewrite Hnz, Hle. simpl andb.
    cbv iota. unfold bind, perform, fail. rewrite emit_eq.
    unfold emitted. rewrite (stream_open_app t [ListPods] eq_refl).
    rewrite <- app_assoc. destruct (stream_open t); reflexivity.
  - unfold quota_message. apply is_substring_app.
Qed.

Lemma count_effects_app (P : effect -> bool) (t d : trace) :
  count_effects P (t ++ d) = count_effects P t + count_effects P d.
Proof. unfold count_effects. now rewrite filter_app, length_app. Qed.

(** The log-streaming task is submitted at most once by the loop, and not
    at all once [log_future] is set. *)
Lemma build_loop_submits_logs_once (self : attrs) (q : list progress) :
  forall vars,
    spec (build_loop self q vars)
         (fun _ d => count_effects is_submit_logs d
                     <= if log_future vars then 0 else 1).
Proof.
  induction q as [|p q IH]; intros vars; apply spec_wp; intros t.
  - cbn [build_loop]. wp_step. exists []. split; [now rewrite app_nil_r|].
    destruct (log_future vars); unfold count_effects; simpl; lia.
  - cbn [build_loop].
    repeat first
      [ eapply wp_spec; [apply IH|]; cbv beta; intros o d Hd;
        eexists; split; [rewrite <- ?app_assoc; reflexivity|];
        rewrite ?count_effects_app; unfold count_effects in *; simpl in *;
        destruct (log_future vars); simpl in *; lia
      | wp_step
      | extend_trace; unfold count_effects; simpl; destruct (log_future vars); lia ].
Qed.

(** C2: the loop on a [pod.phasechange] event. [Pending] and [Succeeded]
    only take the event from the queue; the first [Running] submits the
    log-streaming task and later ones do nothing; [Deleted] writes the
    [built] frame and ends the loop with the [failed] flag; any other phase
    is written as [{phase: payload}] and the loop goes on. Over the whole
    loop the log-streaming task is submitted at most once. *)
Theorem build_loop_phasechange (self : attrs) (phase : str) (q : list progress)
        (vars : loop_vars) (t : trace) :
  let t1 := t ++ [QueueGet (phasechange phase)] in
  build_loop self (phasechange phase :: q) vars t
  = match classify_phase phase with
    | Pending | Succeeded => build_loop self q vars t1
    | Running =>
        build_loop self q
                   {| log_future := true; failed := failed vars; event := event vars |}
                   (if log_future vars then t1 else t1 ++ [SubmitStreamLogs])
    | Deleted =>
        (if stream_open t then Returned (failed vars) else Raised Finish,
         t1 ++ [EmitFrame
                  (JDict [(u "phase", JStr (u "built"));
                          (u "message", JStr (u "Built image, launching..." ++ NL));
                          (u "imageName", JStr (image_name self))])])
    | OtherPhase =>
        let ev := JDict [(u "phase", JStr phase)] in
        if stream_open t
        then build_loop self q
                        {| log_future := log_future vars; failed := failed vars;
                           event := Some ev |}
                        (t1 ++ [EmitFrame ev])
        else (Raised Finish, t1 ++ [EmitFrame ev])
    end
  /\ count_effects is_submit_logs
       (snd (build_loop self q {| log_future := false; failed := false; event := None |} t))
     <= count_effects is_submit_logs t + 1.
Proof.
  cbv zeta. split.
  - cbn [build_loop]. unfold classify_phase, phasechange at 2 3 4 5 6.
    cbn [kind payload]. rewrite str_eqb_refl.
    unfold bind at 1, perform at 1.
    assert (Hopen : stream_open (t ++ [QueueGet (phasechange phase)]) = stream_open t)
      by (now apply stream_open_app).
    destruct (str_eqb phase (u "Pending")); [reflexivity|].
    destruct (str_eqb phase (u "Deleted")).
    { unfold bind, built_event. rewrite emit_eq. unfold emitted. rewrite Hopen.
      destruct (stream_open t); reflexivity. }
    destruct (str_eqb phase (u "Running")).
    { unfold bind, perform, ret. destruct (log_future vars); reflexivity. }
    destruct (str_eqb phase (u "Succeeded")); [reflexivity|].
    unfold bind. rewrite emit_eq. unfold emitted. rewrite Hopen.
    destruct (stream_open t); reflexivity.
  - destruct (build_loop_submits_logs_once self q
                {| log_future := false; failed := false; event := None |} t)
      as [d [-> Hd]].
    rewrite count_effects_app. simpl in Hd. lia.
Qed.

(** *** Dicts *)

Lemma dict_get_set_same {V} (k : str) (v : V) (d : dict V) :
  dict_get k (dict_set k v d) = Some v.
Proof.
  induction d as [|[k' v'] r IH]; simpl.
  - now rewrite str_eqb_refl.
  - destruct (str_eqb k' k) eqn:Hk; simpl; rewrite Hk; [reflexivity | exact IH].
Qed.

Lemma dict_get_set_other {V} (k k2 : str) (v : V) (d : dict V) :
  str_eqb k k2 = false -> dict_get k2 (dict_set k v d) = dict_get k2 d.
Proof.
  intros Hne. induction d as [|[k' v'] r IH]; simpl.
  - now rewrite Hne.
  - destruct (str_eqb k' k) eqn:Hk; simpl.
    + apply str_eqb_eq in Hk. subst k'. now rewrite Hne.
    + destruct (str_eqb k' k2); [reflexivity | exact IH].
Qed.

Lemma dict_get_update_none {V} (k : str) (other d : dict V) :
  dict_get k other = None -> dict_get k (dict_update d other) = dict_get k d.
Proof.
  unfold dict_update. revert d.
  induction other as [|[k1 v1] r IH]; intros d Hnone; simpl in *; [reflexivity|].
  destruct (str_eqb k1 k) eqn:Hk; [discriminate|].
  rewrite (IH _ Hnone). now apply dict_get_set_other.
Qed.

Lemma dict_get_absent {V} (k : str) (d : dict V) :
  ~ In k (map fst d) -> dict_get k d = None.
Proof.
  induction d as [|[k' v'] r IH]; simpl; [reflexivity|].
  intros Hnot. destruct (str_eqb k' k) eqn:Hk.
  - apply str_eqb_eq in Hk. tauto.
  - apply IH. tauto.
Qed.

Lemma dict_get_update_some {V} (k : str) (v : V) (other d : dict V) :
  NoDup (map fst other) -> dict_get k other = Some v ->
  dict_get k (dict_update d other) = Some v.
Proof.
  unfold dict_update. revert d.
  induction other as [|[k1 v1] r IH]; intros d Hnodup Hsome; simpl in *; [discriminate|].
  inversion Hnodup as [|? ? Hnotin Hrest]; subst.
  destruct (str_eqb k1 k) eqn:Hk.
  - apply str_eqb_eq in Hk. subst k1. injection Hsome as ->.
    change (fold_left (fun acc kv => dict_set (fst kv) (snd kv) acc) r (dict_set k v d))
      with (dict_update (dict_set k v d) r).
    rewrite dict_get_update_none; [apply dict_get_set_same|].
    now apply dict_get_absent.
  - now apply IH.
Qed.

Lemma dict_get_map_values {V W} (f : V -> W) (k : str) (d : dict V) :
  dict_get k (map (fun kv => (fst kv, f (snd kv))) d) = option_map f (dict_get k d).
Proof.
  induction d as [|[k' v'] r IH]; simpl; [reflexivity|].
  destruct (str_eqb k' k); [reflexivity | exact IH].
Qed.

(** *** The launch loop *)

Lemma emit_open (data : json) (t : trace) :
  stream_closes_after E = None -> emit data t = (Returned tt, t ++ [EmitFrame data]).
Proof. intros Hopen. unfold emit. now rewrite Hopen. Qed.

Lemma launch_attempts_step (self : attrs) (todo : nat) (i : nat) (delay : Z) (t : trace) :
  stream_closes_after E = None ->
  launch_attempts self (S todo) (Z.of_nat i) delay t
  = match Launcher.launch (launcher E) i with
    | Returns server_info => (Returned (Some server_info), t ++ success_effects self i)
    | Throws message =>
        if (Z.of_nat i + 1 =? Launcher.retries (launcher E))%Z
        then (Raised (Exception message), t ++ last_failure_effects self message)
        else launch_attempts self todo (Z.of_nat (S i)) (delay * 2)
               (t ++ [launcher_call self;
                      LaunchTimeObserve retry (-1);
                      EmitFrame (JDict [(u "phase", JStr (u "launching"));
                                        (u "message", JStr (retry_message (Z.of_nat i + 1)))]);
                      Sleep delay])
    end.
Proof.
  intros Hopen. cbn [launch_attempts].
  unfold success_effects, last_failure_effects, launcher_call.
  destruct (launch_identity self) as [username server_name].
  rewrite Nat2Z.id. unfold bind at 1, perform at 1.
  destruct (Launcher.launch (launcher E) i) as [server_info|message].
  - unfold bind, perform, ret. rewrite <- !app_assoc. reflexivity.
  - destruct (Z.of_nat i + 1 =? Launcher.retries (launcher E))%Z.
    + unfold bind, perform, raise. rewrite emit_open by assumption.
      rewrite <- !app_assoc. reflexivity.
    + unfold bind, perform, ret. rewrite emit_open by assumption.
      rewrite <- !app_assoc. cbn [app].
      replace (Z.of_nat (S i)) with (Z.of_nat i + 1)%Z by lia.
      reflexivity.
Qed.

Lemma launch_attempts_retries (self : attrs) (message : nat -> str)
      (final : nat -> trace -> outcome (option (dict str)) * trace) :
  stream_closes_after E = None ->
  forall k j todo delay t,
    (forall x, j <= x < j + k -> Launcher.launch (launcher E) x = Throws (message x)) ->
    (Z.of_nat (j + k) < Launcher.retries (launcher E))%Z ->
    k < todo ->
    delay = (Launcher.retry_delay (launcher E) * 2 ^ Z.of_nat j)%Z ->
    (forall todo' delay' t',
        launch_attempts self (S todo') (Z.of_nat (j + k)) delay' t' = final (j + k) t') ->
    launch_attempts self todo (Z.of_nat j) delay t
    = final (j + k) (t ++ flat_map (retry_effects self) (seq j k)).
Proof.
  intros Hopen. induction k as [|k IH]; intros j todo delay t Hfail Hlt Htodo Hdelay Hfinal.
  - destruct todo as [|todo]; [lia|]. cbn [seq flat_map]. rewrite app_nil_r.
    rewrite Nat.add_0_r in *. apply Hfinal.
  - destruct todo as [|todo]; [lia|].
    rewrite launch_attempts_step by assumption.
    rewrite (Hfail j) by lia.
    destruct (Z.of_nat j + 1 =? Launcher.retries (launcher E))%Z eqn:Hlast;
      [apply Z.eqb_eq in Hlast; lia|].
    rewrite (IH (S j) todo (delay * 2)%Z).
    + replace (S j + k) with (j + S k) by lia.
      f_equal. cbn [seq flat_map]. rewrite <- app_assoc. f_equal.
      unfold retry_effects at 2. subst delay. reflexivity.
    + intros x Hx. apply Hfail. lia.
    + replace (S j + k) with (j + S k) by lia. exact Hlt.
    + lia.
    + subst delay. rewrite Nat2Z.inj_succ, Z.pow_succ_r by lia. ring.
    + intros todo' delay' t'. replace (S j + k) with (j + S k) by lia. apply Hfinal.
Qed.

(** C3: the launch loop while the client stays connected. When the first
    [k] calls of the launcher fail and the next succeeds (all within
    [launcher.retries] attempts), each failure observes
    [launch_time{retry, -1}], writes a [launching] frame and sleeps, the
    [i]-th sleep lasting [retry_delay * 2^i]; the success observes
    [launch_time{success, k}] and increments [launch_count{success}]. When
    all [launcher.retries] calls fail, the last one observes
    [launch_time{failure, -1}], increments [launch_count{failure}], writes
    a [failed] frame with the message and re-raises. After a success the
    [ready] frame carries the url of the server. *)
Theorem launch_retries_with_backoff (self : attrs) (message : nat -> str) (t : trace) :
  stream_closes_after E = None ->
  let n := Z.to_nat (Launcher.retries (launcher E)) in
  let attempts := launch_attempts self n 0 (Launcher.retry_delay (launcher E)) in
  (forall k server_info,
      k < n ->
      (forall j, j < k -> Launcher.launch (launcher E) j = Throws (message j)) ->
      Launcher.launch (launcher E) k = Returns server_info ->
      attempts t
      = (Returned (Some server_info),
         t ++ flat_map (retry_effects self) (seq 0 k) ++ success_effects self k))
  /\ (forall k,
         n = S k ->
         (forall j, j < n -> Launcher.launch (launcher E) j = Throws (message j)) ->
         attempts t
         = (Raised (Exception (message k)),
            t ++ flat_map (retry_effects self) (seq 0 k)
              ++ last_failure_effects self (message k)))
  /\ (forall server_info url,
         NoDup (map fst server_info) ->
         dict_get (u "url") server_info = Some url ->
         dict_get (u "phase") server_info = None ->
         exists frame,
           emit_ready (Some server_info) t = (Returned tt, t ++ [EmitFrame (JDict frame)])
           /\ dict_get (u "phase") frame = Some (JStr (u "ready"))
           /\ dict_get (u "url") frame = Some (JStr url)).
Proof.
  intros Hopen n attempts. subst attempts. split; [|split].
  - intros k server_info Hk Hfail Hok.
    pose (final := fun (i : nat) (t' : trace) =>
                     (Returned (Some server_info), t' ++ success_effects self i)).
    transitivity (final (0 + k) (t ++ flat_map (retry_effects self) (seq 0 k))).
    + apply (@launch_attempts_retries self message final Hopen k 0 n _ t).
      * intros x Hx. apply Hfail. lia.
      * cbn [Nat.add]. lia.
      * exact Hk.
      * cbn [Z.of_nat]. rewrite Z.pow_0_r. ring.
      * intros todo' delay' t'. rewrite launch_attempts_step by assumption.
        cbn [Nat.add]. now rewrite Hok.
    + unfold final. cbn [Nat.add]. now rewrite <- app_assoc.
  - intros k Hn Hfail.
    pose (final := fun (i : nat) (t' : trace) =>
                     (@Raised (option (dict str)) (Exception (message i)),
                      t' ++ last_failure_effects self (message i))).
    transitivity (final (0 + k) (t ++ flat_map (retry_effects self) (seq 0 k))).
    + apply (@launch_attempts_retries self message final Hopen k 0 n _ t).
      * intros x Hx. apply Hfail. lia.
      * cbn [Nat.add]. lia.
      * lia.
      * cbn [Z.of_nat]. rewrite Z.pow_0_r. ring.
      * intros todo' delay' t'. rewrite launch_attempts_step by assumption.
        cbn [Nat.add]. rewrite (Hfail k) by lia.
        replace (Z.of_nat k + 1 =? Launcher.retries (launcher E))%Z with true;
          [reflexivity|].
        symmetry. apply Z.eqb_eq. lia.
    + unfold final. cbn [Nat.add]. now rewrite <- app_assoc.
  - intros server_info url Hnodup Hurl Hphase.
    unfold emit_ready. rewrite Hurl. rewrite emit_open by assumption.
    eexists. split; [reflexivity|]. split.
    + rewrite dict_get_update_none.
      * reflexivity.
      * rewrite (dict_get_map_values JStr). now rewrite Hphase.
    + apply dict_get_update_some.
      * rewrite map_map. simpl. exact Hnodup.
      * rewrite (dict_get_map_values JStr). now rewrite Hurl.
Qed.

(** *** The registry probe *)

Lemma probe_registry_step (attempts k : nat) (image repo tag : str) (t : trace) :
  manifest_args image = [repo; tag] ->
  probe_registry (S attempts) k image t
  = match get_image_manifest E k repo tag with
    | Manifest image_manifest =>
        (Returned (truthy image_manifest), t ++ [RegistryGetManifest repo tag])
    | ManifestHTTPClientError =>
        probe_registry attempts (S k) image (t ++ [RegistryGetManifest repo tag])
    | ManifestError msg => (Raised (Exception msg), t ++ [RegistryGetManifest repo tag])
    end.
Proof.
  intros Hargs. cbn [probe_registry]. rewrite Hargs.
  unfold bind at 1, perform at 1.
  destruct (get_image_manifest E k repo tag); reflexivity.
Qed.

Lemma probe_registry_exhausted (image repo tag : str) (t : trace) :
  manifest_args image = [repo; tag] ->
  (forall j, j < 3 -> get_image_manifest E j repo tag = ManifestHTTPClientError) ->
  probe_registry 3 0 image t
  = (Returned false, t ++ repeat (RegistryGetManifest repo tag) 3).
Proof.
  intros Hargs Herr.
  rewrite !(@probe_registry_step _ _ image repo tag _ Hargs).
  rewrite (Herr 0), (Herr 1), (Herr 2) by lia.
  cbn [probe_registry repeat]. unfold ret. now rewrite <- !app_assoc.
Qed.

(** When the text has its only [':'] between [repo] and [tag], that is
    where [split(':', 1)] cuts it. *)
Lemma split1_single (c : codepoint) (a b : str) :
  contains_char c a = false -> split1 c (a ++ c :: b) = [a; b].
Proof.
  intros Ha. induction a as [|x r IH]; cbn [app split1].
  - now rewrite N.eqb_refl.
  - unfold contains_char in Ha. cbn [existsb] in Ha.
    apply orb_false_iff in Ha. destruct Ha as [Hx Hr].
    rewrite N.eqb_sym, Hx. rewrite (IH Hr). reflexivity.
Qed.

(** C6, amended: with [use_registry], the registry is asked for the last two
    ['/']-separated components of the image name; when they hold one [':']
    only, the one before the tag, the call is [get_image_manifest(repo,
    tag)] with the parts before and after it. The call is made again after
    an HTTP client error, three times at most; the image is found iff the
    manifest returned is truthy, and after three errors it counts as not
    found and [get] goes on with the build. *)
Theorem registry_probe_retries (image repo tag : str) (t : trace) :
  join (u "/") (last_two (split SLASH image)) = repo ++ COLON :: tag ->
  contains_char COLON repo = false ->
  contains_char COLON tag = false ->
  manifest_args image = [repo; tag]
  /\ (forall k image_manifest,
         k < 3 ->
         (forall j, j < k -> get_image_manifest E j repo tag = ManifestHTTPClientError) ->
         get_image_manifest E k repo tag = Manifest image_manifest ->
         probe_registry 3 0 image t
         = (Returned (truthy image_manifest),
            t ++ repeat (RegistryGetManifest repo tag) (S k)))
  /\ ((forall j, j < 3 -> get_image_manifest E j repo tag = ManifestHTTPClientError) ->
      probe_registry 3 0 image t
      = (Returned false, t ++ repeat (RegistryGetManifest repo tag) 3)
      /\ forall provider ref safe_build_slug build_name,
          provider_configured E = true ->
          get_provider E = Returns provider ->
          Provider.is_banned provider = false ->
          userctx E = None ->
          Provider.get_authorization_provider provider = None ->
          Provider.get_resolved_ref provider = Returns (Some ref) ->
          _safe_build_slug (Provider.get_build_slug provider)
                           (255 - len (image_prefix E)) 6 = Ok safe_build_slug ->
          build_name_of (Provider.get_build_slug provider) ref = Ok build_name ->
          image = format_image_name (image_prefix E) safe_build_slug ref ->
          use_registry E = true ->
          get []
          = build_and_launch
              (make_attrs provider (rstrip_char SLASH (request_spec E)) ref None image)
              provider (rstrip_char SLASH (request_spec E)) ref build_name
              ([SpawnKeepAlive; ResolveRef] ++ repeat (RegistryGetManifest repo tag) 3)).
Proof.
  intros Hjoin Hrepo Htag.
  assert (Hargs : manifest_args image = [repo; tag]).
  { unfold manifest_args. rewrite Hjoin. now apply split1_single. }
  split; [exact Hargs | split].
  - intros k image_manifest Hk Herr Hok.
    destruct k as [|[|[|k]]]; [| | |lia].
    + rewrite (@probe_registry_step _ _ image repo tag _ Hargs), Hok. reflexivity.
    + rewrite !(@probe_registry_step _ _ image repo tag _ Hargs), (Herr 0), Hok by lia.
      cbn [repeat]. now rewrite <- !app_assoc.
    + rewrite !(@probe_registry_step _ _ image repo tag _ Hargs), (Herr 0), (Herr 1), Hok by lia.
      cbn [repeat]. now rewrite <- !app_assoc.
  - intros Herr. split; [now apply probe_registry_exhausted|].
    intros provider ref safe_build_slug build_name
           Hconf Hprov Hban Hctx Hauth Href Hsafe Hname Himage Hreg.
    unfold get. rewrite Hconf, Hprov, Hban. cbn [negb].
    unfold authorize. rewrite Hctx, Hauth.
    unfold resolve_ref. rewrite Href. run.
    rewrite (bind_lift_ok _ _ Hsafe). rewrite (bind_lift_ok _ _ Hname).
    cbn [image_name make_attrs]. rewrite <- Himage.
    unfold image_found. rewrite Hreg. unfold bind at 1.
    rewrite (@probe_registry_exhausted image repo tag _ Hargs Herr). reflexivity.
Qed.

(** *** A failed build is not launched *)

Lemma phasechange_not_failure_log (p : progress) :
  str_eqb (kind p) (u "pod.phasechange") = true -> is_failure_log p = false.
Proof.
  intros Hkind. apply str_eqb_eq in Hkind. unfold is_failure_log. rewrite Hkind.
  reflexivity.
Qed.

Lemma other_kind_not_failure_log (p : progress) :
  str_eqb (kind p) (u "log") = false -> is_failure_log p = false.
Proof. intros Hkind. unfold is_failure_log. now rewrite Hkind. Qed.

(** Goals of the form [forallb P d = true] for a trace written with
    appends, given the same fact for its unknown parts. *)
Ltac solve_forallb :=
  repeat (progress (rewrite ?forallb_app; cbn [forallb]));
  unfold not_launch, not_failure_log, not_frame;
  cbn [is_launch_effect consumes_failure_log is_frame negb andb];
  fold not_launch; fold not_failure_log; fold not_frame;
  repeat match goal with
         | H : forallb ?P ?d = true |- context [forallb ?P ?d] => rewrite H
         | H : is_failure_log ?p = _ |- context [is_failure_log ?p] => rewrite H
         end;
  cbn [negb andb]; try reflexivity.

(** The loop performs no effect of the launch step. *)
Lemma build_loop_no_launch (self : attrs) (q : list progress) :
  forall vars, spec (build_loop self q vars) (fun _ d => forallb not_launch d = true).
Proof.
  induction q as [|p q IH]; intros vars; apply spec_wp; intros t; cbn [build_loop].
  - wp_step. exists []. now rewrite app_nil_r.
  - repeat first
      [ eapply wp_spec; [apply IH|]; cbv beta; intros o d Hd; extend_trace; solve_forallb
      | wp_step
      | extend_trace; solve_forallb ].
Qed.

(** When the loop ends with [failed] unset, it was unset before and no
    failure log was taken from the queue. *)
Lemma build_loop_failure_flag (self : attrs) (q : list progress) :
  forall vars,
    spec (build_loop self q vars)
         (fun o d => o = Returned false ->
                     failed vars = false /\ forallb not_failure_log d = true).
Proof.
  induction q as [|p q IH]; intros vars; apply spec_wp; intros t; cbn [build_loop].
  - wp_step. exists []. rewrite app_nil_r. split; [reflexivity | discriminate].
  - wp_step. wp_step.
    assert (Hcases :
              is_failure_log p = false
              \/ (str_eqb (kind p) (u "pod.phasechange") = false
                  /\ str_eqb (kind p) (u "log") = true
                  /\ exists items, json_loads (payload p) = Some (JDict items)
                                   /\ is_failure_phase (dict_get (u "phase") items) = true)).
    { destruct (str_eqb (kind p) (u "pod.phasechange")) eqn:Hkind;
        [left; now apply phasechange_not_failure_log|].
      destruct (str_eqb (kind p) (u "log")) eqn:Hlog;
        [|left; now apply other_kind_not_failure_log].
      unfold is_failure_log. rewrite Hlog. cbn [andb].
      destruct (json_loads (payload p)) as [[| | | | |items]|]; auto.
      destruct (is_failure_phase (dict_get (u "phase") items)) eqn:Hbad; auto.
      right. repeat split. now exists items. }
    destruct Hcases as [Hp | (Hkind & Hlog & items & Hloads & Hbad)].
    + repeat first
        [ eapply wp_spec; [apply IH|]; cbv beta; cbn [failed];
          intros o d HF; extend_trace; intros Ho;
          destruct (HF Ho) as [Hfailed Hd]; cbn [orb] in Hfailed;
          first [discriminate Hfailed | split; [exact Hfailed | solve_forallb]]
        | wp_step
        | extend_trace; intros Ho;
          first [discriminate Ho | split; [congruence | solve_forallb]] ].
    + rewrite Hkind, Hlog, Hloads, Hbad. cbv beta iota.
      repeat first
        [ eapply wp_spec; [apply IH|]; cbv beta; cbn [failed orb];
          intros o d HF; extend_trace; intros Ho;
          destruct (HF Ho) as [Hfailed Hd]; discriminate Hfailed
        | wp_step
        | extend_trace; intros Ho; discriminate Ho ].
Qed.

Lemma launch_attempts_no_failure_log (self : attrs) (todo : nat) :
  forall i delay,
    spec (launch_attempts self todo i delay)
         (fun _ d => forallb not_failure_log d = true).
Proof.
  induction todo as [|todo IH]; intros i delay; apply spec_wp; intros t;
    cbn [launch_attempts].
  - wp_step. exists []. now rewrite app_nil_r.
  - destruct (launch_identity self) as [username server_name].
    repeat first
      [ eapply wp_spec; [apply IH|]; cbv beta; intros o d Hd; extend_trace; solve_forallb
      | wp_step
      | extend_trace; solve_forallb ].
Qed.

(** The launch step takes nothing from the build queue. *)
Lemma launch_no_failure_log (self : attrs) (provider : Provider.t) :
  spec (launch self provider) (fun _ d => forallb not_failure_log d = true).
Proof.
  apply spec_wp; intros t. unfold launch, emit_ready.
  repeat first
    [ eapply wp_spec; [apply launch_attempts_no_failure_log|]; cbv beta;
      intros o d Hd; destruct o as [a|e|]; cbv beta iota
    | wp_step
    | extend_trace; solve_forallb ].
Qed.

Lemma probe_registry_quiet (image : str) (attempts : nat) :
  forall k,
    spec (probe_registry attempts k image)
         (fun _ d => forallb not_failure_log d = true /\ forallb not_launch d = true).
Proof.
  induction attempts as [|attempts IH]; intros k; apply spec_wp; intros t;
    cbn [probe_registry].
  - wp_step. exists []. now rewrite app_nil_r.
  - repeat first
      [ eapply wp_spec; [apply IH|]; cbv beta; intros o d [Hd1 Hd2]; extend_trace;
        split; solve_forallb
      | wp_step
      | extend_trace; split; solve_forallb ].
Qed.

Lemma image_found_quiet (image : str) :
  spec (image_found image)
       (fun _ d => forallb not_failure_log d = true /\ forallb not_launch d = true).
Proof.
  unfold image_found. destruct (use_registry E); [apply probe_registry_quiet|].
  apply spec_wp; intros t. unfold probe_docker.
  repeat first [ wp_step | extend_trace; split; solve_forallb ].
Qed.

(** Over a whole request: either no failure log was taken from the queue,
    or no effect of the launch step was performed. *)
Lemma get_failure_or_launch :
  forallb not_failure_log (snd (get [])) = true
  \/ forallb not_launch (snd (get [])) = true.
Proof.
  change (wp get (fun _ tr => forallb not_failure_log tr = true
                              \/ forallb not_launch tr = true) []).
  unfold get, build_and_launch, authorize, resolve_ref, event_log_launch.
  repeat first
    [ eapply wp_spec; [apply image_found_quiet|]; cbv beta;
      intros o1 d1 [HF1 HL1]; destruct o1 as [?|?|]; cbv beta iota
    | eapply wp_spec; [apply launch_no_failure_log|]; cbv beta;
      intros o2 d2 HF2; destruct o2 as [?|?|]; cbv beta iota
    | eapply wp_spec;
      [apply spec_conj; [apply build_loop_no_launch | apply build_loop_failure_flag]|];
      cbv beta; intros o3 d3 [HL3 HN3];
      destruct o3 as [[|]|?|]; cbv beta iota;
      try (destruct (HN3 eq_refl) as [_ HF3])
    | wp_step
    | solve [left; solve_forallb]
    | solve [right; solve_forallb] ].
Qed.

(** C4: a log event whose JSON payload has phase [failure] or [failed].
    Taking it from the queue observes [build_time{failure}], increments
    [build_count{failure}], writes the payload as it is and sets [failed];
    and a request that took such an event performs no effect of the launch
    step: no pod listing, no launcher call, no launch metric. *)
Theorem failure_log_stops_launch (line : str) (items : list (str * json)) :
  json_loads line = Some (JDict items) ->
  is_failure_phase (dict_get (u "phase") items) = true ->
  (forall self q vars t,
      build_loop self (log_event line :: q) vars t
      = let t1 := t ++ [QueueGet (log_event line);
                        BuildTimeObserve failure;
                        BuildCountInc failure (metric_provider self) (repo_url self);
                        EmitFrame (JStr line)] in
        if stream_open t
        then build_loop self q
                        {| log_future := log_future vars; failed := true;
                           event := Some (JStr line) |} t1
        else (Raised Finish, t1))
  /\ (In (QueueGet (log_event line)) (snd (get [])) ->
      forallb not_launch (snd (get [])) = true).
Proof.
  intros Hloads Hbad. split.
  - intros self q vars t. cbv zeta. cbn [build_loop].
    change (kind (log_event line)) with (u "log").
    change (payload (log_event line)) with line. run.
    change (str_eqb (u "log") (u "pod.phasechange")) with false. cbv iota.
    rewrite str_eqb_refl, Hloads, Hbad. cbv iota.
    run. unfold bind. rewrite emit_eq. unfold emitted.
    rewrite !stream_open_app by reflexivity. cbn [orb].
    rewrite <- !app_assoc. cbn [app].
    destruct (stream_open t); reflexivity.
  - intros Hin. destruct get_failure_or_launch as [Hnone | Hlaunch]; [|exact Hlaunch].
    rewrite forallb_forall in Hnone. specialize (Hnone _ Hin).
    unfold not_failure_log, consumes_failure_log, is_failure_log, log_event in Hnone.
    cbn [kind payload] in Hnone.
    rewrite str_eqb_refl, Hloads, Hbad in Hnone. discriminate.
Qed.

(** *** Terminal events *)

Lemma stream_scan_nil (s : stream_state) : stream_scan s [] = s.
Proof. reflexivity. Qed.

Lemma stream_scan_cons (s : stream_state) (e : effect) (t : trace) :
  stream_scan s (e :: t) = stream_scan (stream_step s e) t.
Proof. reflexivity. Qed.

Lemma stream_scan_app (s : stream_state) (t d : trace) :
  stream_scan s (t ++ d) = stream_scan (stream_scan s t) d.
Proof. apply fold_left_app. Qed.

Lemma stream_scan_silent (d : trace) :
  forallb not_frame d = true -> forall s, stream_scan s d = s.
Proof.
  induction d as [|e d IH]; intros Hd s; [reflexivity|].
  cbn [forallb] in Hd. apply andb_true_iff in Hd. destruct Hd as [He Hd].
  rewrite stream_scan_cons, (IH Hd).
  destruct e; try reflexivity. discriminate He.
Qed.

Lemma is_terminal_phase (phase : str) (rest : list (str * json)) :
  is_terminal (JDict ((u "phase", JStr phase) :: rest))
  = str_eqb phase (u "ready") || str_eqb phase (u "failed").
Proof.
  unfold is_terminal, has_phase, frame_phase. cbn [dict_get].
  rewrite str_eqb_refl. reflexivity.
Qed.

Lemma terminal_failed (rest : list (str * json)) :
  is_terminal (JDict ((u "phase", JStr (u "failed")) :: rest)) = true.
Proof. now rewrite is_terminal_phase. Qed.

Lemma plain_built (rest : list (str * json)) :
  is_terminal (JDict ((u "phase", JStr (u "built")) :: rest)) = false.
Proof. now rewrite is_terminal_phase. Qed.

Lemma plain_waiting (rest : list (str * json)) :
  is_terminal (JDict ((u "phase", JStr (u "waiting")) :: rest)) = false.
Proof. now rewrite is_terminal_phase. Qed.

Lemma plain_launching (rest : list (str * json)) :
  is_terminal (JDict ((u "phase", JStr (u "launching")) :: rest)) = false.
Proof. now rewrite is_terminal_phase. Qed.

Lemma plain_auth (rest : list (str * json)) :
  is_terminal (JDict ((u "phase", JStr (u "auth")) :: rest)) = false.
Proof. now rewrite is_terminal_phase. Qed.

Lemma auth_request_frame (rest : list (str * json)) :
  has_phase (u "auth") (JDict ((u "phase", JStr (u "auth")) :: rest)) = true.
Proof.
  unfold has_phase, frame_phase. cbn [dict_get]. rewrite str_eqb_refl. reflexivity.
Qed.

Create Rewrite HintDb frames.
#[local] Hint Rewrite terminal_failed plain_built plain_waiting plain_launching
  plain_auth auth_request_frame : frames.

(** Scanning a trace written with appends and conses, given what is known
    of its unknown parts. *)
Ltac scan_simpl :=
  unfold built_event, found_event;
  repeat (progress
            (rewrite ?stream_scan_app, ?stream_scan_cons, ?stream_scan_nil;
             cbn [stream_step];
             autorewrite with frames;
             repeat match goal with
                    | H : stream_scan Open ?d = _ |- context [stream_scan Open ?d] =>
                        rewrite H
                    | H : forall s, stream_scan s ?d = s |- context [stream_scan _ ?d] =>
                        rewrite H
                    | H : is_terminal ?f = _ |- context [is_terminal ?f] => rewrite H
                    end;
             cbv iota)).

Ltac solve_existsb :=
  rewrite ?existsb_app; cbn [existsb is_build_failure is_auth_request];
  autorewrite with frames;
  repeat match goal with
         | H : existsb ?P ?d = true |- context [existsb ?P ?d] => rewrite H
         end;
  repeat (rewrite orb_true_r || rewrite orb_true_l);
  cbn [orb]; reflexivity.

Lemma plain_progress_frames (p : progress) :
  plain_progress p = true ->
  is_terminal (JStr (payload p)) = false
  /\ is_terminal (JDict [(u "phase", JStr (payload p))]) = false.
Proof.
  unfold plain_progress. intros H. apply andb_true_iff in H. destruct H as [H1 H2].
  split; [now destruct (is_terminal (JStr (payload p)))
         | now destruct (is_terminal (JDict [(u "phase", JStr (payload p))])) ].
Qed.

(** With plain build events the loop writes no terminal event; when it ends
    with [failed] set, either it was set before or a build failure was
    recorded. *)
Lemma build_loop_quiet (self : attrs) (q : list progress) :
  plain_queue q = true ->
  forall vars,
    plain_event (event vars) = true ->
    spec (build_loop self q vars)
         (fun o d =>
            stream_scan Open d = Open
            /\ (o = Returned true ->
                failed vars = true \/ existsb is_build_failure d = true)).
Proof.
  induction q as [|p q IH]; intros Hq vars Hev; apply spec_wp; intros t;
    cbn [build_loop].
  - wp_step. exists []. rewrite app_nil_r. repeat split. discriminate.
  - cbn [plain_queue forallb] in Hq. apply andb_true_iff in Hq.
    destruct Hq as [Hp Hq]. specialize (IH Hq).
    destruct (plain_progress_frames p Hp) as [Hlog Hphase].
    repeat first
      [ match goal with
        | H : plain_event (Some _) = true |- _ =>
            cbn [plain_event] in H; apply negb_true_iff in H
        end
      | eapply wp_spec;
        [apply IH; cbn [event plain_event];
         first [ exact Hev | now rewrite Hlog | now rewrite Hphase
               | match goal with
                 | H : event vars = Some _ |- _ => rewrite H; cbn [plain_event]
                 end;
                 match goal with
                 | H : is_terminal _ = false |- _ => now rewrite H
                 end ]|];
        cbv beta; cbn [failed]; intros o d [Hd Hflag]; extend_trace;
        split; [scan_simpl; reflexivity|];
        intros Ho; destruct (Hflag Ho) as [Hfailed | Hfailure];
        [ first [ left; exact Hfailed
                | apply orb_true_iff in Hfailed; destruct Hfailed as [Hbad | Hfailed];
                  [discriminate Hbad | left; exact Hfailed]
                | right; solve_existsb ]
        | right; solve_existsb ]
      | wp_step
      | extend_trace; split;
        [ scan_simpl; reflexivity
        | intros Ho; first [discriminate Ho | left; congruence] ] ].
Qed.

(** The launch loop writes [launching] frames only, except for the [failed]
    frame of a last failed attempt, after which it raises; what it returns
    is an answer of the launcher. *)
Lemma launch_attempts_frames (self : attrs) (todo : nat) :
  forall i delay,
    spec (launch_attempts self todo i delay)
         (fun o d =>
            stream_scan Open d <> Broken
            /\ (forall a, o = Returned a ->
                stream_scan Open d = Open
                /\ (forall server_info, a = Some server_info ->
                    exists k, Launcher.launch (launcher E) k = Returns server_info))).
Proof.
  induction todo as [|todo IH]; intros i delay; apply spec_wp; intros t;
    cbn [launch_attempts].
  - wp_step. exists []. rewrite app_nil_r. split; [reflexivity|].
    split; [discriminate|].
    intros a Ha. injection Ha as <-. split; [reflexivity|].
    intros server_info Hnone. discriminate Hnone.
  - destruct (launch_identity self) as [username server_name].
    repeat first
      [ eapply wp_spec; [apply IH|]; cbv beta; intros o d [Hd Hret]; extend_trace;
        split;
        [ scan_simpl; exact Hd
        | intros value Hvalue; destruct (Hret value Hvalue) as [Hopen Hinfo];
          split; [scan_simpl; reflexivity | exact Hinfo] ]
      | wp_step
      | extend_trace; split;
        [ scan_simpl; discriminate
        | intros value Hvalue;
          first [ discriminate Hvalue
                | injection Hvalue as <-;
                  split; [scan_simpl; reflexivity|];
                  intros info Hinfo; injection Hinfo as <-; eexists; eassumption ] ] ].
Qed.

Lemma ready_frame_terminal (message : json) (server_info : dict str) :
  dict_get (u "phase") server_info = None ->
  is_terminal
    (JDict (dict_update [(u "phase", JStr (u "ready")); (u "message", message)]
                        (map (fun kv => (fst kv, JStr (snd kv))) server_info)))
  = true.
Proof.
  intros Hphase. unfold is_terminal, has_phase, frame_phase.
  rewrite dict_get_update_none.
  - reflexivity.
  - rewrite (dict_get_map_values JStr). now rewrite Hphase.
Qed.

(** When the launcher's answers have no [phase] entry of their own, a
    launch that returns has written exactly one terminal event, as its last
    frame; however it ends, no frame follows a terminal event. *)
Lemma launch_frames (self : attrs) (provider : Provider.t) :
  (forall k server_info,
      Launcher.launch (launcher E) k = Returns server_info ->
      dict_get (u "phase") server_info = None) ->
  spec (launch self provider)
       (fun o d =>
          stream_scan Open d <> Broken
          /\ (forall a, o = Returned a -> stream_scan Open d = Closed)).
Proof.
  intros Hlauncher. apply spec_wp; intros t. unfold launch, emit_ready.
  repeat first
    [ eapply wp_spec; [apply launch_attempts_frames|]; cbv beta;
      intros o d [Hd Hret]; destruct o as [value| |]; cbv beta iota;
      [ destruct (Hret value eq_refl) as [Hopen Hinfo];
        destruct value as [server_info|];
        [ destruct (Hinfo server_info eq_refl) as [k Hk];
          pose proof (Hlauncher k server_info Hk) as Hphase | ]
      | | ]
    | wp_step
    | extend_trace; split;
      [ scan_simpl; rewrite ?ready_frame_terminal by assumption;
        first [discriminate | assumption]
      | intros unit_value Hvalue;
        first [ discriminate Hvalue
              | scan_simpl; rewrite ?ready_frame_terminal by assumption; reflexivity ] ] ].
Qed.

Lemma probe_registry_silent (image : str) (attempts : nat) :
  forall k, spec (probe_registry attempts k image) (fun _ d => forallb not_frame d = true).
Proof.
  induction attempts as [|attempts IH]; intros k; apply spec_wp; intros t;
    cbn [probe_registry].
  - wp_step. exists []. now rewrite app_nil_r.
  - repeat first
      [ eapply wp_spec; [apply IH|]; cbv beta; intros o d Hd; extend_trace; solve_forallb
      | wp_step
      | extend_trace; solve_forallb ].
Qed.

(** Looking for the image writes no frame. *)
Lemma image_found_silent (image : str) :
  spec (image_found image) (fun _ d => forall s, stream_scan s d = s).
Proof.
  assert (H : spec (image_found image) (fun _ d => forallb not_frame d = true)).
  { unfold image_found. destruct (use_registry E); [apply probe_registry_silent|].
    apply spec_wp; intros t. unfold probe_docker.
    repeat first [ wp_step | extend_trace; solve_forallb ]. }
  intros t. destruct (H t) as [d [Hd Hsilent]]. exists d. split; [exact Hd|].
  now apply stream_scan_silent.
Qed.

(** *** From the scan of a trace to its frames *)

Lemma frames_app (t d : trace) : frames (t ++ d) = frames t ++ frames d.
Proof. unfold frames. apply flat_map_app. Qed.

Lemma forallb_rev {A} (P : A -> bool) (l : list A) : forallb P (rev l) = forallb P l.
Proof.
  induction l as [|x l IH]; [reflexivity|].
  cbn [rev forallb]. rewrite forallb_app, IH. cbn [forallb].
  rewrite andb_true_r. apply andb_comm.
Qed.

Lemma stream_scan_open (t : trace) :
  stream_scan Open t = Open ->
  forallb (fun f => negb (is_terminal f)) (frames t) = true.
Proof.
  induction t as [|e t IH] using rev_ind; [reflexivity|].
  rewrite stream_scan_app, frames_app, forallb_app.
  rewrite stream_scan_cons, stream_scan_nil.
  destruct e; cbn [stream_step frames flat_map app forallb];
    try (intros H; rewrite (IH H); reflexivity).
  destruct (stream_scan Open t); try discriminate.
  destruct (is_terminal data); [discriminate|]. intros _. now rewrite IH.
Qed.

Lemma stream_scan_not_broken (t : trace) :
  stream_scan Open t <> Broken -> terminal_frames_last (frames t) = true.
Proof.
  induction t as [|e t IH] using rev_ind; [reflexivity|].
  rewrite stream_scan_app, frames_app, stream_scan_cons, stream_scan_nil.
  destruct e; cbn [stream_step frames flat_map app];
    try (rewrite app_nil_r; exact IH).
  intros H. unfold terminal_frames_last. rewrite rev_app_distr. cbn [rev app].
  rewrite forallb_rev. apply stream_scan_open.
  destruct (stream_scan Open t); [reflexivity | contradiction H; reflexivity ..].
Qed.

Lemma stream_scan_closed (t : trace) :
  stream_scan Open t = Closed -> one_terminal_frame_last (frames t) = true.
Proof.
  induction t as [|e t IH] using rev_ind; [discriminate|].
  rewrite stream_scan_app, frames_app, stream_scan_cons, stream_scan_nil.
  destruct e; cbn [stream_step frames flat_map app];
    try (rewrite app_nil_r; exact IH).
  intros H. unfold one_terminal_frame_last. rewrite rev_app_distr. cbn [rev app].
  rewrite forallb_rev.
  destruct (stream_scan Open t) eqn:Hscan; try discriminate.
  destruct (is_terminal data); [|discriminate].
  now rewrite (stream_scan_open t Hscan).
Qed.

(** Over a whole request, with plain build events and launcher answers
    without a [phase] entry: no frame follows a terminal event; and when
    [get] returns, a build failure was recorded, or authorization was asked
    for, or the last frame is a terminal event. *)
Lemma get_frames :
  plain_queue (build_queue E) = true ->
  (forall k server_info,
      Launcher.launch (launcher E) k = Returns server_info ->
      dict_get (u "phase") server_info = None) ->
  stream_scan Open (snd (get [])) <> Broken
  /\ (fst (get []) = Returned tt ->
      existsb is_build_failure (snd (get [])) = true
      \/ existsb is_auth_request (snd (get [])) = true
      \/ stream_scan Open (snd (get [])) = Closed).
Proof.
  intros Hqueue Hlauncher.
  change (wp get (fun o tr =>
                    stream_scan Open tr <> Broken
                    /\ (o = Returned tt ->
                        existsb is_build_failure tr = true
                        \/ existsb is_auth_request tr = true
                        \/ stream_scan Open tr = Closed)) []).
  unfold get, build_and_launch, authorize, resolve_ref, event_log_launch.
  repeat first
    [ eapply wp_spec; [apply image_found_silent|]; cbv beta;
      intros o1 d1 Hd1; destruct o1 as [?|?|]; cbv beta iota
    | eapply wp_spec; [apply (launch_frames _ _ Hlauncher)|]; cbv beta;
      intros o2 d2 [Hd2 Hret2]; destruct o2 as [?|?|]; cbv beta iota;
      try (pose proof (Hret2 _ eq_refl) as Hclosed2)
    | eapply wp_spec; [apply build_loop_quiet; [exact Hqueue | reflexivity]|];
      cbv beta; cbn [failed]; intros o3 d3 [Hd3 Hflag3];
      destruct o3 as [[|]|?|]; cbv beta iota;
      try (destruct (Hflag3 eq_refl) as [Hfalse | Hfailure3]; [discriminate Hfalse|])
    | wp_step
    | split;
      [ scan_simpl; first [discriminate | assumption]
      | intros Hreturned;
        first [ discriminate Hreturned
              | solve [left; solve_existsb]
              | solve [right; left; solve_existsb]
              | solve [right; right; scan_simpl; reflexivity] ] ] ].
Qed.

(** A trace that took no failure log from the queue. *)
Lemma no_failure_log_taken (d : trace) :
  forallb not_failure_log d = true -> existsb consumes_failure_log d = false.
Proof.
  induction d as [|e d IH]; [reflexivity|]. cbn [forallb existsb].
  intros H. apply andb_true_iff in H. destruct H as [He Hd].
  unfold not_failure_log in He. apply negb_true_iff in He. now rewrite He, IH.
Qed.

Ltac taken_simpl :=
  rewrite ?existsb_app; cbn [existsb consumes_failure_log];
  repeat match goal with
         | H : forallb not_failure_log ?d = true
           |- context [existsb consumes_failure_log ?d] =>
             rewrite (no_failure_log_taken d H)
         end;
  cbn [orb].

(** With plain build events, a request that took a failure log from the
    queue and returned has written no terminal event. *)
Lemma get_failed_build_frames :
  plain_queue (build_queue E) = true ->
  fst (get []) = Returned tt ->
  existsb consumes_failure_log (snd (get [])) = true ->
  stream_scan Open (snd (get [])) = Open.
Proof.
  intros Hqueue.
  change (wp get (fun o tr =>
                    o = Returned tt ->
                    existsb consumes_failure_log tr = true ->
                    stream_scan Open tr = Open) []).
  unfold get, build_and_launch, authorize, resolve_ref, event_log_launch.
  repeat first
    [ eapply wp_spec;
      [apply spec_conj; [apply image_found_silent | apply image_found_quiet]|];
      cbv beta; intros o1 d1 [Hd1 [HF1 _]]; destruct o1 as [?|?|]; cbv beta iota
    | eapply wp_spec; [apply launch_no_failure_log|]; cbv beta;
      intros o2 d2 HF2; destruct o2 as [?|?|]; cbv beta iota
    | eapply wp_spec;
      [apply spec_conj;
       [apply build_loop_quiet; [exact Hqueue | reflexivity]
       | apply build_loop_failure_flag]|];
      cbv beta; cbn [failed]; intros o3 d3 [[Hd3 _] HN3];
      destruct o3 as [[|]|?|]; cbv beta iota;
      try (destruct (HN3 eq_refl) as [_ HF3])
    | wp_step
    | intros Hreturned Htaken;
      first [ discriminate Hreturned
            | exfalso; revert Htaken; taken_simpl; discriminate
            | scan_simpl; reflexivity ] ].
Qed.

(** What the framework adds to the trace of [get]. *)
Lemma execute_trace (responses : Z -> option str) (extract_message : exn -> str)
      (t : trace) :
  snd (_execute responses extract_message t)
  = snd (get t)
    ++ match fst (get t) with
       | Raised Finish => []
       | Raised e => [EmitFrame (send_error responses extract_message 500 (Some e))]
       | _ => []
       end.
Proof.
  unfold _execute. destruct (get t) as [[a|e|] t']; cbn [fst snd];
    [now rewrite app_nil_r | | now rewrite app_nil_r].
  destruct e; cbn [_handle_request_exception]; unfold ret, perform; cbn [snd];
    rewrite ?app_nil_r; reflexivity.
Qed.

Lemma no_terminal_frame (fs : list json) :
  existsb is_terminal fs = false
  <-> forallb (fun f => negb (is_terminal f)) fs = true.
Proof.
  induction fs as [|f fs IH]; [split; reflexivity|]. cbn [existsb forallb].
  rewrite orb_false_iff, andb_true_iff, negb_true_iff, IH. reflexivity.
Qed.

(** C1, amended: the request as the framework runs it, with build events
    that carry no [ready] or [failed] phase of their own and launcher
    answers without a [phase] entry. Exactly one terminal event is written,
    as the last frame, when [get] returns without having recorded a build
    failure or asked for authorization, and when [get] raises an exception
    other than [Finish] before a terminal event: the event is then the one
    of [send_error]. None is written when [get] returns after it took a
    failure log from the queue. Unless [get] raises an exception other than
    [Finish], nothing is written after its frames; and among the frames of
    [get] none follows a terminal event. *)
Theorem terminal_event_is_last (responses : Z -> option str)
        (extract_message : exn -> str) :
  plain_queue (build_queue E) = true ->
  (forall k server_info,
      Launcher.launch (launcher E) k = Returns server_info ->
      dict_get (u "phase") server_info = None) ->
  let written := snd (get []) in
  let sent := snd (_execute responses extract_message []) in
  (fst (get []) = Returned tt ->
   existsb is_build_failure written = false ->
   existsb is_auth_request written = false ->
   one_terminal_frame_last (frames sent) = true)
  /\ (forall e,
         fst (get []) = Raised e -> e <> Finish ->
         existsb is_terminal (frames written) = false ->
         one_terminal_frame_last (frames sent) = true)
  /\ (fst (get []) = Returned tt ->
      existsb consumes_failure_log written = true ->
      existsb is_terminal (frames sent) = false)
  /\ ((forall e, fst (get []) = Raised e -> e = Finish) ->
      sent = written /\ terminal_frames_last (frames sent) = true)
  /\ terminal_frames_last (frames written) = true.
Proof.
  intros Hqueue Hlauncher. cbv zeta.
  destruct (get_frames Hqueue Hlauncher) as [Hlast Hone].
  pose proof (execute_trace responses extract_message []) as Hsent.
  assert (Hwritten : terminal_frames_last (frames (snd (get []))) = true)
    by now apply stream_scan_not_broken.
  split; [|split; [|split; [|split]]].
  - intros Hreturned Hbuild Hauth. rewrite Hsent, Hreturned, app_nil_r.
    apply stream_scan_closed.
    destruct (Hone Hreturned) as [H | [H | H]]; [congruence | congruence | exact H].
  - intros e Hraised Hother Hnone. rewrite Hsent, Hraised.
    assert (Hsend : forall data,
               is_terminal data = true ->
               one_terminal_frame_last (frames (snd (get []) ++ [EmitFrame data]))
               = true).
    { intros data Hdata. rewrite frames_app. cbn [frames flat_map app].
      unfold one_terminal_frame_last. rewrite rev_app_distr. cbn [rev app].
      apply no_terminal_frame in Hnone. now rewrite forallb_rev, Hnone, Hdata. }
    destruct e;
      first [ exfalso; apply Hother; reflexivity
            | apply Hsend; unfold send_error; apply terminal_failed ].
  - intros Hreturned Htaken. rewrite Hsent, Hreturned, app_nil_r.
    apply no_terminal_frame, stream_scan_open.
    now apply get_failed_build_frames.
  - intros Hfinish.
    assert (Hsame : snd (_execute responses extract_message []) = snd (get [])).
    { rewrite Hsent. destruct (fst (get [])) as [a|e|] eqn:Hget;
        [apply app_nil_r | | apply app_nil_r].
      rewrite (Hfinish e eq_refl). apply app_nil_r. }
    split; [exact Hsame | now rewrite Hsame].
  - exact Hwritten.
Qed.

End Builder.

(* ===================================================================== *)
(** ** The build name does not depend on the Unicode case tables *)
(* ===================================================================== *)

Lemma safe_build_slug_independent (lower1 lower2 : str -> str)
      (build_slug : str) (limit hash_length : Z) :
  encodable build_slug = true ->
  _safe_build_slug lower1 build_slug limit hash_length
  = _safe_build_slug lower2 build_slug limit hash_length.
Proof.
  intros Henc.
  destruct (safe_build_slug_explicit lower1 build_slug Henc)
    as (e1 & h1 & He1 & Hh1 & _ & _ & _ & Hv1).
  destruct (safe_build_slug_explicit lower2 build_slug Henc)
    as (e2 & h2 & He2 & Hh2 & _ & _ & _ & Hv2).
  rewrite Hv1, Hv2. congruence.
Qed.

Lemma build_name_independent (lower1 lower2 : str -> str) (build_slug ref : str) :
  encodable build_slug = true -> encodable ref = true ->
  _generate_build_name lower1 build_slug ref (u "build-") 63 6
  = _generate_build_name lower2 build_slug ref (u "build-") 63 6.
Proof.
  intros Hslug Href. unfold _generate_build_name.
  rewrite (safe_build_slug_independent lower1 lower2 build_slug _ _ Hslug).
  rewrite (safe_build_slug_independent lower1 lower2 ref _ _ Href).
  destruct (safe_build_slug_explicit lower2 build_slug Hslug)
    as (e & h & _ & _ & He & _ & Hh & Hv).
  destruct (safe_build_slug_explicit lower2 ref Href)
    as (er & hr & _ & _ & Her & _ & Hhr & Hvr).
  rewrite Hv, Hvr. unfold rbind. f_equal.
  assert (Hpart : forall a b n m,
             forallb is_escaped_char a = true -> forallb is_hex_char b = true ->
             forallb is_ascii_char (map lower_char (slice_to a n) ++ DASH :: slice_to b m)
             = true).
  { intros a b n m Ha Hb. apply forallb_impl with (P := is_dns_char).
    - intros c Hc. now apply escaped_char_ascii, dns_char_escaped.
    - now apply safe_build_slug_chars. }
  pose proof (Hpart e h (63 - len (u "build-") - 6 - 1 - 6 - 1)%Z 6%Z He Hh) as HS.
  pose proof (Hpart er hr (6 - 2 - 1)%Z 2%Z Her Hhr) as HR.
  remember (map lower_char (slice_to e (63 - len (u "build-") - 6 - 1 - 6 - 1))
            ++ DASH :: slice_to h 6) as S eqn:HeqS.
  remember (map lower_char (slice_to er (6 - 2 - 1)) ++ DASH :: slice_to hr 2)
    as R eqn:HeqR.
  clear HeqS HeqR.
  assert (Hascii : is_ascii (u "build-" ++ S ++ u "-" ++ slice_to R 6) = true).
  { unfold is_ascii. rewrite !forallb_app, HS.
    rewrite (forallb_slice_to is_ascii_char R 6 HR). reflexivity. }
  unfold lower. now rewrite Hascii.
Qed.

(** C7: for encodable [build_slug] and [ref], the build name made with the
    prefix [build-] is one string, the same whatever else the call could
    depend on; it has at most 63 characters, all of them ASCII lower-case
    letters, digits or ['-']. *)
Theorem generate_build_name_deterministic (build_slug ref : str) :
  encodable build_slug = true -> encodable ref = true ->
  exists name,
    (forall unicode_lower,
        _generate_build_name unicode_lower build_slug ref (u "build-") 63 6 = Ok name)
    /\ length name <= 63
    /\ forallb is_dns_char name = true.
Proof.
  intros Hslug Href.
  destruct (build_name_shape (fun s => s) build_slug ref Hslug Href)
    as (body & x & y & Hname & Hbody & Hlen & Hx & Hy).
  exists (98%N :: body ++ [x; y]). split; [|split].
  - intros unicode_lower. unfold build_name_of in Hname.
    etransitivity; [|exact Hname]. now apply build_name_independent.
  - cbn [length]. rewrite length_app. cbn [length]. lia.
  - cbn [forallb]. apply andb_true_iff. split; [reflexivity|].
    rewrite forallb_app. apply andb_true_iff. split; [exact Hbody|].
    cbn [forallb]. now rewrite (hex_char_dns x Hx), (hex_char_dns y Hy).
Qed.

(* ===================================================================== *)
(** ** More on the names: any limit, any prefix *)
(* ===================================================================== *)

Section Names.

Variable unicode_lower : str -> str.

Lemma encode_utf8_unencodable (s : str) :
  encodable s = false -> encode_utf8 s = None.
Proof.
  induction s as [|c r IH]; [discriminate|].
  unfold encodable. cbn [forallb encode_utf8]. intros H.
  destruct (is_scalar c) eqn:Hc.
  - cbn [andb] in H. rewrite (IH H). destruct (utf8_encode_char c); reflexivity.
  - assert (Hnone : utf8_encode_char c = None).
    { unfold utf8_encode_char, is_scalar in *.
      apply orb_false_iff in Hc. destruct Hc as [Hlow Hhigh].
      destruct (c <? 128)%N eqn:H1; [apply N.ltb_lt in H1; apply N.ltb_ge in Hlow; lia|].
      destruct (c <? 2048)%N eqn:H2; [apply N.ltb_lt in H2; apply N.ltb_ge in Hlow; lia|].
      rewrite Hlow, Hhigh. cbn [orb].
      destruct (c <? 65536)%N eqn:H3; [reflexivity|].
      destruct (c <? 1114112)%N eqn:H4; [|reflexivity].
      apply N.ltb_ge in H3. destruct (57343 <? c)%N eqn:H5; [discriminate|].
      apply N.ltb_ge in H5. lia. }
    now rewrite Hnone.
Qed.

Lemma escape_alnum (s : str) :
  forallb is_alnum s = true -> Escapism.escape is_alnum DASH s = Ok s.
Proof.
  induction s as [|c r IH]; [reflexivity|].
  cbn [forallb Escapism.escape]. intros H. apply andb_true_iff in H.
  destruct H as [Hc Hr]. rewrite Hc, (IH Hr). reflexivity.
Qed.

Lemma alnum_encodable (s : str) : forallb is_alnum s = true -> encodable s = true.
Proof.
  intros H. apply ascii_encodable. revert H. apply forallb_impl.
  intros c Hc. apply escaped_char_ascii. unfold is_escaped_char. now rewrite Hc.
Qed.

Lemma length_slice_to_hash (h : str) (n : Z) :
  length h = 64 -> (0 <= n <= 64)%Z -> length (slice_to h n) = Z.to_nat n.
Proof.
  intros Hlen Hn. unfold slice_to.
  destruct (n <? 0)%Z eqn:Hneg; [apply Z.ltb_lt in Hneg; lia|].
  rewrite length_firstn. lia.
Qed.

(** X1: [_safe_build_slug] for any [limit]: the result ends with ['-'] and
    the first [hash_length] digits of the SHA-256 of the slug, so it has at
    least [hash_length + 1] characters whatever [limit] is; it is within
    [limit] as soon as [limit] leaves room for that; and it is made of
    [a-z0-9-]. *)
Theorem safe_build_slug_bounds (build_slug : str) (limit hash_length : Z) :
  encodable build_slug = true ->
  (0 <= hash_length <= 64)%Z ->
  exists name digest,
    sha256_hexdigest build_slug = Ok digest
    /\ _safe_build_slug unicode_lower build_slug limit hash_length
       = Ok (name ++ DASH :: slice_to digest hash_length)
    /\ len (name ++ DASH :: slice_to digest hash_length) = (len name + 1 + hash_length)%Z
    /\ (hash_length + 1 <= limit ->
        len (name ++ DASH :: slice_to digest hash_length) <= limit)%Z
    /\ forallb is_dns_char (name ++ DASH :: slice_to digest hash_length) = true.
Proof.
  intros Henc Hhash.
  destruct (safe_build_slug_explicit unicode_lower build_slug Henc)
    as (e & h & _ & Hdigest & He & Hhlen & Hh & Hsafe).
  exists (map lower_char (slice_to e (limit - hash_length - 1))), h.
  pose proof (length_slice_to_hash h Hhlen Hhash) as Htail.
  split; [exact Hdigest|]. split; [apply Hsafe|]. split; [|split].
  - unfold len. rewrite length_app. cbn [length]. rewrite Htail. lia.
  - intros Hroom. unfold len. rewrite length_app, length_map. cbn [length].
    rewrite Htail.
    pose proof (@length_slice_to_le e (limit - hash_length - 1)%Z). lia.
  - now apply safe_build_slug_chars.
Qed.

(** X2: a slug of ASCII letters and digits that fits in the limit comes back
    whole, in lower case, followed by ['-'] and the digits of its hash. *)
Theorem safe_build_slug_of_short_slug (build_slug : str) (limit hash_length : Z) :
  forallb is_alnum build_slug = true ->
  (len build_slug <= limit - hash_length - 1)%Z ->
  exists digest,
    sha256_hexdigest build_slug = Ok digest
    /\ _safe_build_slug unicode_lower build_slug limit hash_length
       = Ok (map lower_char build_slug ++ DASH :: slice_to digest hash_length).
Proof.
  intros Halnum Hfits.
  destruct (safe_build_slug_explicit unicode_lower build_slug (alnum_encodable _ Halnum))
    as (e & h & He & Hdigest & _ & _ & _ & Hsafe).
  rewrite (escape_alnum _ Halnum) in He. injection He as <-.
  exists h. split; [exact Hdigest|].
  rewrite Hsafe, slice_to_all by exact Hfits. reflexivity.
Qed.

(** X3: a slug or a ref with a lone surrogate cannot be encoded: both
    functions raise UnicodeEncodeError, and they raise nothing else. *)
Theorem generate_build_name_raises (build_slug ref prefix : str) (limit ref_length : Z) :
  (encodable build_slug = false ->
   forall hash_length,
     _safe_build_slug unicode_lower build_slug limit hash_length
     = Raise UnicodeEncodeError)
  /\ (encodable build_slug && encodable ref = false ->
      _generate_build_name unicode_lower build_slug ref prefix limit ref_length
      = Raise UnicodeEncodeError)
  /\ (encodable build_slug && encodable ref = true ->
      exists name,
        _generate_build_name unicode_lower build_slug ref prefix limit ref_length
        = Ok name).
Proof.
  assert (Hraise : forall s l hl,
             encodable s = false ->
             _safe_build_slug unicode_lower s l hl = Raise UnicodeEncodeError).
  { intros s l hl Hs. unfold _safe_build_slug, sha256_hexdigest.
    now rewrite (encode_utf8_unencodable _ Hs). }
  split; [|split].
  - intros Hslug hash_length. now apply Hraise.
  - intros Hboth. unfold _generate_build_name.
    destruct (encodable build_slug) eqn:Hslug.
    + cbn [andb] in Hboth.
      destruct (safe_build_slug_explicit unicode_lower build_slug Hslug)
        as (e & h & _ & _ & _ & _ & _ & Hsafe).
      rewrite Hsafe, (Hraise ref _ _ Hboth). reflexivity.
    + now rewrite (Hraise build_slug _ _ Hslug).
  - intros Hboth. apply andb_true_iff in Hboth. destruct Hboth as [Hslug Href].
    unfold _generate_build_name.
    destruct (safe_build_slug_explicit unicode_lower build_slug Hslug)
      as (e & h & _ & _ & _ & _ & _ & Hsafe).
    destruct (safe_build_slug_explicit unicode_lower ref Href)
      as (er & hr & _ & _ & _ & _ & _ & Hsafe_ref).
    rewrite Hsafe, Hsafe_ref. eexists. reflexivity.
Qed.

(** X4: [_generate_build_name] for any ASCII prefix and any limit that
    leaves room for the two hashes: the name is within the limit, starts
    with the prefix in lower case, and goes on over [a-z0-9-]. *)
Theorem generate_build_name_within_limit (build_slug ref prefix : str)
        (limit ref_length : Z) :
  encodable build_slug = true -> encodable ref = true ->
  is_ascii prefix = true ->
  (3 <= ref_length)%Z ->
  (len prefix + ref_length + 8 <= limit)%Z ->
  exists rest,
    _generate_build_name unicode_lower build_slug ref prefix limit ref_length
    = Ok (map lower_char prefix ++ rest)
    /\ (len (map lower_char prefix ++ rest) <= limit)%Z
    /\ forallb is_dns_char rest = true.
Proof.
  intros Hslug Href Hprefix Hreflen Hroom.
  destruct (safe_build_slug_explicit unicode_lower build_slug Hslug)
    as (e & h & _ & _ & He & Hhlen & Hh & Hsafe).
  destruct (safe_build_slug_explicit unicode_lower ref Href)
    as (er & hr & _ & _ & Her & Hhrlen & Hhr & Hsafe_ref).
  unfold _generate_build_name. rewrite Hsafe, Hsafe_ref. unfold rbind.
  set (n := (limit - len prefix - ref_length - 1 - 6 - 1)%Z).
  set (m := (ref_length - 2 - 1)%Z).
  pose proof (@safe_build_slug_chars e h n 6 He Hh) as HS.
  pose proof (@safe_build_slug_chars er hr m 2 Her Hhr) as HR.
  pose proof (@safe_build_slug_length e h n 6) as HSlen.
  pose proof (@safe_build_slug_length er hr m 2) as HRlen.
  remember (map lower_char (slice_to e n) ++ DASH :: slice_to h 6) as S eqn:HeqS.
  remember (map lower_char (slice_to er m) ++ DASH :: slice_to hr 2) as R eqn:HeqR.
  clear HeqS HeqR Hsafe Hsafe_ref.
  assert (Hrest : forallb is_dns_char (S ++ u "-" ++ slice_to R ref_length) = true).
  { change (u "-") with [DASH]. rewrite !forallb_app, HS. cbn [andb forallb].
    rewrite (forallb_slice_to is_dns_char R ref_length HR). reflexivity. }
  exists (S ++ u "-" ++ slice_to R ref_length). split; [|split].
  - f_equal. rewrite lower_ascii.
    + rewrite map_app. f_equal. now apply map_lower_dns.
    + unfold is_ascii in *. rewrite forallb_app, Hprefix. cbn [andb].
      revert Hrest. apply forallb_impl. intros c Hc.
      now apply escaped_char_ascii, dns_char_escaped.
  - change (u "-") with [DASH]. unfold len in *.
    rewrite !length_app, length_map. cbn [length].
    pose proof (@length_slice_to_le R ref_length). subst n m. lia.
  - exact Hrest.
Qed.

Lemma rsplit1_head_app (a b : str) :
  contains_char COLON b = false -> rsplit1_head COLON (a ++ COLON :: b) = a.
Proof.
  intros Hb. induction a as [|c r IH].
  - cbn [app rsplit1_head].
    assert (Hnone : existsb (N.eqb COLON) b = false) by exact Hb.
    rewrite Hnone. reflexivity.
  - cbn [app rsplit1_head].
    assert (Hsome : existsb (N.eqb COLON) (r ++ COLON :: b) = true).
    { rewrite existsb_app. cbn [existsb]. rewrite N.eqb_refl.
      cbn [orb]. apply orb_true_r. }
    rewrite Hsome, IH. reflexivity.
Qed.

(** X5: the image name reads the ref only through [replace('_',
    '-').lower()]: two refs that differ in case, or in ['_'] against ['-'],
    get the same image name (and so the same cached image). *)
Theorem image_name_of_similar_refs (image_prefix build_slug ref1 ref2 : str) :
  encodable build_slug = true ->
  is_ascii image_prefix = true -> is_ascii ref1 = true -> is_ascii ref2 = true ->
  map lower_char (replace_char UNDERSCORE DASH ref1)
  = map lower_char (replace_char UNDERSCORE DASH ref2) ->
  exists name,
    image_name_of unicode_lower image_prefix build_slug ref1 = Ok name
    /\ image_name_of unicode_lower image_prefix build_slug ref2 = Ok name.
Proof.
  intros Hslug Hprefix Href1 Href2 Hsame.
  destruct (image_name_explicit unicode_lower image_prefix build_slug ref1
              Hslug Hprefix Href1) as (safe1 & Hsafe1 & _ & _ & Hname1).
  destruct (image_name_explicit unicode_lower image_prefix build_slug ref2
              Hslug Hprefix Href2) as (safe2 & Hsafe2 & _ & _ & Hname2).
  rewrite Hsafe1 in Hsafe2. injection Hsafe2 as <-.
  eexists. split; [exact Hname1|]. rewrite Hname2. f_equal.
  unfold replace_char in Hsame. rewrite !map_map in Hsame.
  rewrite !map_app. do 2 f_equal. cbn [map]. f_equal. symmetry. exact Hsame.
Qed.

(** X6: what [launch] counts the pods by, [image_name.rsplit(':', 1)[0]], is
    the image name up to its tag when the ref has no [':']: at most 255
    characters, and the same for every such ref of the repository. *)
Theorem image_without_tag_ignores_ref (image_prefix build_slug ref : str) :
  encodable build_slug = true ->
  is_ascii image_prefix = true -> is_ascii ref = true ->
  contains_char COLON ref = false ->
  exists repository tag,
    image_name_of unicode_lower image_prefix build_slug ref
    = Ok (repository ++ COLON :: tag)
    /\ rsplit1_head COLON (repository ++ COLON :: tag) = repository
    /\ ((len image_prefix <= 248)%Z -> length repository <= 255)
    /\ forall ref',
        is_ascii ref' = true ->
        exists tag',
          image_name_of unicode_lower image_prefix build_slug ref'
          = Ok (repository ++ COLON :: tag').
Proof.
  intros Hslug Hprefix Href Hcolon.
  destruct (image_name_explicit unicode_lower image_prefix build_slug ref
              Hslug Hprefix Href) as (safe & Hsafe & _ & Hlen & Hname).
  set (f := fun c : N => lower_char (if (c =? UNDERSCORE)%N then DASH else c)) in *.
  exists (map f (image_prefix ++ safe)), (map f ref).
  split; [|split; [|split]].
  - rewrite Hname. f_equal. rewrite app_assoc, map_app. reflexivity.
  - apply rsplit1_head_app.
    revert Hcolon. unfold contains_char. clear. induction ref as [|c r IH]; [reflexivity|].
    cbn [map existsb]. intros H. apply orb_false_iff in H. destruct H as [Hc Hr].
    rewrite (IH Hr), orb_false_r.
    unfold f, lower_char, is_upper, UNDERSCORE, DASH, COLON in *.
    apply N.eqb_neq in Hc. apply N.eqb_neq.
    destruct (c =? 95)%N eqn:H95.
    + cbn. discriminate.
    + destruct ((65 <=? c)%N && (c <=? 90)%N) eqn:Hup; [|exact Hc].
      apply andb_true_iff in Hup. destruct Hup as [H1 H2].
      apply N.leb_le in H1, H2. lia.
  - intros Hshort. rewrite length_map, length_app. now apply Hlen.
  - intros ref' Href'.
    destruct (image_name_explicit unicode_lower image_prefix build_slug ref'
                Hslug Hprefix Href') as (safe' & Hsafe' & _ & _ & Hname').
    rewrite Hsafe in Hsafe'. injection Hsafe' as <-.
    exists (map f ref'). rewrite Hname'. f_equal.
    rewrite app_assoc, map_app. reflexivity.
Qed.

End Names.

(* ===================================================================== *)
(** ** More on the handler *)
(* ===================================================================== *)

Section Handler.

Variable unicode_lower : str -> str.
Variable json_loads : str -> option json.
Variable E : env.

Ltac run :=
  repeat (first [rewrite bind_bind | rewrite bind_ret | rewrite bind_perform
                | rewrite bind_raise];
          cbv beta iota).

Ltac extend_trace :=
  eexists; split;
  [first [symmetry; apply app_nil_r | rewrite <- ?app_assoc; cbn [app]; reflexivity]|].

Ltac wp_step :=
  lazymatch goal with
  | |- wp (bind _ _) _ _ => apply wp_bind
  | |- wp (ret _) _ _ => apply wp_ret
  | |- wp (raise _) _ _ => apply wp_raise
  | |- wp block _ _ => apply wp_block
  | |- wp (perform _) _ _ => apply wp_perform
  | |- wp (emit _ _) _ _ => apply wp_emit
  | |- wp (fail _ _) _ _ => unfold fail; apply wp_emit
  | |- wp (lift ?r) _ _ => apply wp_lift; destruct r eqn:?
  | |- wp (track_inprogress _ _) _ _ => apply wp_track
  | |- wp (if ?b then _ else _) _ _ => destruct b eqn:?
  | |- wp (match ?x with _ => _ end) _ _ => destruct x eqn:?
  end; cbv beta iota.

(** *** A client that closes the stream *)

Lemma frames_written_app (t d : trace) :
  frames_written (t ++ d) = frames_written t + frames_written d.
Proof. unfold frames_written. now rewrite filter_app, length_app. Qed.

Lemma closing_ret (n : nat) {A} (a : A) : closing n (ret a).
Proof. intros t Ht. exact Ht. Qed.

Lemma closing_raise (n : nat) {A} (e : exn) : e <> Finish -> closing n (@raise A e).
Proof.
  intros He t Ht. unfold closed_at, raise. cbn [fst snd].
  destruct e; try exact Ht. congruence.
Qed.

Lemma closing_block (n : nat) {A} : closing n (@block A).
Proof. intros t Ht. exact Ht. Qed.

Lemma closing_perform (n : nat) (e : effect) : is_frame e = false -> closing n (perform e).
Proof.
  intros He t Ht. unfold closed_at, perform. cbn [fst snd].
  rewrite frames_written_app. unfold frames_written at 2.
  cbn [filter]. rewrite He. cbn [length]. lia.
Qed.

Lemma closing_emit (n : nat) (data : json) :
  stream_closes_after E = Some n -> closing n (emit E data).
Proof.
  intros Hn t Ht. unfold emit. rewrite Hn.
  destruct (n <=? frames_written t) eqn:Hfull; unfold closed_at; cbn [fst snd];
    rewrite frames_written_app; unfold frames_written at 2; cbn [filter is_frame length].
  - apply Nat.leb_le in Hfull. lia.
  - apply Nat.leb_gt in Hfull. lia.
Qed.

Lemma closing_bind (n : nat) {A B} (m : M A) (k : A -> M B) :
  closing n m -> (forall a, closing n (k a)) -> closing n (bind m k).
Proof.
  intros Hm Hk t Ht. specialize (Hm t Ht). unfold bind.
  destruct (m t) as [[a|e|] t']; cbn [fst snd closed_at] in *.
  - now apply Hk.
  - exact Hm.
  - exact Hm.
Qed.

Lemma closing_track (n : nat) {A} (g : gauge) (body : M A) :
  closing n body -> closing n (track_inprogress g body).
Proof.
  intros Hbody t Ht. unfold track_inprogress.
  assert (Hone : forall t' e, is_frame e = false ->
                           frames_written (t' ++ [e]) = frames_written t').
  { intros t' e He. rewrite frames_written_app. unfold frames_written at 2.
    cbn [filter]. rewrite He. cbn [length]. lia. }
  assert (Hinc : frames_written (t ++ [GaugeInc g]) <= n)
    by (now rewrite Hone).
  specialize (Hbody _ Hinc).
  destruct (body (t ++ [GaugeInc g])) as [[a|e|] t']; cbn [fst snd closed_at] in *.
  - now rewrite Hone.
  - destruct e; now rewrite Hone.
  - exact Hbody.
Qed.

Lemma closing_lift (n : nat) {A} (r : result A) :
  (forall e, r = Raise e -> e <> Finish) -> closing n (lift r).
Proof.
  intros Hr. destruct r as [a|e]; [apply closing_ret|].
  apply closing_raise. now apply Hr.
Qed.

Ltac closing_step :=
  lazymatch goal with
  | |- closing _ (bind _ _) => apply closing_bind; [|intros ?]
  | |- closing _ (ret _) => apply closing_ret
  | |- closing _ (raise _) => apply closing_raise; discriminate
  | |- closing _ block => apply closing_block
  | |- closing _ (perform _) => apply closing_perform; reflexivity
  | |- closing _ (emit _ _) => apply closing_emit; assumption
  | |- closing _ (fail _ _) => apply closing_emit; assumption
  | |- closing _ (track_inprogress _ _) => apply closing_track
  | |- closing _ (if ?b then _ else _) => destruct b
  | |- closing _ (match ?x with _ => _ end) => destruct x
  end.

Lemma build_loop_closing (n : nat) (self : attrs) (q : list progress) :
  stream_closes_after E = Some n ->
  forall vars, closing n (build_loop json_loads E self q vars).
Proof.
  intros Hn. induction q as [|p q IH]; intros vars; cbn [build_loop].
  - apply closing_block.
  - repeat first [apply IH | closing_step].
Qed.

Lemma launch_attempts_closing (n : nat) (self : attrs) (todo : nat) :
  stream_closes_after E = Some n ->
  forall i delay, closing n (launch_attempts E self todo i delay).
Proof.
  intros Hn. induction todo as [|todo IH]; intros i delay; cbn [launch_attempts].
  - apply closing_ret.
  - destruct (launch_identity E self) as [username server_name].
    repeat first [apply IH | closing_step].
Qed.

Lemma probe_registry_closing (n : nat) (image : str) (attempts : nat) :
  forall k, closing n (probe_registry E attempts k image).
Proof.
  induction attempts as [|attempts IH]; intros k; cbn [probe_registry].
  - apply closing_ret.
  - repeat first [apply IH | closing_step].
Qed.

Lemma escape_raises (s : str) (e : exn) :
  Escapism.escape is_alnum DASH s = Raise e -> e = UnicodeEncodeError.
Proof.
  induction s as [|c r IH]; [discriminate|]. cbn [Escapism.escape].
  destruct (is_alnum c).
  - cbn [rbind]. destruct (Escapism.escape is_alnum DASH r); [discriminate|].
    cbn [rbind]. intros H. injection H as <-. now apply IH.
  - unfold Escapism._escape_char. destruct (utf8_encode_char c).
    + cbn [rbind]. destruct (Escapism.escape is_alnum DASH r); [discriminate|].
      cbn [rbind]. intros H. injection H as <-. now apply IH.
    + cbn [rbind]. congruence.
Qed.

Lemma safe_build_slug_raises (s : str) (limit hash_length : Z) (e : exn) :
  _safe_build_slug unicode_lower s limit hash_length = Raise e -> e = UnicodeEncodeError.
Proof.
  unfold _safe_build_slug, sha256_hexdigest.
  destruct (encode_utf8 s); cbn [rbind]; [|congruence].
  destruct (Escapism.escape is_alnum DASH s) eqn:Hesc; cbn [rbind]; [discriminate|].
  intros H. injection H as <-. now apply escape_raises with (s := s).
Qed.

Lemma build_name_raises (build_slug ref : str) (e : exn) :
  build_name_of unicode_lower build_slug ref = Raise e -> e = UnicodeEncodeError.
Proof.
  unfold build_name_of, _generate_build_name.
  destruct (_safe_build_slug unicode_lower build_slug _ 6) eqn:H1; cbn [rbind].
  - destruct (_safe_build_slug unicode_lower ref 6 2) eqn:H2; cbn [rbind];
      [discriminate|].
    intros H. injection H as <-. now apply safe_build_slug_raises in H2.
  - intros H. injection H as <-. now apply safe_build_slug_raises in H1.
Qed.

Lemma get_closing (n : nat) :
  stream_closes_after E = Some n -> closing n (get unicode_lower json_loads E).
Proof.
  intros Hn.
  unfold get, build_and_launch, authorize, resolve_ref, event_log_launch, image_found,
    probe_docker, launch, emit_ready.
  repeat first
    [ apply build_loop_closing; assumption
    | apply launch_attempts_closing; assumption
    | apply probe_registry_closing
    | apply closing_lift; intros e He;
      first [apply safe_build_slug_raises in He | apply build_name_raises in He];
      subst e; discriminate
    | closing_step ].
Qed.

(** X7: when the client closes the stream after [n] frames, [get] stops at
    the next frame it writes: it never writes more than [n + 1] frames, and
    it ends with [Finish] exactly when it wrote that many. *)
Theorem get_stops_when_stream_closes (n : nat) :
  stream_closes_after E = Some n ->
  frames_written (snd (get unicode_lower json_loads E [])) <= S n
  /\ (fst (get unicode_lower json_loads E []) = Raised Finish
      <-> frames_written (snd (get unicode_lower json_loads E [])) = S n).
Proof.
  intros Hn. pose proof (get_closing Hn [] (Nat.le_0_l n)) as H.
  unfold closed_at in H.
  destruct (fst (get unicode_lower json_loads E [])) as [a|e|].
  - split; [lia|]. split; [discriminate | lia].
  - destruct e; try (split; [lia|]; split; [discriminate | lia]).
    split; [lia|]. split; [intros _; exact H | reflexivity].
  - split; [lia|]. split; [discriminate | lia].
Qed.

(** *** Counting effects *)

Lemma kind_eqb_eq (k k' : effect_kind) : kind_eqb k k' = true <-> k = k'.
Proof.
  split.
  - destruct k, k'; try discriminate; try reflexivity;
      try (destruct g, g0; try discriminate; reflexivity);
      destruct s, s0; try discriminate; reflexivity.
  - intros <-. destruct k; try reflexivity;
      try (destruct g; reflexivity); destruct s; reflexivity.
Qed.

Lemma count_kind_nil (k : effect_kind) : count_kind k [] = 0.
Proof. reflexivity. Qed.

Lemma count_kind_app (k : effect_kind) (t d : trace) :
  count_kind k (t ++ d) = count_kind k t + count_kind k d.
Proof. apply count_effects_app. Qed.

Lemma count_kind_one (k : effect_kind) (e : effect) :
  count_kind k [e] = if kind_eqb (kind_of e) k then 1 else 0.
Proof.
  unfold count_kind, count_effects. cbn [filter].
  destruct (kind_eqb (kind_of e) k); reflexivity.
Qed.

Lemma count_kind_cons (k : effect_kind) (e : effect) (t : trace) :
  count_kind k (e :: t) = (if kind_eqb (kind_of e) k then 1 else 0) + count_kind k t.
Proof.
  change (e :: t) with ([e] ++ t). now rewrite count_kind_app, count_kind_one.
Qed.

Lemma only_kinds_cons (ks : list effect_kind) (e : effect) (t : trace) :
  only_kinds ks (e :: t) = existsb (kind_eqb (kind_of e)) ks && only_kinds ks t.
Proof. reflexivity. Qed.

Lemma only_kinds_app (ks : list effect_kind) (t d : trace) :
  only_kinds ks (t ++ d) = only_kinds ks t && only_kinds ks d.
Proof. apply forallb_app. Qed.

Lemma count_kind_outside (ks : list effect_kind) (k : effect_kind) (d : trace) :
  only_kinds ks d = true ->
  existsb (kind_eqb k) ks = false ->
  count_kind k d = 0.
Proof.
  intros Hd Hk. induction d as [|e r IH]; [reflexivity|].
  cbn [only_kinds forallb] in Hd. apply andb_true_iff in Hd. destruct Hd as [He Hr].
  rewrite count_kind_cons, (IH Hr).
  destruct (kind_eqb (kind_of e) k) eqn:Hek; [|reflexivity].
  apply kind_eqb_eq in Hek. subst k. now rewrite He in Hk.
Qed.

(** Goals on the counts of a trace written with appends, from the kinds
    and counts of its unknown parts. *)
Ltac tally :=
  repeat first [rewrite count_kind_app | rewrite count_kind_cons | rewrite count_kind_nil];
  cbn [kind_of kind_eqb gauge_eqb status_eqb];
  repeat match goal with
         | H : only_kinds ?ks ?d = true |- context [count_kind ?k ?d] =>
             rewrite (@count_kind_outside ks k d H eq_refl)
         end;
  lia.

Ltac kinds :=
  repeat first [rewrite only_kinds_app | rewrite only_kinds_cons];
  repeat match goal with
         | H : only_kinds ?ks ?d = true |- context [only_kinds ?ks ?d] => rewrite H
         end;
  reflexivity.

Lemma build_loop_profile (self : attrs) (q : list progress) :
  forall vars,
    spec (build_loop json_loads E self q vars)
         (fun o d =>
            only_kinds build_loop_kinds d = true
            /\ (o = Returned false ->
                failed vars = false /\ count_kind (KBuildCount failure) d = 0)).
Proof.
  induction q as [|p q IH]; intros vars; apply spec_wp; intros t; cbn [build_loop].
  - wp_step. exists []. rewrite app_nil_r. repeat split; discriminate.
  - repeat first
      [ eapply wp_spec; [apply IH|]; cbv beta; cbn [failed];
        intros o d [Hd HF]; extend_trace; split; [kinds|]; intros Ho;
        destruct (HF Ho) as [Hfailed Hcount];
        first [ discriminate Hfailed
              | apply orb_false_iff in Hfailed; destruct Hfailed; discriminate
              | split; [assumption | tally] ]
      | wp_step
      | extend_trace; split; [kinds|]; intros Ho;
        first [discriminate Ho | injection Ho as Ho; split; [assumption | tally]] ].
Qed.

Lemma launch_attempts_profile (self : attrs) (todo : nat) :
  forall i delay,
    spec (launch_attempts E self todo i delay)
         (fun _ d =>
            only_kinds launch_kinds d = true
            /\ count_kind KListPods d = 0
            /\ count_kind KLauncher d <= todo).
Proof.
  induction todo as [|todo IH]; intros i delay; apply spec_wp; intros t;
    cbn [launch_attempts].
  - wp_step. exists []. rewrite app_nil_r. repeat split; tally.
  - destruct (launch_identity E self) as [username server_name].
    repeat first
      [ eapply wp_spec; [apply IH|]; cbv beta; intros o d (Hd & Hpods & Hcalls);
        extend_trace; split; [kinds | split; tally]
      | wp_step
      | extend_trace; split; [kinds | split; tally] ].
Qed.

Lemma launch_profile (self : attrs) (provider : Provider.t) :
  spec (launch E self provider)
       (fun _ d =>
          only_kinds launch_kinds d = true
          /\ count_kind KListPods d = 1
          /\ count_kind KLauncher d <= Z.to_nat (Launcher.retries (launcher E))).
Proof.
  apply spec_wp; intros t. unfold launch, emit_ready.
  repeat first
    [ eapply wp_spec; [apply launch_attempts_profile|]; cbv beta;
      intros o d (Hd & Hpods & Hcalls); destruct o as [a|e|]; cbv beta iota
    | wp_step
    | extend_trace; split; [kinds | split; tally] ].
Qed.

Lemma probe_registry_profile (image : str) (attempts : nat) :
  forall k,
    spec (probe_registry E attempts k image)
         (fun _ d => only_kinds probe_kinds d = true
                     /\ count_kind KRegistry d <= attempts
                     /\ count_kind KDocker d = 0).
Proof.
  induction attempts as [|attempts IH]; intros k; apply spec_wp; intros t;
    cbn [probe_registry].
  - wp_step. exists []. rewrite app_nil_r. repeat split; tally.
  - repeat first
      [ eapply wp_spec; [apply IH|]; cbv beta; intros o d (Hd & Hcalls & Hdocker);
        extend_trace; split; [kinds | split; tally]
      | wp_step
      | extend_trace; split; [kinds | split; tally] ].
Qed.

Lemma image_found_profile (image : str) :
  spec (image_found E image)
       (fun _ d => only_kinds probe_kinds d = true
                   /\ count_kind KRegistry d <= 3
                   /\ count_kind KDocker d <= 1).
Proof.
  unfold image_found. destruct (use_registry E).
  - intros t. destruct (probe_registry_profile image 3 0 t) as (d & Hd & Hk & Hr & Hc).
    exists d. repeat split; try assumption. lia.
  - apply spec_wp; intros t. unfold probe_docker.
    repeat first [ wp_step | extend_trace; split; [kinds | split; tally] ].
Qed.

(** *** The tally of a request *)

Lemma tally_app (t d : trace) : tally (t ++ d) = vadd (tally t) (tally d).
Proof. unfold tally, watched. cbn [map vadd]. now rewrite !count_kind_app. Qed.

Lemma tally_one (e : effect) : tally [e] = kind_tally (kind_of e).
Proof. unfold tally, kind_tally, watched. cbn [map]. now rewrite !count_kind_one. Qed.

Lemma tally_frame (t : trace) (data : json) : tally (t ++ [EmitFrame data]) = tally t.
Proof.
  rewrite tally_app, tally_one. unfold tally, watched. cbn. now rewrite !Nat.add_0_r.
Qed.

Lemma wpt_ret {A} (a : A) (P : outcome A -> list nat -> Prop) (v : list nat) :
  P (Returned a) v -> wpt (ret a) P v.
Proof. intros H t <-. exact H. Qed.

Lemma wpt_raise {A} (e : exn) (P : outcome A -> list nat -> Prop) (v : list nat) :
  P (Raised e) v -> wpt (raise e) P v.
Proof. intros H t <-. exact H. Qed.

Lemma wpt_block {A} (P : outcome A -> list nat -> Prop) (v : list nat) :
  P Blocked v -> wpt block P v.
Proof. intros H t <-. exact H. Qed.

Lemma wpt_perform (e : effect) (P : outcome unit -> list nat -> Prop) (v : list nat) :
  P (Returned tt) (vadd v (kind_tally (kind_of e))) -> wpt (perform e) P v.
Proof.
  intros H t <-. unfold perform. cbn [fst snd]. now rewrite tally_app, tally_one.
Qed.

Lemma wpt_emit (data : json) (P : outcome unit -> list nat -> Prop) (v : list nat) :
  P (Returned tt) v -> P (Raised Finish) v -> wpt (emit E data) P v.
Proof.
  intros Hok Hclosed t <-. rewrite emit_eq. cbn [fst snd]. rewrite tally_frame.
  unfold emitted. destruct (stream_open E t); assumption.
Qed.

Lemma wpt_lift {A} (r : result A) (P : outcome A -> list nat -> Prop) (v : list nat) :
  match r with
  | Ok a => P (Returned a) v
  | Raise e => P (Raised e) v
  end -> wpt (lift r) P v.
Proof. destruct r; intros H t <-; exact H. Qed.

Lemma wpt_bind {A B} (m : M A) (k : A -> M B) (P : outcome B -> list nat -> Prop)
      (v : list nat) :
  wpt m (fun o v' =>
           match o with
           | Returned a => wpt (k a) P v'
           | Raised e => P (Raised e) v'
           | Blocked => P Blocked v'
           end) v ->
  wpt (bind m k) P v.
Proof.
  intros H t Ht. specialize (H t Ht). unfold bind.
  destruct (m t) as [[a|e|] t']; cbn [fst snd] in *; [now apply H | exact H | exact H].
Qed.

Lemma wpt_track {A} (g : gauge) (body : M A) (P : outcome A -> list nat -> Prop)
      (v : list nat) :
  wpt body (fun o v' =>
              match o with
              | Blocked => P Blocked v'
              | _ => P o (vadd v' (kind_tally (KGaugeDec g)))
              end) (vadd v (kind_tally (KGaugeInc g))) ->
  wpt (track_inprogress g body) P v.
Proof.
  intros H t <-. unfold track_inprogress.
  specialize (H (t ++ [GaugeInc g])). rewrite tally_app, tally_one in H.
  specialize (H eq_refl).
  destruct (body (t ++ [GaugeInc g])) as [[a|e|] t']; cbn [fst snd] in *;
    rewrite ?tally_app, ?tally_one; exact H.
Qed.

Lemma wpt_spec {A} (m : M A) (R : outcome A -> trace -> Prop)
      (P : outcome A -> list nat -> Prop) (v : list nat) :
  spec m R -> (forall o d, R o d -> P o (vadd v (tally d))) -> wpt m P v.
Proof.
  intros Hm HP t <-. destruct (Hm t) as [d [Hd HR]]. rewrite Hd, tally_app.
  now apply HP.
Qed.

Ltac wpt_step :=
  lazymatch goal with
  | |- wpt (bind _ _) _ _ => apply wpt_bind
  | |- wpt (ret _) _ _ => apply wpt_ret
  | |- wpt (raise _) _ _ => apply wpt_raise
  | |- wpt block _ _ => apply wpt_block
  | |- wpt (perform _) _ _ => apply wpt_perform
  | |- wpt (emit _ _) _ _ => apply wpt_emit
  | |- wpt (fail _ _) _ _ => apply wpt_emit
  | |- wpt (lift ?r) _ _ => apply wpt_lift; destruct r
  | |- wpt (track_inprogress _ _) _ _ => apply wpt_track
  | |- wpt (if ?b then _ else _) _ _ => destruct b
  | |- wpt (match ?x with _ => _ end) _ _ => destruct x
  end;
  cbv beta iota;
  cbn [vadd kind_tally kind_of map watched kind_eqb gauge_eqb status_eqb Nat.add].

Lemma tally_outside (ks : list effect_kind) (d : trace) :
  only_kinds ks d = true ->
  tally d = map (fun k => if existsb (kind_eqb k) ks then count_kind k d else 0) watched.
Proof.
  intros Hd. unfold tally. apply map_ext. intros k.
  destruct (existsb (kind_eqb k) ks) eqn:Hk; [reflexivity|].
  now apply count_kind_outside with (ks := ks).
Qed.

Lemma launch_tally (self : attrs) (provider : Provider.t) :
  spec (launch E self provider)
       (fun _ d =>
          exists calls,
            calls <= Z.to_nat (Launcher.retries (launcher E))
            /\ tally d = [0; 0; 0; 0; 0; 1; calls; 0; 0; 0; 0; 0; 0; 0]).
Proof.
  intros t. destruct (launch_profile self provider t) as (d & Hd & Hk & Hp & Hc).
  exists d. split; [exact Hd|]. exists (count_kind KLauncher d). split; [exact Hc|].
  rewrite (tally_outside _ _ Hk). cbn. now rewrite Hp.
Qed.

Lemma build_loop_tally (self : attrs) (q : list progress) (vars : loop_vars) :
  spec (build_loop json_loads E self q vars)
       (fun o d =>
          exists failures,
            tally d = [0; 0; 0; 0; 0; 0; 0; 0; 0; failures; 0; 0; 0; 0]
            /\ (o = Returned false -> failures = 0)).
Proof.
  intros t. destruct (build_loop_profile self q vars t) as (d & Hd & Hk & Hf).
  exists d. split; [exact Hd|]. exists (count_kind (KBuildCount failure) d).
  split; [rewrite (tally_outside _ _ Hk); reflexivity|].
  intros Ho. now destruct (Hf Ho).
Qed.

Lemma image_found_tally (image : str) :
  spec (image_found E image)
       (fun _ d =>
          exists registry docker,
            registry <= 3 /\ docker <= 1
            /\ tally d = [0; 0; registry; docker; 0; 0; 0; 0; 0; 0; 0; 0; 0; 0]).
Proof.
  intros t. destruct (image_found_profile image t) as (d & Hd & Hk & Hr & Hc).
  exists d. split; [exact Hd|].
  exists (count_kind KRegistry d), (count_kind KDocker d).
  split; [exact Hr|]. split; [exact Hc|].
  rewrite (tally_outside _ _ Hk). reflexivity.
Qed.

(** The counts of a whole request, whatever its outcome. *)
Lemma get_tally :
  match tally (snd (get unicode_lower json_loads E [])) with
  | [keepalive; resolve; registry; docker; submit; pods; calls; logged;
     built; broken; builds_inc; builds_dec; launches_inc; launches_dec] =>
      (keepalive <= 1 /\ resolve <= 1 /\ registry <= 3 /\ docker <= 1
       /\ submit <= 1 /\ pods <= 1
       /\ calls <= Z.to_nat (Launcher.retries (launcher E))
       /\ logged <= 1 /\ built <= 1 /\ builds_inc <= 1 /\ launches_inc <= 1)
      /\ match fst (get unicode_lower json_loads E []) with
         | Blocked => True
         | _ => builds_inc = builds_dec /\ launches_inc = launches_dec
         end
      /\ match fst (get unicode_lower json_loads E []) with
         | Returned _ => pods = logged
         | _ => True
         end
      /\ (built = 0 \/ broken = 0)
  | _ => False
  end.
Proof.
  set (P := fun (o : outcome unit) (v : list nat) =>
              match v with
              | [keepalive; resolve; registry; docker; submit; pods; calls; logged;
                 built; broken; builds_inc; builds_dec; launches_inc; launches_dec] =>
                  (keepalive <= 1 /\ resolve <= 1 /\ registry <= 3 /\ docker <= 1
                   /\ submit <= 1 /\ pods <= 1
                   /\ calls <= Z.to_nat (Launcher.retries (launcher E))
                   /\ logged <= 1 /\ built <= 1 /\ builds_inc <= 1 /\ launches_inc <= 1)
                  /\ match o with
                     | Blocked => True
                     | _ => builds_inc = builds_dec /\ launches_inc = launches_dec
                     end
                  /\ match o with
                     | Returned _ => pods = logged
                     | _ => True
                     end
                  /\ (built = 0 \/ broken = 0)
              | _ => False
              end).
  change (P (fst (get unicode_lower json_loads E []))
            (tally (snd (get unicode_lower json_loads E [])))).
  assert (H : wpt (get unicode_lower json_loads E) P (tally [])); [|now apply H].
  unfold tally at 1, watched. cbn [map count_kind count_effects filter length].
  unfold get, build_and_launch, authorize, resolve_ref, event_log_launch.
  repeat first
    [ eapply wpt_spec; [apply image_found_tally|]; cbv beta;
      intros o1 d1 (registry & docker & R1 & D1 & ->); destruct o1 as [?|?|];
      cbv beta iota; cbn [vadd Nat.add]
    | eapply wpt_spec; [apply launch_tally|]; cbv beta;
      intros o2 d2 (calls & L2 & ->); destruct o2 as [?|?|];
      cbv beta iota; cbn [vadd Nat.add]
    | eapply wpt_spec; [apply build_loop_tally|]; cbv beta;
      intros o3 d3 (failures & -> & F3); destruct o3 as [[|]|?|];
      cbv beta iota; cbn [vadd Nat.add]; try (rewrite (F3 eq_refl))
    | wpt_step
    | unfold P; lia ].
Qed.

(** X8: the loop over the build queue reads the queue, submits the log
    streaming, writes frames and records build failures, and nothing else:
    it does not launch, sleep or move a gauge. And it ends with [failed]
    unset only if it counted no build failure. *)
Theorem build_loop_effects (self : attrs) (q : list progress) (vars : loop_vars) :
  spec (build_loop json_loads E self q vars)
       (fun o d =>
          only_kinds build_loop_kinds d = true
          /\ (o = Returned false ->
              failed vars = false /\ count_kind (KBuildCount failure) d = 0)).
Proof. apply build_loop_profile. Qed.

(** X9: [launch] lists the pods once and calls the launcher at most
    [launcher.retries] times; besides, it only writes frames, sleeps and
    records launch metrics: it does not touch the build, the registry, the
    gauges or the event log. *)
Theorem launch_effects (self : attrs) (provider : Provider.t) :
  spec (launch E self provider)
       (fun _ d =>
          only_kinds launch_kinds d = true
          /\ count_kind KListPods d = 1
          /\ count_kind KLauncher d <= Z.to_nat (Launcher.retries (launcher E))).
Proof. apply launch_profile. Qed.

(** X10: over one request, whatever its outcome: the keepalive is started,
    the ref resolved, a build submitted and the pods listed at most once
    each; the registry is asked at most three times and the launcher called
    at most [launcher.retries] times; at most one launch event is logged and
    at most one build counted as a success. *)
Theorem get_effect_bounds :
  let tr := snd (get unicode_lower json_loads E []) in
  count_kind KKeepAlive tr <= 1
  /\ count_kind KResolveRef tr <= 1
  /\ count_kind KRegistry tr <= 3
  /\ count_kind KDocker tr <= 1
  /\ count_kind KSubmitBuild tr <= 1
  /\ count_kind KListPods tr <= 1
  /\ count_kind KLauncher tr <= Z.to_nat (Launcher.retries (launcher E))
  /\ count_kind KEventLog tr <= 1
  /\ count_kind (KBuildCount success) tr <= 1.
Proof.
  cbv zeta. pose proof get_tally as H. unfold tally, watched in H. cbn [map] in H.
  destruct H as [H _]. repeat split; lia.
Qed.

(** X11: when [get] ends, by returning or by raising, each gauge has been
    decremented as often as it was incremented, and that is at most once: no
    exception leaves a build or a launch counted as in progress. *)
Theorem get_gauges_balanced (g : gauge) :
  fst (get unicode_lower json_loads E []) <> Blocked ->
  count_kind (KGaugeDec g) (snd (get unicode_lower json_loads E []))
  = count_kind (KGaugeInc g) (snd (get unicode_lower json_loads E []))
  /\ count_kind (KGaugeInc g) (snd (get unicode_lower json_loads E [])) <= 1.
Proof.
  intros Hends. pose proof get_tally as H. unfold tally, watched in H. cbn [map] in H.
  destruct H as (Hbounds & Hgauges & _).
  destruct (fst (get unicode_lower json_loads E [])) as [a|e|]; [| |congruence];
    destruct g; lia.
Qed.

(** X12: when [get] returns, it has logged a launch event (with status
    [success]) exactly if it listed the pods, that is, if [launch] ran and
    returned: also when [launch] only refused for the quota. *)
Theorem get_logs_each_launch :
  (exists value, fst (get unicode_lower json_loads E []) = Returned value) ->
  count_kind KEventLog (snd (get unicode_lower json_loads E []))
  = count_kind KListPods (snd (get unicode_lower json_loads E [])).
Proof.
  intros [value Hreturned]. pose proof get_tally as H.
  unfold tally, watched in H. cbn [map] in H.
  destruct H as (_ & _ & Hlogged & _). rewrite Hreturned in Hlogged. lia.
Qed.

(** X13: no request counts its build both as a success and as a failure. *)
Theorem get_build_counted_once :
  count_kind (KBuildCount success) (snd (get unicode_lower json_loads E [])) = 0
  \/ count_kind (KBuildCount failure) (snd (get unicode_lower json_loads E [])) = 0.
Proof.
  pose proof get_tally as H. unfold tally, watched in H. cbn [map] in H.
  destruct H as (_ & _ & _ & Hbuilt). exact Hbuilt.
Qed.

(** *** The refusals of [get] *)

Lemma emitted_before_frames (t : trace) :
  frames_written t = 0 -> emitted E t = emitted E [].
Proof. intros Ht. unfold emitted, stream_open. now rewrite Ht. Qed.

(** X14: the five refusals of [get]: an unknown provider prefix (before the
    keepalive is started), a provider that cannot be made, a banned repo, a
    ref whose resolution raises, and a ref that resolves to nothing. Each
    writes one [failed] frame and ends the request there: nothing is asked
    of the registry, built or launched. *)
Theorem get_refusals :
  (provider_configured E = false ->
   get unicode_lower json_loads E []
   = (emitted E [],
      [EmitFrame
         (JDict [(u "phase", JStr (u "failed"));
                 (u "message",
                  JStr ((u "No provider found for prefix " ++ provider_prefix E) ++ NL))])]))
  /\ (provider_configured E = true ->
      forall message,
        get_provider E = Throws message ->
        get unicode_lower json_loads E []
        = (emitted E [],
           [SpawnKeepAlive;
            EmitFrame (JDict [(u "phase", JStr (u "failed"));
                              (u "message", JStr (message ++ NL))])]))
  /\ (provider_configured E = true ->
      forall provider,
        get_provider E = Returns provider ->
        (Provider.is_banned provider = true ->
         get unicode_lower json_loads E []
         = (emitted E [],
            [SpawnKeepAlive;
             EmitFrame
               (JDict [(u "phase", JStr (u "failed"));
                       (u "message",
                        JStr (banned_message (rstrip_char SLASH (request_spec E))))])]))
        /\ (Provider.is_banned provider = false ->
            userctx E = None ->
            Provider.get_authorization_provider provider = None ->
            let key := provider_prefix E ++ u ":" ++ rstrip_char SLASH (request_spec E) in
            (forall message,
                Provider.get_resolved_ref provider = Throws message ->
                get unicode_lower json_loads E []
                = (emitted E [],
                   [SpawnKeepAlive; ResolveRef;
                    EmitFrame
                      (JDict [(u "phase", JStr (u "failed"));
                              (u "message",
                               JStr ((u "Error resolving ref for " ++ key ++ u ": "
                                      ++ message ++ NL
                                      ++ u "リポジトリURLを確認してください。") ++ NL))])]))
            /\ (Provider.get_resolved_ref provider = Returns None ->
                get unicode_lower json_loads E []
                = (emitted E [],
                   [SpawnKeepAlive; ResolveRef;
                    EmitFrame
                      (JDict [(u "phase", JStr (u "failed"));
                              (u "message",
                               JStr (unresolved_ref_message provider key ++ NL))])])))).
Proof.
  split; [|split].
  - intros Hconf. unfold get. rewrite Hconf. cbn [negb]. unfold fail.
    rewrite emit_eq. reflexivity.
  - intros Hconf message Hprov. unfold get. rewrite Hconf, Hprov. cbn [negb].
    run. unfold fail. rewrite emit_eq; cbn [app]; rewrite (emitted_before_frames [SpawnKeepAlive] eq_refl).
    reflexivity.
  - intros Hconf provider Hprov. split.
    + intros Hban. unfold get. rewrite Hconf, Hprov, Hban. cbn [negb].
      run. rewrite emit_eq; cbn [app]; rewrite (emitted_before_frames [SpawnKeepAlive] eq_refl). reflexivity.
    + intros Hban Hctx Hauth key. subst key.
      assert (Hstart : forall k : flow (option str) -> M unit,
                 bind (authorize E provider) k ([] ++ [SpawnKeepAlive])
                 = k (Continue None) [SpawnKeepAlive]).
      { intros k. unfold authorize. rewrite Hauth, Hctx. reflexivity. }
      split.
      * intros message Href. unfold get. rewrite Hconf, Hprov, Hban. cbn [negb].
        run. rewrite Hstart. unfold resolve_ref. rewrite Href. run.
        unfold fail. unfold bind at 1. rewrite emit_eq. cbn [app].
        rewrite (emitted_before_frames [SpawnKeepAlive; ResolveRef] eq_refl).
        unfold emitted. destruct (stream_open E []); reflexivity.
      * intros Href. unfold get. rewrite Hconf, Hprov, Hban. cbn [negb].
        run. rewrite Hstart. unfold resolve_ref. rewrite Href. run.
        unfold fail. unfold bind at 1. rewrite emit_eq. cbn [app].
        rewrite (emitted_before_frames [SpawnKeepAlive; ResolveRef] eq_refl).
        unfold emitted. destruct (stream_open E []); reflexivity.
Qed.

(** X15: the authorization step of [get] (lines 250-280), case by case.
    Without an authorization provider, or with [auth_enabled] off, the
    request goes on without a token and the [repo_token] argument is not
    read. Otherwise a [repo_token] argument is registered and used, whatever
    token is stored; else a stored token that the provider validates is
    used; else the client is sent the authorization URL and the request
    ends. The session is opened under the id of the provider, followed by
    ['-'] and [userctx] when the request has one. *)
Theorem authorize_cases (provider : Provider.t) (t : trace) :
  (userctx E = None ->
   Provider.get_authorization_provider provider = None ->
   authorize E provider t = (Returned (Continue None), t))
  /\ (forall provider_id,
         Provider.get_authorization_provider provider = Some provider_id ->
         let id :=
           match userctx E with
           | Some caller_userctx => provider_id ++ u "-" ++ caller_userctx
           | None => provider_id
           end in
         (auth_enabled E = false ->
          authorize E provider t = (Returned (Continue None), t))
         /\ (auth_enabled E = true ->
             (forall repo_token,
                 repo_token_arg E = Some repo_token ->
                 authorize E provider t
                 = (Returned (Continue (Some repo_token)),
                    t ++ [NewSession id; RegisterToken (new_session E id) repo_token]))
             /\ (repo_token_arg E = None ->
                 (forall token,
                     get_access_token_for E id = Some token ->
                     Provider.validate_authorized_token provider token = true ->
                     authorize E provider t = (Returned (Continue (Some token)), t))
                 /\ ((get_access_token_for E id = None
                      \/ exists token,
                          get_access_token_for E id = Some token
                          /\ Provider.validate_authorized_token provider token = false) ->
                     authorize E provider t
                     = (if stream_open E t then Returned (Return (option str)) else Raised Finish,
                        t ++ [NewSession id;
                              EmitFrame
                                (JDict
                                   [(u "phase", JStr (u "auth"));
                                    (u "message",
                                     JStr (u "Authorization required..." ++ NL));
                                    (u "authorization_url",
                                     JStr (Provider.get_authorization_url
                                             provider (new_session E id)))])]))))).
Proof.
  split.
  - intros Hctx Hauth. unfold authorize. now rewrite Hctx, Hauth.
  - intros provider_id Hauth id.
    assert (Hid : forall k : option str -> M (flow (option str)),
               bind (match userctx E with
                     | Some caller_userctx =>
                         match Provider.get_authorization_provider provider with
                         | Some id => ret (Some (id ++ u "-" ++ caller_userctx))
                         | None => raise TypeError
                         end
                     | None => ret (Provider.get_authorization_provider provider)
                     end) k t = k (Some id) t).
    { intros k. subst id. rewrite Hauth. destruct (userctx E); reflexivity. }
    unfold authorize. rewrite Hid. clear Hid. split.
    + intros ->. reflexivity.
    + intros ->. split.
      * intros repo_token ->. run. now rewrite <- app_assoc.
      * intros ->. split.
        -- intros token -> ->. reflexivity.
        -- intros Hnone.
           assert (Hno : match get_access_token_for E id with
                         | Some tok =>
                             if Provider.validate_authorized_token provider tok
                             then Some tok else None
                         | None => None
                         end = None).
           { destruct Hnone as [-> | (token & -> & ->)]; reflexivity. }
           rewrite Hno. run. unfold bind. rewrite emit_eq. unfold emitted.
           rewrite (stream_open_app E t [NewSession id] eq_refl), <- app_assoc.
           destruct (stream_open E t); reflexivity.
Qed.

(** *** Edges of [launch] *)

(** X16: two ways [launch] ends without a server, past the quota check and
    with the client connected. With [launcher.retries] at 0 or less the loop
    body never runs, and reading [server_info] raises UnboundLocalError
    after the [launching] frame. And when the launcher answers without a
    [url], the launch is first counted as a success, then
    [server_info['url']] raises KeyError: no [ready] frame is written. *)
Theorem launch_without_server (self : attrs) (provider : Provider.t) (t : trace) :
  stream_closes_after E = None ->
  quota_exceeded (Provider.quota provider)
                 (matching_pods (rsplit1_head COLON (image_name self)) (pods E)) = false ->
  let launching :=
    EmitFrame (JDict [(u "phase", JStr (u "launching"));
                      (u "message", JStr (u "Launching server..." ++ NL))]) in
  ((Launcher.retries (launcher E) <= 0)%Z ->
   launch E self provider t = (Raised UnboundLocalError, t ++ [ListPods; launching]))
  /\ (forall server_info,
         (0 < Launcher.retries (launcher E))%Z ->
         Launcher.launch (launcher E) 0 = Returns server_info ->
         dict_get (u "url") server_info = None ->
         launch E self provider t
         = (Raised KeyError, t ++ [ListPods; launching] ++ success_effects E self 0)).
Proof.
  intros Hopen Hquota launching. subst launching. split.
  - intros Hretries. unfold launch. rewrite Hquota. run.
    unfold bind at 1. rewrite (emit_open E _ _ Hopen).
    replace (Z.to_nat (Launcher.retries (launcher E))) with 0 by lia.
    cbn [launch_attempts]. run. cbn [emit_ready]. unfold raise.
    now rewrite <- app_assoc.
  - intros server_info Hretries Hlaunch Hurl. unfold launch. rewrite Hquota. run.
    unfold bind at 1. rewrite (emit_open E _ _ Hopen).
    destruct (Z.to_nat (Launcher.retries (launcher E))) as [|todo] eqn:Htodo; [lia|].
    cbn [launch_attempts]. unfold success_effects, launcher_call.
    destruct (launch_identity E self) as [username server_name].
    run. change (Z.to_nat 0) with 0. rewrite Hlaunch. run.
    cbn [emit_ready]. rewrite Hurl. unfold raise.
    rewrite <- !app_assoc. reflexivity.
Qed.

(** X17: the [ready] frame is the answer of the launcher with two defaults:
    each entry of [server_info] is in the frame (so a [phase] or [message]
    of its own replaces the default), [phase] is [ready] and [message] names
    the url when [server_info] has none, and the frame has no other key. *)
Theorem ready_frame_is_server_info (server_info : dict str) (url : str) (t : trace) :
  NoDup (map fst server_info) ->
  dict_get (u "url") server_info = Some url ->
  exists frame,
    emit_ready E (Some server_info) t = (emitted E t, t ++ [EmitFrame (JDict frame)])
    /\ (forall k v, dict_get k server_info = Some v -> dict_get k frame = Some (JStr v))
    /\ (dict_get (u "phase") server_info = None ->
        dict_get (u "phase") frame = Some (JStr (u "ready")))
    /\ (dict_get (u "message") server_info = None ->
        dict_get (u "message") frame
        = Some (JStr (u "server running at " ++ url ++ NL)))
    /\ (forall k,
           dict_get k server_info = None ->
           str_eqb (u "phase") k = false -> str_eqb (u "message") k = false ->
           dict_get k frame = None).
Proof.
  intros Hnodup Hurl.
  set (other := map (fun kv : str * str => (fst kv, JStr (snd kv))) server_info).
  set (event := [(u "phase", JStr (u "ready"));
                 (u "message", JStr (u "server running at " ++ url ++ NL))]).
  assert (Hkeys : NoDup (map fst other)).
  { unfold other. rewrite map_map. exact Hnodup. }
  assert (Hget : forall k, dict_get k other = option_map JStr (dict_get k server_info)).
  { intros k. unfold other. apply dict_get_map_values. }
  exists (dict_update event other). split; [|split; [|split; [|split]]].
  - cbn [emit_ready]. rewrite Hurl. fold event. fold other. apply emit_eq.
  - intros k v Hk. apply (@dict_get_update_some unicode_lower json_loads _ k (JStr v) other event Hkeys).
    rewrite Hget, Hk. reflexivity.
  - intros Hnone. rewrite dict_get_update_none by (now rewrite Hget, Hnone).
    reflexivity.
  - intros Hnone. rewrite dict_get_update_none by (now rewrite Hget, Hnone).
    reflexivity.
  - intros k Hnone Hphase Hmessage.
    rewrite dict_get_update_none by (now rewrite Hget, Hnone).
    unfold event. cbn [dict_get]. now rewrite Hphase, Hmessage.
Qed.

(** *** The extra arguments of the launcher *)

Lemma useropt_strip (key : str) : slice_from (u "useropt." ++ key) 8 = key.
Proof. reflexivity. Qed.

Lemma useropt_key (key : str) :
  startswith (u "useropt.") key = true -> key = u "useropt." ++ slice_from key 8.
Proof.
  unfold startswith. intros H. apply str_eqb_eq in H.
  change (length (u "useropt.")) with 8 in H.
  rewrite <- H. unfold slice_from. symmetry. apply firstn_skipn.
Qed.

Lemma extra_args_skip (qs : list (str * list str)) (acc : dict json) :
  forallb (fun kv => negb (startswith (u "useropt.") (fst kv))) qs = true ->
  fold_left
    (fun acc kv =>
       if startswith (u "useropt.") (fst kv)
       then dict_set (slice_from (fst kv) 8) (JStr (join TAB (snd kv))) acc
       else acc) qs acc = acc.
Proof.
  revert acc. induction qs as [|kv qs IH]; intros acc H; [reflexivity|].
  cbn [forallb fold_left] in *. apply andb_true_iff in H. destruct H as [Hkv Hqs].
  destruct (startswith (u "useropt.") (fst kv)); [discriminate|]. now apply IH.
Qed.

Lemma extra_args_other (qs : list (str * list str)) (acc : dict json) (key : str) :
  ~ In (u "useropt." ++ key) (map fst qs) ->
  dict_get key
    (fold_left
       (fun acc kv =>
          if startswith (u "useropt.") (fst kv)
          then dict_set (slice_from (fst kv) 8) (JStr (join TAB (snd kv))) acc
          else acc) qs acc)
  = dict_get key acc.
Proof.
  revert acc. induction qs as [|kv qs IH]; intros acc Hnot; [reflexivity|].
  cbn [fold_left map] in *. rewrite IH by (intros Hin; apply Hnot; now right).
  destruct (startswith (u "useropt.") (fst kv)) eqn:Hstart; [|reflexivity].
  apply dict_get_set_other. apply str_eqb_neq. intros Heq.
  apply Hnot. left. rewrite (useropt_key _ Hstart). now rewrite Heq.
Qed.

(** X18: query arguments reach the launcher only under a name that starts
    with [useropt.]: the rest of the name becomes the key and the values are
    joined by tabs. Such an argument also replaces an entry the handler made
    itself, [repo_token] included. Without one, the launcher gets the five
    entries of the handler and nothing else. *)
Theorem launch_extra_args_useropt (self : attrs) :
  (forallb (fun kv => negb (startswith (u "useropt.") (fst kv))) (query_arguments E)
   = true ->
   launch_extra_args E self
   = [(u "binder_ref_url", JStr (ref_url self));
      (u "binder_launch_host", JStr (binder_launch_host self));
      (u "binder_request", JStr (binder_request self));
      (u "binder_persistent_request", JStr (binder_persistent_request self));
      (u "repo_token",
       match repo_token self with Some token => JStr token | None => JNull end)])
  /\ (forall key values,
         NoDup (map fst (query_arguments E)) ->
         In (u "useropt." ++ key, values) (query_arguments E) ->
         dict_get key (launch_extra_args E self) = Some (JStr (join TAB values))).
Proof.
  split.
  - intros Hnone. unfold launch_extra_args. rewrite extra_args_skip by exact Hnone.
    vm_compute. reflexivity.
  - intros key values. unfold launch_extra_args.
    generalize (dict_set (u "repo_token")
                  match repo_token self with
                  | Some t => JStr t
                  | None => JNull
                  end
                  [(u "binder_ref_url", JStr (ref_url self));
                   (u "binder_launch_host", JStr (binder_launch_host self));
                   (u "binder_request", JStr (binder_request self));
                   (u "binder_persistent_request",
                    JStr (binder_persistent_request self))]) as acc.
    induction (query_arguments E) as [|kv qs IH]; intros acc Hnodup Hin; [destruct Hin|].
    cbn [map] in Hnodup. inversion Hnodup as [|? ? Hfresh Hrest]. subst.
    cbn [fold_left]. destruct Hin as [-> | Hin].
    + cbn [fst snd]. rewrite startswith_app, useropt_strip.
      rewrite extra_args_other by exact Hfresh. apply dict_get_set_same.
    + now apply IH.
Qed.

(** *** The other events of the build queue *)

(** X19: a [log] event of the build queue. A payload that is not JSON raises
    JSONDecodeError and one that is JSON but not an object raises
    AttributeError, both before anything is written for the event. An object
    is written to the stream as the line it came in; it counts as a build
    failure, and sets [failed], exactly when its [phase] is [failure] or
    [failed]. *)
Theorem build_loop_log_event (self : attrs) (line : str) (q : list progress)
        (vars : loop_vars) (t : trace) :
  let t1 := t ++ [QueueGet (log_event line)] in
  build_loop json_loads E self (log_event line :: q) vars t
  = match json_loads line with
    | None => (Raised JSONDecodeError, t1)
    | Some (JDict items) =>
        let bad := is_failure_phase (dict_get (u "phase") items) in
        let t2 :=
          (if bad
           then t1 ++ [BuildTimeObserve failure;
                       BuildCountInc failure (metric_provider self) (repo_url self)]
           else t1) ++ [EmitFrame (JStr line)] in
        if stream_open E t
        then build_loop json_loads E self q
                        {| log_future := log_future vars;
                           failed := bad || failed vars;
                           event := Some (JStr line) |} t2
        else (Raised Finish, t2)
    | Some _ => (Raised AttributeError, t1)
    end.
Proof.
  cbv zeta. cbn [build_loop].
  change (kind (log_event line)) with (u "log").
  change (payload (log_event line)) with line. run.
  change (str_eqb (u "log") (u "pod.phasechange")) with false. cbv iota.
  rewrite str_eqb_refl.
  destruct (json_loads line) as [[| | | | |items]|]; try reflexivity.
  destruct (is_failure_phase (dict_get (u "phase") items)); run;
    unfold bind; rewrite emit_eq; unfold emitted;
    rewrite !stream_open_app by reflexivity; cbn [orb];
    rewrite <- ?app_assoc; cbn [app];
    destruct (stream_open E t); reflexivity.
Qed.

(** X20: an event of the build queue that is neither a pod phase change nor
    a log line writes again the event of the iteration before, whatever it
    was; as the first event to be written, it raises UnboundLocalError. *)
Theorem build_loop_other_kind (self : attrs) (p : progress) (q : list progress)
        (vars : loop_vars) (t : trace) :
  str_eqb (kind p) (u "pod.phasechange") = false ->
  str_eqb (kind p) (u "log") = false ->
  build_loop json_loads E self (p :: q) vars t
  = match event vars with
    | None => (Raised UnboundLocalError, t ++ [QueueGet p])
    | Some ev =>
        if stream_open E t
        then build_loop json_loads E self q vars (t ++ [QueueGet p; EmitFrame ev])
        else (Raised Finish, t ++ [QueueGet p; EmitFrame ev])
    end.
Proof.
  intros Hkind Hlog. cbn [build_loop]. run. rewrite Hkind, Hlog.
  destruct (event vars) as [ev|]; [|reflexivity].
  unfold bind. rewrite emit_eq. unfold emitted.
  rewrite (stream_open_app E t [QueueGet p] eq_refl), <- app_assoc.
  destruct (stream_open E t); reflexivity.
Qed.

(** *** The pods counted against the quota *)

(** X21: [launch] counts a pod once, however many of its containers run the
    image, and under any tag: pods that run some tag of the repository all
    count. *)
Theorem matching_pods_any_tag (repository : str) (items : list (list str))
        (tags : list str) :
  (0 <= matching_pods repository items <= Z.of_nat (length items))%Z
  /\ (forallb (fun tag => negb (contains_char COLON tag)) tags = true ->
      matching_pods repository (map (fun tag => [repository ++ COLON :: tag]) tags)
      = Z.of_nat (length tags)).
Proof.
  split.
  - unfold matching_pods. pose proof (filter_length_le (pod_matches repository) items).
    lia.
  - intros Htags. unfold matching_pods. f_equal.
    induction tags as [|tag tags IH]; [reflexivity|].
    cbn [forallb] in Htags. apply andb_true_iff in Htags. destruct Htags as [Htag Hrest].
    cbn [map filter]. unfold pod_matches at 1. cbn [existsb].
    rewrite rsplit1_head_app by (now apply negb_true_iff).
    rewrite str_eqb_refl. cbn [orb length]. now rewrite IH.
Qed.

(** *** [send_error] *)

(** X22: [send_error] always writes a [failed] event that carries the status
    code. Its message is the one of the exception when there is one and it
    is not empty, else the reason phrase of the status code, else ['Unknown
    HTTP Error']; with reason phrases that are not empty, the message is
    never empty. *)
Theorem send_error_event (X : Type) (responses : Z -> option str)
        (extract_message : X -> str) (status_code : Z) (exc_info : option X) :
  exists message,
    send_error responses extract_message status_code exc_info
    = JDict [(u "phase", JStr (u "failed"));
             (u "status_code", JInt status_code);
             (u "message", JStr (message ++ NL))]
    /\ is_terminal json_loads
         (send_error responses extract_message status_code exc_info) = true
    /\ (forall info,
           exc_info = Some info -> extract_message info <> [] ->
           message = extract_message info)
    /\ ((exc_info = None \/ exists info, exc_info = Some info /\ extract_message info = []) ->
        message = match responses status_code with
                  | Some reason => reason
                  | None => u "Unknown HTTP Error"
                  end)
    /\ ((forall code reason, responses code = Some reason -> reason <> []) ->
        message <> []).
Proof.
  unfold send_error.
  set (fallback := match responses status_code with
                   | Some reason => reason
                   | None => u "Unknown HTTP Error"
                   end).
  set (first := match exc_info with
                | Some info => extract_message info
                | None => []
                end).
  exists (match first with [] => fallback | _ => first end).
  split; [reflexivity|]. split; [vm_compute; reflexivity|]. split; [|split].
  - intros info -> Hmessage. subst first. cbn.
    destruct (extract_message info); [congruence | reflexivity].
  - intros [-> | (info & -> & Hempty)]; subst first; cbn; [reflexivity|].
    now rewrite Hempty.
  - intros Hreasons. destruct first as [|c r] eqn:Hfirst; [|discriminate].
    subst fallback. destruct (responses status_code) as [reason|] eqn:Hcode.
    + now apply Hreasons with (code := status_code).
    + discriminate.
Qed.

(** *** A request for an image that is already built *)

(** X23: when the registry has the image and the first launch succeeds,
    [get] submits no build: it writes the [built], [launching] and [ready]
    frames, counts one launch, logs it and returns, without the sleep of 60
    seconds that ends the build path. *)
Theorem get_with_cached_image (provider : Provider.t)
        (ref safe_build_slug build_name repo tag : str)
        (image_manifest : json) (server_info : dict str) (url : str) :
  let spec := rstrip_char SLASH (request_spec E) in
  let image := format_image_name unicode_lower (image_prefix E) safe_build_slug ref in
  let self := make_attrs E provider spec ref None image in
  provider_configured E = true ->
  get_provider E = Returns provider ->
  Provider.is_banned provider = false ->
  userctx E = None ->
  Provider.get_authorization_provider provider = None ->
  Provider.get_resolved_ref provider = Returns (Some ref) ->
  _safe_build_slug unicode_lower (Provider.get_build_slug provider)
                   (255 - len (image_prefix E)) 6 = Ok safe_build_slug ->
  build_name_of unicode_lower (Provider.get_build_slug provider) ref = Ok build_name ->
  use_registry E = true ->
  manifest_args image = [repo; tag] ->
  get_image_manifest E 0 repo tag = Manifest image_manifest ->
  truthy image_manifest = true ->
  stream_closes_after E = None ->
  quota_exceeded (Provider.quota provider)
                 (matching_pods (rsplit1_head COLON image) (pods E)) = false ->
  (0 < Launcher.retries (launcher E))%Z ->
  Launcher.launch (launcher E) 0 = Returns server_info ->
  dict_get (u "url") server_info = Some url ->
  get unicode_lower json_loads E []
  = (Returned tt,
     [SpawnKeepAlive; ResolveRef; RegistryGetManifest repo tag;
      EmitFrame (found_event image);
      GaugeInc LAUNCHES_INPROGRESS; ListPods;
      EmitFrame (JDict [(u "phase", JStr (u "launching"));
                        (u "message", JStr (u "Launching server..." ++ NL))])]
     ++ success_effects E self 0
     ++ [EmitFrame
           (JDict (dict_update
                     [(u "phase", JStr (u "ready"));
                      (u "message", JStr (u "server running at " ++ url ++ NL))]
                     (map (fun kv => (fst kv, JStr (snd kv))) server_info)));
         GaugeDec LAUNCHES_INPROGRESS;
         EventLogLaunch (Provider.name provider) spec ref
                        (match normalized_origin E with
                         | [] => request_host E
                         | origin => origin
                         end)]).
Proof.
  intros spec image self Hconf Hprov Hban Hctx Hauth Href Hsafe Hname Hreg Hargs
         Hmanifest Htruthy Hopen Hquota Hretries Hlaunch Hurl.
  assert (Hlaunched :
            forall t,
              launch E self provider t
              = (Returned tt,
                 t ++ [ListPods;
                       EmitFrame (JDict [(u "phase", JStr (u "launching"));
                                         (u "message",
                                          JStr (u "Launching server..." ++ NL))])]
                   ++ success_effects E self 0
                   ++ [EmitFrame
                         (JDict (dict_update
                                   [(u "phase", JStr (u "ready"));
                                    (u "message",
                                     JStr (u "server running at " ++ url ++ NL))]
                                   (map (fun kv => (fst kv, JStr (snd kv)))
                                        server_info)))])).
  { intros t. unfold launch. subst self. cbn [image_name make_attrs].
    fold spec. fold image. rewrite Hquota. run.
    unfold bind at 1. rewrite (emit_open E _ _ Hopen).
    destruct (Z.to_nat (Launcher.retries (launcher E))) as [|todo] eqn:Htodo; [lia|].
    unfold bind at 1.
    rewrite (@launch_attempts_step E _ todo 0 _ _ Hopen), Hlaunch.
    cbn [emit_ready]. rewrite Hurl, (emit_open E _ _ Hopen).
    rewrite <- !app_assoc. reflexivity. }
  unfold get. rewrite Hconf, Hprov, Hban. cbn [negb].
  unfold authorize. rewrite Hctx, Hauth.
  unfold resolve_ref. rewrite Href. run.
  rewrite (bind_lift_ok _ _ Hsafe). rewrite (bind_lift_ok _ _ Hname).
  cbn [image_name make_attrs]. fold spec. fold image. fold self.
  unfold image_found. rewrite Hreg. unfold bind at 1.
  rewrite (@probe_registry_step E 2 0 image repo tag _ Hargs), Hmanifest, Htruthy.
  unfold bind at 1. rewrite (emit_open E _ _ Hopen).
  unfold bind at 1, track_inprogress. rewrite Hlaunched.
  unfold event_log_launch, perform. rewrite <- !app_assoc. reflexivity.
Qed.

(** *** Errors of the registry probe *)

Lemma split1_without (c : codepoint) (s : str) :
  contains_char c s = false -> split1 c s = [s].
Proof.
  unfold contains_char. induction s as [|x r IH]; [reflexivity|].
  cbn [existsb split1]. intros H. apply orb_false_iff in H. destruct H as [Hx Hr].
  rewrite N.eqb_sym, Hx, (IH Hr). reflexivity.
Qed.

(** X24: two ways the registry probe fails. When the last two
    ['/']-separated components of the image name hold no [':'] (as with a
    ref of three path components), the call of [get_image_manifest] lacks
    its [tag] and raises TypeError before the registry is asked. And an
    error of the registry other than an HTTP client error is not caught: it
    is raised at once, without another attempt. *)
Theorem registry_probe_errors (image : str) (t : trace) :
  (contains_char COLON (join (u "/") (last_two (split SLASH image))) = false ->
   probe_registry E 3 0 image t = (Raised TypeError, t))
  /\ (forall repo tag message,
         manifest_args image = [repo; tag] ->
         get_image_manifest E 0 repo tag = ManifestError message ->
         probe_registry E 3 0 image t
         = (Raised (Exception message), t ++ [RegistryGetManifest repo tag])).
Proof.
  split.
  - intros Hcolon. cbn [probe_registry]. unfold manifest_args.
    rewrite (split1_without _ _ Hcolon). reflexivity.
  - intros repo tag message Hargs Herror.
    rewrite (@probe_registry_step E 2 0 image repo tag t Hargs), Herror. reflexivity.
Qed.

(** *** One build name, one image, one ref *)

Ltac carried :=
  repeat first [rewrite forallb_app | progress cbn [forallb carries]];
  rewrite ?str_eqb_refl;
  repeat match goal with
         | H : forallb ?P ?d = true |- context [forallb ?P ?d] => rewrite H
         end;
  cbn [andb]; reflexivity.

Lemma build_loop_carries (build_name image ref : str) (self : attrs) (q : list progress) :
  forall vars,
    spec (build_loop json_loads E self q vars)
         (fun _ d => forallb (carries build_name image ref) d = true).
Proof.
  induction q as [|p q IH]; intros vars; apply spec_wp; intros t; cbn [build_loop].
  - wp_step. exists []. now rewrite app_nil_r.
  - repeat first
      [ eapply wp_spec; [apply IH|]; cbv beta; intros o d Hd; extend_trace; carried
      | wp_step
      | extend_trace; carried ].
Qed.

Lemma launch_attempts_carries (build_name ref : str) (self : attrs) (todo : nat) :
  forall i delay,
    spec (launch_attempts E self todo i delay)
         (fun _ d => forallb (carries build_name (image_name self) ref) d = true).
Proof.
  induction todo as [|todo IH]; intros i delay; apply spec_wp; intros t;
    cbn [launch_attempts].
  - wp_step. exists []. now rewrite app_nil_r.
  - destruct (launch_identity E self) as [username server_name].
    repeat first
      [ eapply wp_spec; [apply IH|]; cbv beta; intros o d Hd; extend_trace; carried
      | wp_step
      | extend_trace; carried ].
Qed.

Lemma launch_carries (build_name ref : str) (self : attrs) (provider : Provider.t) :
  spec (launch E self provider)
       (fun _ d => forallb (carries build_name (image_name self) ref) d = true).
Proof.
  apply spec_wp; intros t. unfold launch, emit_ready.
  repeat first
    [ eapply wp_spec; [apply (launch_attempts_carries build_name ref)|]; cbv beta;
      intros o d Hd; destruct o as [a|e|]; cbv beta iota
    | wp_step
    | extend_trace; carried ].
Qed.

Lemma probe_registry_carries (build_name image ref name : str) (attempts : nat) :
  forall k,
    spec (probe_registry E attempts k name)
         (fun _ d => forallb (carries build_name image ref) d = true).
Proof.
  induction attempts as [|attempts IH]; intros k; apply spec_wp; intros t;
    cbn [probe_registry].
  - wp_step. exists []. now rewrite app_nil_r.
  - repeat first
      [ eapply wp_spec; [apply IH|]; cbv beta; intros o d Hd; extend_trace; carried
      | wp_step
      | extend_trace; carried ].
Qed.

Lemma image_found_carries (build_name image ref : str) :
  spec (image_found E image)
       (fun _ d => forallb (carries build_name image ref) d = true).
Proof.
  unfold image_found. destruct (use_registry E); [apply probe_registry_carries|].
  apply spec_wp; intros t. unfold probe_docker.
  repeat first [ wp_step | extend_trace; carried ].
Qed.

(** X25: over a whole request, the build that is submitted, the image that
    is looked for, built and launched, and the ref that is built and logged
    are the ones [get] computed: the build name and the image name of the
    slug and the resolved ref. *)
Theorem get_uses_one_image (provider : Provider.t) (ref safe_build_slug build_name : str) :
  get_provider E = Returns provider ->
  Provider.get_resolved_ref provider = Returns (Some ref) ->
  _safe_build_slug unicode_lower (Provider.get_build_slug provider)
                   (255 - len (image_prefix E)) 6 = Ok safe_build_slug ->
  build_name_of unicode_lower (Provider.get_build_slug provider) ref = Ok build_name ->
  forallb (carries build_name
                   (format_image_name unicode_lower (image_prefix E) safe_build_slug ref)
                   ref)
          (snd (get unicode_lower json_loads E [])) = true.
Proof.
  intros Hprov Href Hsafe Hname.
  set (image := format_image_name unicode_lower (image_prefix E) safe_build_slug ref).
  change (wp (get unicode_lower json_loads E)
             (fun _ tr => forallb (carries build_name image ref) tr = true) []).
  unfold get, build_and_launch, authorize, resolve_ref, event_log_launch.
  rewrite Hprov, Href.
  repeat first
    [ match goal with
      | H : Ok _ = Ok _ |- _ => injection H as ->
      | H : Raise _ = Ok _ |- _ => discriminate H
      end
    | progress (cbn [image_name make_attrs]; fold image)
    | eapply wp_spec; [apply (image_found_carries build_name image ref)|]; cbv beta;
      intros o1 d1 H1; destruct o1 as [?|?|]; cbv beta iota
    | eapply wp_spec;
      [apply (@launch_carries build_name ref
                (make_attrs E provider (rstrip_char SLASH (request_spec E)) ref _ image)
                provider)|];
      cbv beta; cbn [image_name make_attrs];
      intros o2 d2 H2; destruct o2 as [?|?|]; cbv beta iota
    | eapply wp_spec; [apply (build_loop_carries build_name image ref)|]; cbv beta;
      intros o3 d3 H3; destruct o3 as [[|]|?|]; cbv beta iota
    | wp_step
    | carried ].
Qed.

End Handler.

(* ===================================================================== *)
(** ** The properties on the example requests *)
(* ===================================================================== *)

Import Scenario.

(** The digests of [abc] and of the empty message, as FIPS 180-4 gives
    them; the first and the last round constant. *)
Example hexdigest_abc :
  sha256_hexdigest (u "abc")
  = Ok (u "ba7816bf8f01cfea414140de5dae2223b00361a396177a9cb410ff61f20015ad")
  /\ sha256_hexdigest []
     = Ok (u "e3b0c44298fc1c149afbf4c8996fb92427ae41e4649b934ca495991b7852b855")
  /\ hd 0%N Sha256.round_constants = 0x428a2f98%N
  /\ last Sha256.round_constants 0%N = 0xc67178f2%N.
Proof. repeat split; vm_compute; reflexivity. Qed.

(** The build name of [owner-repo] at [abc123]. *)
Lemma generate_build_name_owner_repo :
  exists name,
    (forall unicode_lower,
        _generate_build_name unicode_lower (u "owner-repo") (u "abc123") (u "build-") 63 6
        = Ok name)
    /\ length name <= 63
    /\ forallb is_dns_char name = true.
Proof. apply generate_build_name_deterministic; reflexivity. Defined.

(** A slug of 300 characters under the prefix [gcr.io/binder/r2d-]: the part
    before the tag is cut at 255 characters. *)
Lemma long_image_name_repository :
  exists repository tag,
    image_name_of no_unicode (u "gcr.io/binder/r2d-") long_slug commit
    = Ok (repository ++ COLON :: tag)
    /\ length repository <= 255
    /\ length tag = length commit.
Proof.
  apply image_name_repository_bound;
    [reflexivity | reflexivity | reflexivity | vm_compute; discriminate].
Defined.

(** The same image name has 296 characters: 255, the colon, and the 40 of
    the ref. *)
Lemma long_image_name :
  exists name,
    image_name_of no_unicode (u "gcr.io/binder/r2d-") long_slug commit = Ok name
    /\ length name = 296.
Proof. eexists. split; [vm_compute; reflexivity | reflexivity]. Qed.

(** The names of [owner-repo] at [abc123] under the prefix [reg/r2d-]. *)
Lemma clean_edges_owner_repo :
  exists build_name image_name,
    build_name_of no_unicode (u "owner-repo") (u "abc123") = Ok build_name
    /\ image_name_of no_unicode (u "reg/r2d-") (u "owner-repo") (u "abc123")
       = Ok image_name
    /\ starts_with_char DASH build_name = false
    /\ ends_with_char DASH build_name = false
    /\ contains_char UNDERSCORE build_name = false
    /\ contains_char UNDERSCORE image_name = false
    /\ starts_with_char DASH image_name = false
    /\ ends_with_char DASH image_name = false.
Proof.
  destruct (names_have_clean_edges no_unicode (u "reg/r2d-") (u "owner-repo")
              (u "abc123") eq_refl eq_refl)
    as (build_name & Hbuild & Hhead & Htail & Hunder & Himage).
  destruct (Himage eq_refl eq_refl) as (image_name & Hname & Hunder' & Hhead' & Htail').
  exists build_name, image_name.
  repeat split; try assumption; [apply Hhead' | apply Htail']; reflexivity.
Defined.

(** A ref that ends with ['_'] gives an image name that ends with ['-']. *)
Lemma image_name_trailing_dash :
  image_name_of no_unicode (u "reg/r2d-") (u "owner-repo") (u "release_")
  = Ok (u "reg/r2d-owner-2drepo-60160f:release-")
  /\ ends_with_char DASH (u "reg/r2d-owner-2drepo-60160f:release-") = true.
Proof. split; vm_compute; reflexivity. Qed.

(** The request with [userctx] ends with TypeError. *)
Lemma userctx_raises_type_error :
  get no_unicode loads with_userctx [] = (Raised TypeError, [SpawnKeepAlive]).
Proof.
  apply (@userctx_without_authorization_provider no_unicode loads with_userctx
           (github None None) (u "ctx")); reflexivity.
Defined.

(** The image is built and launched: [ready] is the one terminal frame, and
    the last frame. The request with [userctx] raises: the frame of
    [send_error] is the one terminal frame. The failed build has none. The
    client that leaves gets nothing after the frames of [get]. *)
Lemma terminal_event_is_last_fresh_build :
  one_terminal_frame_last
    loads (frames (snd (_execute no_unicode loads fresh_build reasons no_message [])))
  = true
  /\ one_terminal_frame_last
       loads (frames (snd (_execute no_unicode loads with_userctx reasons no_message [])))
     = true
  /\ existsb (is_terminal loads)
             (frames (snd (_execute no_unicode loads failed_build reasons no_message [])))
     = false
  /\ snd (_execute no_unicode loads client_leaves reasons no_message [])
     = snd (get no_unicode loads client_leaves [])
  /\ terminal_frames_last loads (frames (snd (get no_unicode loads launch_fails [])))
     = true.
Proof.
  assert (Hserver : forall k server_info,
             launches k = Returns server_info ->
             dict_get (u "phase") server_info = None).
  { intros k server_info Hlaunch. injection Hlaunch as <-. reflexivity. }
  assert (Hlate : forall k server_info,
             launches_after 3 k = Returns server_info ->
             dict_get (u "phase") server_info = None).
  { intros k server_info Hlaunch. unfold launches_after in Hlaunch.
    destruct (k <? 3)%nat; [discriminate Hlaunch|].
    injection Hlaunch as <-. reflexivity. }
  pose proof (@terminal_event_is_last no_unicode loads fresh_build reasons no_message
                ltac:(vm_compute; reflexivity) Hserver) as Hfresh.
  pose proof (@terminal_event_is_last no_unicode loads with_userctx reasons no_message
                ltac:(vm_compute; reflexivity) Hserver) as Hctx.
  pose proof (@terminal_event_is_last no_unicode loads failed_build reasons no_message
                ltac:(vm_compute; reflexivity) Hserver) as Hfailed.
  pose proof (@terminal_event_is_last no_unicode loads client_leaves reasons no_message
                ltac:(vm_compute; reflexivity) Hserver) as Hleaves.
  pose proof (@terminal_event_is_last no_unicode loads launch_fails reasons no_message
                ltac:(vm_compute; reflexivity) Hlate) as Hlaunch.
  cbv zeta in Hfresh, Hctx, Hfailed, Hleaves, Hlaunch.
  destruct Hfresh as (Hone & _).
  destruct Hctx as (_ & Hraised & _).
  destruct Hfailed as (_ & _ & Hnone & _).
  destruct Hleaves as (_ & _ & _ & Hfinish & _).
  destruct Hlaunch as (_ & _ & _ & _ & Hlast).
  split; [|split; [|split; [|split]]].
  - apply Hone; vm_compute; reflexivity.
  - apply (Hraised TypeError); [vm_compute; reflexivity | discriminate
                               | vm_compute; reflexivity].
  - apply Hnone; vm_compute; reflexivity.
  - apply Hfinish. intros e He.
    assert (Hget : fst (get no_unicode loads client_leaves []) = Raised Finish)
      by (vm_compute; reflexivity).
    rewrite Hget in He. now injection He as <-.
  - exact Hlast.
Defined.

(** The build fails: [get] returns after the frames [waiting], the failure
    log and [built], none of them [ready] or [failed], and nothing is
    written after them. *)
Lemma failed_build_has_no_terminal_event :
  fst (get no_unicode loads failed_build []) = Returned tt
  /\ map (frame_phase loads)
         (frames (snd (_execute no_unicode loads failed_build reasons no_message [])))
     = [Some (JStr (u "waiting")); Some (JStr (u "failure")); Some (JStr (u "built"))]
  /\ existsb (is_terminal loads)
             (frames (snd (_execute no_unicode loads failed_build reasons no_message [])))
     = false.
Proof. repeat split; vm_compute; reflexivity. Qed.

(** A log line with phase [failed] is written as it is, and [built] follows
    it. *)
Example failed_log_is_followed :
  plain_queue loads (build_queue failed_log_build) = false
  /\ map (frame_phase loads)
         (frames (snd (_execute no_unicode loads failed_log_build reasons no_message [])))
     = [Some (JStr (u "waiting")); Some (JStr (u "failed")); Some (JStr (u "built"))].
Proof. split; vm_compute; reflexivity. Qed.

(** The launch fails at each attempt: [launch] writes its [failed] frame and
    raises, and [send_error] writes one more, with the status code. *)
Example launch_failure_is_sent_twice :
  fst (get no_unicode loads launch_fails []) = Raised (Exception (u "timeout"))
  /\ map (frame_phase loads)
         (frames (snd (_execute no_unicode loads launch_fails reasons no_message [])))
     = [Some (JStr (u "built")); Some (JStr (u "launching"));
        Some (JStr (u "launching")); Some (JStr (u "launching"));
        Some (JStr (u "failed")); Some (JStr (u "failed"))]
  /\ last (frames (snd (_execute no_unicode loads launch_fails reasons no_message [])))
          JNull
     = JDict [(u "phase", JStr (u "failed"));
              (u "status_code", JInt 500);
              (u "message", JStr (u "Internal Server Error" ++ NL))].
Proof. repeat split; vm_compute; reflexivity. Qed.

(** With a host for the badges, that host is the launch host, whole; without
    one it is made of the request. *)
Example binder_launch_host_examples :
  binder_launch_host (example_attrs with_badge) = u "https://badge.example.org/"
  /\ binder_launch_host (example_attrs cache_hit) = u "https://binder.example.org/"
  /\ str_or (Some []) (u "https://binder.example.org/") = u "https://binder.example.org/".
Proof. split; [|split]; vm_compute; reflexivity. Qed.

(** Two failed launches, then a success: the sleeps last 1 and 2; and three
    failed launches out of three. *)
Lemma launch_two_retries :
  launch_attempts two_retries (example_attrs two_retries) 3 0 1 []
  = (Returned (Some server),
     flat_map (retry_effects two_retries (example_attrs two_retries)) [0; 1]
     ++ success_effects two_retries (example_attrs two_retries) 2)
  /\ map (fun e => match e with Sleep d => Some d | _ => None end)
         (filter (fun e => match e with Sleep _ => true | _ => false end)
                 (snd (launch_attempts two_retries (example_attrs two_retries) 3 0 1 [])))
     = [Some 1%Z; Some 2%Z]
  /\ launch_attempts launch_fails (example_attrs launch_fails) 3 0 1 []
     = (Raised (Exception (u "timeout")),
        flat_map (retry_effects launch_fails (example_attrs launch_fails)) [0; 1]
        ++ last_failure_effects launch_fails (example_attrs launch_fails) (u "timeout"))
  /\ exists frame,
      emit_ready two_retries (Some server) [] = (Returned tt, [EmitFrame (JDict frame)])
      /\ dict_get (u "phase") frame = Some (JStr (u "ready"))
      /\ dict_get (u "url") frame
         = Some (JStr (u "https://hub.example.org/user/owner-repo-x1/")).
Proof.
  destruct (@launch_retries_with_backoff no_unicode loads two_retries
              (example_attrs two_retries) (fun _ => u "timeout") [] eq_refl)
    as (Hsuccess & _ & Hready).
  destruct (@launch_retries_with_backoff no_unicode loads launch_fails
              (example_attrs launch_fails) (fun _ => u "timeout") [] eq_refl)
    as (_ & Hfailure & _).
  split; [|split; [|split]].
  - apply (Hsuccess 2 server); [simpl; lia | | reflexivity].
    intros j Hj. destruct j as [|[|j]]; [reflexivity | reflexivity | lia].
  - vm_compute. reflexivity.
  - apply (Hfailure 2); [reflexivity|].
    intros j Hj. destruct j as [|[|[|j]]]; try reflexivity. simpl in Hj. lia.
  - apply Hready; [| reflexivity | reflexivity].
    repeat constructor; simpl; intuition discriminate.
Defined.

(** The failure log of the failed build, and the request as a whole. *)
Lemma failed_build_is_not_launched :
  build_loop loads failed_build (example_attrs failed_build)
             [log_event failure_log; phasechange (u "Deleted")]
             {| log_future := true; failed := false; event := None |} []
  = build_loop loads failed_build (example_attrs failed_build)
               [phasechange (u "Deleted")]
               {| log_future := true; failed := true;
                  event := Some (JStr failure_log) |}
               [QueueGet (log_event failure_log);
                BuildTimeObserve failure;
                BuildCountInc failure (metric_provider (example_attrs failed_build))
                              (repo_url (example_attrs failed_build));
                EmitFrame (JStr failure_log)]
  /\ forallb not_launch (snd (get no_unicode loads failed_build [])) = true.
Proof.
  destruct (@failure_log_stops_launch no_unicode loads failed_build failure_log
              [(u "phase", JStr (u "failure"));
               (u "message", JStr (u "bad Dockerfile"))] eq_refl eq_refl)
    as [Hstep Hquiet].
  split.
  - apply (Hstep (example_attrs failed_build) [phasechange (u "Deleted")]
                 {| log_future := true; failed := false; event := None |} []).
  - apply Hquiet. vm_compute.
    repeat first [left; reflexivity | right].
Defined.

(** Five pods run the image and the quota is five. *)
Lemma launch_over_quota_five_pods :
  launch over_quota (example_attrs over_quota) (github None (Some 5%Z)) []
  = (Returned tt,
     [ListPods;
      EmitFrame (JDict [(u "phase", JStr (u "failed"));
                        (u "message",
                         JStr (quota_message (example_attrs over_quota) ++ NL))])])
  /\ is_substring (repo_url (example_attrs over_quota))
                  (quota_message (example_attrs over_quota)) = true.
Proof.
  apply (@launch_over_quota over_quota (example_attrs over_quota)
           (github None (Some 5%Z)) 5%Z []);
    [reflexivity | discriminate | vm_compute; discriminate].
Defined.

(** A quota of 0 is defined and reached by no pod at all, and the server is
    launched. *)
Lemma quota_zero_launches :
  Provider.quota (github None (Some 0%Z)) = Some 0%Z
  /\ (0 <=? matching_pods (rsplit1_head COLON (image_name (example_attrs quota_zero)))
                          (pods quota_zero))%Z = true
  /\ fst (launch quota_zero (example_attrs quota_zero) (github None (Some 0%Z)) [])
     = Returned tt
  /\ existsb is_launcher_call
             (snd (launch quota_zero (example_attrs quota_zero) (github None (Some 0%Z)) []))
     = true
  /\ map (frame_phase loads)
         (frames (snd (launch quota_zero (example_attrs quota_zero)
                              (github None (Some 0%Z)) [])))
     = [Some (JStr (u "launching")); Some (JStr (u "ready"))].
Proof. repeat split; vm_compute; reflexivity. Qed.

(** The registry answers at once, or never: then the image is built. Under
    the prefix [gcr.io/binder/r2d-] it is asked for the project and the
    name. *)
Lemma registry_unreachable_builds :
  manifest_args image = [image_repo; u "abc123"]
  /\ manifest_args (u "gcr.io/binder/r2d-owner-2drepo-60160f:abc123")
     = [u "binder/r2d-owner-2drepo-60160f"; u "abc123"]
  /\ probe_registry cache_hit 3 0 image []
     = (Returned true, [RegistryGetManifest image_repo (u "abc123")])
  /\ probe_registry registry_unreachable 3 0 image []
     = (Returned false, repeat (RegistryGetManifest image_repo (u "abc123")) 3)
  /\ get no_unicode loads registry_unreachable []
     = build_and_launch loads registry_unreachable (example_attrs registry_unreachable)
                        (github None None) (u "owner/repo/abc123") (u "abc123")
                        (u "build-owner-2drepo-60160f-abc-6c")
                        ([SpawnKeepAlive; ResolveRef]
                         ++ repeat (RegistryGetManifest image_repo (u "abc123")) 3).
Proof.
  destruct (@registry_probe_retries no_unicode loads cache_hit image image_repo
              (u "abc123") [])
    as (Hsplit & Hfound & _); [vm_compute; reflexivity ..|].
  destruct (@registry_probe_retries no_unicode loads registry_with_host
              (u "gcr.io/binder/r2d-owner-2drepo-60160f:abc123")
              (u "binder/r2d-owner-2drepo-60160f") (u "abc123") [])
    as (Hhost & _); [vm_compute; reflexivity ..|].
  destruct (@registry_probe_retries no_unicode loads registry_unreachable image
              image_repo (u "abc123") [])
    as (_ & _ & Hdown); [vm_compute; reflexivity ..|].
  split; [exact Hsplit | split; [exact Hhost | split]].
  - apply (Hfound 0 (JDict [(u "schemaVersion", JInt 2)]));
      [lia | intros j Hj; lia | reflexivity].
  - destruct Hdown as [Hprobe Hget]; [intros j _; reflexivity|].
    split; [exact Hprobe|].
    apply (Hget (github None None) (u "abc123") (u "owner-2drepo-60160f")
                (u "build-owner-2drepo-60160f-abc-6c"));
      try reflexivity; vm_compute; reflexivity.
Defined.

(** Under the prefix [gcr.io/binder/r2d-] the rightmost [':'] of the image
    name has [gcr.io/binder/r2d-owner-2drepo-60160f] before it, and the
    registry is asked for [binder/r2d-owner-2drepo-60160f]. *)
Lemma registry_host_dropped :
  image_name_of no_unicode (u "gcr.io/binder/r2d-") (u "owner-repo") (u "abc123")
  = Ok (u "gcr.io/binder/r2d-owner-2drepo-60160f:abc123")
  /\ rsplit1_head COLON (u "gcr.io/binder/r2d-owner-2drepo-60160f:abc123")
     = u "gcr.io/binder/r2d-owner-2drepo-60160f"
  /\ rsplit1_tail COLON (u "gcr.io/binder/r2d-owner-2drepo-60160f:abc123")
     = Some (u "abc123")
  /\ manifest_args (u "gcr.io/binder/r2d-owner-2drepo-60160f:abc123")
     = [u "binder/r2d-owner-2drepo-60160f"; u "abc123"]
  /\ nth_error (snd (get no_unicode loads registry_with_host [])) 2
     = Some (RegistryGetManifest (u "binder/r2d-owner-2drepo-60160f") (u "abc123")).
Proof. repeat split; vm_compute; reflexivity. Qed.

(** With a port in the registry name there are two [':'] in the last two
    components: [split(':', 1)] cuts at the port and the registry is asked
    for [localhost], where [launch] cuts the same name at its last [':']
    (lines 521 and 541). *)
Lemma registry_port_split :
  image_name_of no_unicode (u "localhost:5000/r2d-") (u "owner-repo") (u "abc123")
  = Ok (u "localhost:5000/r2d-owner-2drepo-60160f:abc123")
  /\ rsplit1_head COLON (u "localhost:5000/r2d-owner-2drepo-60160f:abc123")
     = u "localhost:5000/r2d-owner-2drepo-60160f"
  /\ rsplit1_tail COLON (u "localhost:5000/r2d-owner-2drepo-60160f:abc123")
     = Some (u "abc123")
  /\ manifest_args (u "localhost:5000/r2d-owner-2drepo-60160f:abc123")
     = [u "localhost"; u "5000/r2d-owner-2drepo-60160f:abc123"]
  /\ nth_error (snd (get no_unicode loads registry_with_port [])) 2
     = Some (RegistryGetManifest (u "localhost")
                                 (u "5000/r2d-owner-2drepo-60160f:abc123")).
Proof. repeat split; vm_compute; reflexivity. Qed.


(** The safe slug of [owner-repo] within 12 characters. *)
Lemma safe_build_slug_owner_repo :
  exists name digest,
    sha256_hexdigest (u "owner-repo") = Ok digest
    /\ _safe_build_slug no_unicode (u "owner-repo") 12 6
       = Ok (name ++ DASH :: slice_to digest 6)
    /\ len (name ++ DASH :: slice_to digest 6) = (len name + 1 + 6)%Z
    /\ (6 + 1 <= 12 -> len (name ++ DASH :: slice_to digest 6) <= 12)%Z
    /\ forallb is_dns_char (name ++ DASH :: slice_to digest 6) = true.
Proof.
  apply (@safe_build_slug_bounds no_unicode (u "owner-repo") 12 6); [reflexivity | lia].
Defined.

(** The slug [Binder] fits in 63 characters. *)
Lemma safe_build_slug_binder :
  exists digest,
    sha256_hexdigest (u "Binder") = Ok digest
    /\ _safe_build_slug no_unicode (u "Binder") 63 6
       = Ok (map lower_char (u "Binder") ++ DASH :: slice_to digest 6).
Proof.
  apply (@safe_build_slug_of_short_slug no_unicode (u "Binder") 63 6);
    [reflexivity | vm_compute; discriminate].
Defined.

(** A name under the prefix [Launch-], within 40 characters, with 8
    characters for the ref. *)
Lemma generate_build_name_launch_prefix :
  exists rest,
    _generate_build_name no_unicode (u "owner-repo") (u "abc123") (u "Launch-") 40 8
    = Ok (map lower_char (u "Launch-") ++ rest)
    /\ (len (map lower_char (u "Launch-") ++ rest) <= 40)%Z
    /\ forallb is_dns_char rest = true.
Proof.
  apply (@generate_build_name_within_limit no_unicode (u "owner-repo") (u "abc123")
           (u "Launch-") 40 8);
    [reflexivity | reflexivity | reflexivity | lia | vm_compute; discriminate].
Defined.

(** The refs [Feature_X] and [feature-x] share one image name. *)
Lemma image_name_feature_x :
  exists name,
    image_name_of no_unicode (u "reg/r2d-") (u "owner-repo") (u "Feature_X") = Ok name
    /\ image_name_of no_unicode (u "reg/r2d-") (u "owner-repo") (u "feature-x") = Ok name.
Proof.
  apply (@image_name_of_similar_refs no_unicode (u "reg/r2d-") (u "owner-repo")
           (u "Feature_X") (u "feature-x")); reflexivity.
Defined.

(** The image of [owner-repo] at [abc123], up to its tag. *)
Lemma image_without_tag_owner_repo :
  exists repository tag,
    image_name_of no_unicode (u "reg/r2d-") (u "owner-repo") (u "abc123")
    = Ok (repository ++ COLON :: tag)
    /\ rsplit1_head COLON (repository ++ COLON :: tag) = repository
    /\ ((len (u "reg/r2d-") <= 248)%Z -> length repository <= 255)
    /\ forall ref',
        is_ascii ref' = true ->
        exists tag',
          image_name_of no_unicode (u "reg/r2d-") (u "owner-repo") ref'
          = Ok (repository ++ COLON :: tag').
Proof.
  apply (@image_without_tag_ignores_ref no_unicode (u "reg/r2d-") (u "owner-repo")
           (u "abc123")); reflexivity.
Defined.

(** The client leaves after the [built] frame: the [launching] frame is
    the second and last. *)
Lemma client_leaves_after_one_frame :
  frames_written (snd (get no_unicode loads client_leaves [])) <= 2
  /\ (fst (get no_unicode loads client_leaves []) = Raised Finish
      <-> frames_written (snd (get no_unicode loads client_leaves [])) = 2).
Proof.
  apply (@get_stops_when_stream_closes no_unicode loads client_leaves 1). reflexivity.
Defined.

(** The gauge of builds after the fresh build. *)
Lemma fresh_build_gauges :
  count_kind (KGaugeDec BUILDS_INPROGRESS) (snd (get no_unicode loads fresh_build []))
  = count_kind (KGaugeInc BUILDS_INPROGRESS) (snd (get no_unicode loads fresh_build []))
  /\ count_kind (KGaugeInc BUILDS_INPROGRESS) (snd (get no_unicode loads fresh_build []))
     <= 1.
Proof.
  apply (@get_gauges_balanced no_unicode loads fresh_build BUILDS_INPROGRESS).
  vm_compute. discriminate.
Defined.

(** Over the quota: the launch is refused, and logged. *)
Lemma over_quota_is_logged :
  count_kind KEventLog (snd (get no_unicode loads over_quota []))
  = count_kind KListPods (snd (get no_unicode loads over_quota [])).
Proof.
  apply (@get_logs_each_launch no_unicode loads over_quota).
  exists tt. vm_compute. reflexivity.
Defined.

(** No retries, and no url. *)
Lemma launch_without_server_examples :
  launch no_retries (example_attrs no_retries) (github None None) []
  = (Raised UnboundLocalError,
     [ListPods;
      EmitFrame (JDict [(u "phase", JStr (u "launching"));
                        (u "message", JStr (u "Launching server..." ++ NL))])])
  /\ launch no_url (example_attrs no_url) (github None None) []
     = (Raised KeyError,
        [ListPods;
         EmitFrame (JDict [(u "phase", JStr (u "launching"));
                           (u "message", JStr (u "Launching server..." ++ NL))])]
        ++ success_effects no_url (example_attrs no_url) 0).
Proof.
  split.
  - destruct (@launch_without_server no_retries (example_attrs no_retries)
                (github None None) [] eq_refl eq_refl) as [Hnone _].
    apply Hnone. vm_compute. discriminate.
  - destruct (@launch_without_server no_url (example_attrs no_url)
                (github None None) [] eq_refl eq_refl) as [_ Hkey].
    apply (Hkey [(u "token", u "t0ken")]); reflexivity.
Defined.

(** The [ready] frame of the example server. *)
Lemma ready_frame_of_server :
  exists frame,
    emit_ready cache_hit (Some server) [] = (emitted cache_hit [], [EmitFrame (JDict frame)])
    /\ (forall k v, dict_get k server = Some v -> dict_get k frame = Some (JStr v))
    /\ (dict_get (u "phase") server = None ->
        dict_get (u "phase") frame = Some (JStr (u "ready")))
    /\ (dict_get (u "message") server = None ->
        dict_get (u "message") frame
        = Some (JStr (u "server running at "
                      ++ u "https://hub.example.org/user/owner-repo-x1/" ++ NL)))
    /\ (forall k,
           dict_get k server = None ->
           str_eqb (u "phase") k = false -> str_eqb (u "message") k = false ->
           dict_get k frame = None).
Proof.
  apply (@ready_frame_is_server_info no_unicode loads cache_hit server
           (u "https://hub.example.org/user/owner-repo-x1/") []);
    [|vm_compute; reflexivity].
  repeat constructor; simpl; intuition discriminate.
Defined.

(** An event of an unknown kind after a log line, and as first event. *)
Lemma build_status_event :
  build_loop loads fresh_build (example_attrs fresh_build) [build_status]
             {| log_future := false; failed := false; event := None |} []
  = (Raised UnboundLocalError, [QueueGet build_status]).
Proof.
  apply (@build_loop_other_kind loads fresh_build (example_attrs fresh_build)
           build_status []
           {| log_future := false; failed := false; event := None |} []);
    vm_compute; reflexivity.
Defined.

(** The request for the cached image of [owner-repo], and the same on a hub
    with a host for its badges: the launcher is given that host. *)
Lemma cached_image_owner_repo :
  (fst (get no_unicode loads cache_hit []) = Returned tt
   /\ map kind_of (snd (get no_unicode loads cache_hit []))
      = [KKeepAlive; KResolveRef; KRegistry; KFrame;
         KGaugeInc LAUNCHES_INPROGRESS; KListPods; KFrame;
         KLauncher; KLaunchTime success; KLaunchCount success; KFrame;
         KGaugeDec LAUNCHES_INPROGRESS; KEventLog])
  /\ nth_error (snd (get no_unicode loads with_badge [])) 7
     = Some (LauncherLaunch
               image (u "owner-repo-x1") [] (u "https://github.com/owner/repo")
               [(u "binder_ref_url", JStr (u "https://github.com/owner/repo/tree/abc123"));
                (u "binder_launch_host", JStr (u "https://badge.example.org/"));
                (u "binder_request", JStr (u "v2/gh/owner/repo/abc123"));
                (u "binder_persistent_request", JStr (u "v2/gh/owner/repo/abc123"));
                (u "repo_token", JNull)]).
Proof.
  split.
  - rewrite (@get_with_cached_image no_unicode loads cache_hit (github None None)
               (u "abc123") (u "owner-2drepo-60160f")
               (u "build-owner-2drepo-60160f-abc-6c") image_repo (u "abc123")
               (JDict [(u "schemaVersion", JInt 2)]) server
               (u "https://hub.example.org/user/owner-repo-x1/"))
      by (vm_compute; reflexivity).
    split; vm_compute; reflexivity.
  - rewrite (@get_with_cached_image no_unicode loads with_badge (github None None)
               (u "abc123") (u "owner-2drepo-60160f")
               (u "build-owner-2drepo-60160f-abc-6c") image_repo (u "abc123")
               (JDict [(u "schemaVersion", JInt 2)]) server
               (u "https://hub.example.org/user/owner-repo-x1/"))
      by (vm_compute; reflexivity).
    vm_compute. reflexivity.
Defined.

(** The names of the fresh build. *)
Lemma fresh_build_names :
  forallb (carries (u "build-owner-2drepo-60160f-abc-6c")
                   (format_image_name no_unicode (image_prefix fresh_build)
                                      (u "owner-2drepo-60160f") (u "abc123"))
                   (u "abc123"))
          (snd (get no_unicode loads fresh_build [])) = true.
Proof.
  apply (@get_uses_one_image no_unicode loads fresh_build (github None None)
           (u "abc123") (u "owner-2drepo-60160f")
           (u "build-owner-2drepo-60160f-abc-6c"));
    vm_compute; reflexivity.
Defined.
